(** * Knowledge Graph Engine (ipproject.c): a shallow embedding and its properties

    The C program keeps a global hash table [gHash] of entities, each with a
    linked list of outgoing relations, resolves free-text names to entities,
    searches paths breadth-first and reads / writes a line-oriented triple
    format.  This file embeds those functions and states the properties of
    the specification over the embedding.

    Conventions of the embedding
    - a C string is the list of its bytes before the terminating NUL;
    - an [Entity *] is the allocation index of the entity in the heap;
    - a linked list (hash chain, adjacency list) is the list of its cells,
      head first;
    - the table [gHash] is the map from a bucket index to its chain, an
      absent index standing for NULL;
    - an [int] that counts is kept in [Z]; the [int] that [atoi] returns is
      the 32-bit value the C library computes, see [atoi];
    - a function that prints its answer returns it; of the other output only
      the prompt of the disambiguation is kept, on the console;
    - a write past the end of a fixed-size array is undefined behaviour in C
      and appears as an explicit fault in the result; the program has no
      state after it, and no property below speaks of one. *)

From Stdlib Require Import ZArith Ascii String List Lia Bool.
From stdpp Require Import base option list gmap strings.

Open Scope Z_scope.

#[global] Set Warnings "-clear-no-such-hyp".

(** ** Configuration constants *)

Definition HASH_SIZE   : nat := 101.
Definition NAME_LEN    : nat := 128.
Definition REL_LEN     : nat := 128.
Definition LINE_BUF    : nat := 512.
Definition SUGGEST_MAX : nat := 16.
Definition QUEUE_INIT  : nat := 128.
Definition PATH_STACK  : nat := 1024.

(** [int] has 32 bits and [long] 64 (LP64). *)
Definition INT_MIN  : Z := - 2 ^ 31.
Definition INT_MAX  : Z := 2 ^ 31 - 1.
Definition LONG_MIN : Z := - 2 ^ 63.
Definition LONG_MAX : Z := 2 ^ 63 - 1.

(** ** C strings and the <ctype.h> / <string.h> functions the program uses *)

Module CStr.

Abbreviation cstr := (list ascii) (only parsing).

Definition lit (s : string) : cstr := list_ascii_of_string s.

(** [(unsigned char) c] *)
Definition code (c : ascii) : Z := Z.of_N (N_of_ascii c).

(** [isspace] in the "C" locale: space, \t, \n, \v, \f, \r. *)
Definition isspace (c : ascii) : bool :=
  (code c =? 32) || ((9 <=? code c) && (code c <=? 13)).

(** [tolower] in the "C" locale. *)
Definition tolower (c : ascii) : ascii :=
  if (65 <=? code c) && (code c <=? 90)
  then ascii_of_N (N_of_ascii c + 32)
  else c.

Definition NUL : ascii := Ascii.zero.
Definition SP  : ascii := " "%char.
Definition BAR : ascii := "|"%char.
Definition HASHMARK : ascii := "#"%char.
Definition LF  : ascii := ascii_of_nat 10.
Definition CR  : ascii := ascii_of_nat 13.

Definition ascii_eqb (a b : ascii) : bool := bool_decide (a = b).

(** [strcmp(a, b) == 0] *)
Definition streq (a b : cstr) : bool := bool_decide (a = b).

(** [strncpy(dst, src, n); dst[n] = 0] with [strlen src] possibly above [n]. *)
Definition strncpy (src : cstr) (n : nat) : cstr := take n src.

(** [strchr(s, c)] as the offset of the first occurrence. *)
Fixpoint strchr (s : cstr) (c : ascii) : option nat :=
  match s with
  | [] => None
  | x :: s' => if ascii_eqb x c then Some 0%nat else S <$> strchr s' c
  end.

(** [strncmp(a, b, n)] *)
Fixpoint strncmp (a b : cstr) (n : nat) {struct n} : Z :=
  match n with
  | O => 0
  | S n' =>
      match a, b with
      | ca :: a', cb :: b' =>
          if code ca =? code cb then strncmp a' b' n' else code ca - code cb
      | [], [] => 0
      | [], cb :: _ => 0 - code cb
      | ca :: _, [] => code ca
      end
  end.

Fixpoint is_prefix (p s : cstr) : bool :=
  match p, s with
  | [], _ => true
  | _ :: _, [] => false
  | x :: p', y :: s' => ascii_eqb x y && is_prefix p' s'
  end.

(** [strstr(hay, needle) != NULL] *)
Fixpoint strstr (hay needle : cstr) : bool :=
  is_prefix needle hay ||
  match hay with
  | [] => false
  | _ :: hay' => strstr hay' needle
  end.

(** *** trim

    [start] runs over the leading white space, [end] runs back from the last
    byte while it is white space and above [start]. *)
Fixpoint trim_start (s : cstr) : nat :=
  match s with
  | c :: s' => if isspace c then S (trim_start s') else 0%nat
  | [] => 0%nat
  end.

Fixpoint trim_end (s : cstr) (start e : nat) : nat :=
  match e with
  | O => 0%nat
  | S e' =>
      if (start <? e)%nat && from_option isspace false (s !! e)
      then trim_end s start e'
      else e
  end.

(** The bytes kept are [s[start .. end]]; their number [end - start + 1] is
    computed in [size_t], where it is 0 when [start = end + 1] (a string of
    white space only), which the truncated subtraction of [nat] gives too. *)
Definition trim (s : cstr) : cstr :=
  let len := length s in
  let start := trim_start s in
  let e := trim_end s start (if (0 <? len)%nat then len - 1 else 0)%nat in
  take (e + 1 - start)%nat (drop start s).

(** *** squeeze_spaces *)
Fixpoint squeeze_from (in_space : bool) (s : cstr) : cstr :=
  match s with
  | [] => []
  | c :: s' =>
      if isspace c
      then (if in_space then squeeze_from true s' else SP :: squeeze_from true s')
      else c :: squeeze_from false s'
  end.

Definition squeeze_spaces (s : cstr) : cstr := squeeze_from false s.

(** [trim(s); squeeze_spaces(s);], the normalization applied to every name
    and label the program reads. *)
Definition normalize (s : cstr) : cstr := squeeze_spaces (trim s).

(** *** to_lower_copy, ci_cmp, ci_contains *)
Definition to_lower_copy (src : cstr) (dstsz : nat) : cstr :=
  map tolower (take (dstsz - 1)%nat src).

Definition head_code (s : cstr) : Z :=
  match s with [] => 0 | c :: _ => code c end.

Fixpoint ci_cmp (a b : cstr) : Z :=
  match a, b with
  | ca :: a', cb :: b' =>
      if code (tolower ca) =? code (tolower cb)
      then ci_cmp a' b'
      else code (tolower ca) - code (tolower cb)
  | _, _ => head_code a - head_code b
  end.

Definition ci_contains (hay needle : cstr) : bool :=
  strstr (to_lower_copy hay (NAME_LEN * 2)) (to_lower_copy needle NAME_LEN).

(** *** atoi: optional white space, optional sign, decimal digits.
    ISO C leaves [atoi] undefined when the number does not fit an [int]; the
    value here is the one the C library of the program computes,
    [(int) strtol(s, NULL, 10)]: [strtol] stops at the bounds of [long] and
    the conversion to [int] keeps the low 32 bits. *)
Definition digit_of (c : ascii) : option Z :=
  if (48 <=? code c) && (code c <=? 57) then Some (code c - 48) else None.

Fixpoint atoi_digits (acc : Z) (s : cstr) : Z :=
  match s with
  | c :: s' =>
      match digit_of c with
      | Some d => atoi_digits (acc * 10 + d) s'
      | None => acc
      end
  | [] => acc
  end.

(** The number written at the start of [s]. *)
Definition decimal (s : cstr) : Z :=
  match drop (trim_start s) s with
  | c :: s' =>
      if ascii_eqb c "-"%char then - atoi_digits 0 s'
      else if ascii_eqb c "+"%char then atoi_digits 0 s'
      else atoi_digits 0 (c :: s')
  | [] => 0
  end.

Definition strtol (s : cstr) : Z := Z.max LONG_MIN (Z.min LONG_MAX (decimal s)).

(** The conversion of a [long] to [int]. *)
Definition to_int (z : Z) : Z := (z - INT_MIN) mod 2 ^ 32 + INT_MIN.

Definition atoi (s : cstr) : Z := to_int (strtol s).

End CStr.
Import CStr.

(** ** Streams: stdin and files, read with fgets *)

Module Stream.

(** [fgets(buf, n, fp)] copies at most [n - 1] bytes and stops after a
    newline. *)
Fixpoint fgets_take (room : nat) (s : list ascii) : list ascii * list ascii :=
  match room, s with
  | O, _ => ([], s)
  | _, [] => ([], [])
  | S r, c :: s' =>
      if ascii_eqb c LF then ([c], s')
      else let '(a, b) := fgets_take r s' in (c :: a, b)
  end.

Definition fgets (n : nat) (s : list ascii) : option (list ascii * list ascii) :=
  match s with
  | [] => None
  | _ => Some (fgets_take (n - 1) s)
  end.

(** The C string held by a buffer that was filled by [fgets] and then cut
    with [buf[strcspn(buf, "\r\n")] = 0]. *)
Fixpoint chomp (buf : list ascii) : cstr :=
  match buf with
  | [] => []
  | c :: buf' =>
      if ascii_eqb c NUL || ascii_eqb c CR || ascii_eqb c LF then []
      else c :: chomp buf'
  end.

(** [read_line(buf, n)] on a given input; at end of input the buffer is
    empty. *)
Definition read_line (n : nat) (s : list ascii) : cstr * list ascii :=
  match fgets n s with
  | None => ([], s)
  | Some (buf, rest) => (chomp buf, rest)
  end.

(** All buffers a [while (fgets(line, sizeof line, fp))] loop sees.  Every
    call consumes at least one byte, so [length fp] rounds are enough. *)
Fixpoint fgets_loop (fuel : nat) (fp : list ascii) : list (list ascii) :=
  match fuel with
  | O => []
  | S k =>
      match fgets LINE_BUF fp with
      | None => []
      | Some (buf, rest) => buf :: fgets_loop k rest
      end
  end.

Definition fgets_all (fp : list ascii) : list (list ascii) :=
  fgets_loop (length fp) fp.

End Stream.
Import Stream.

(** ** Data structures *)

Abbreviation ptr := nat (only parsing).

Record Relation := mkRelation {
  rel : cstr;
  target : ptr
}.

Record Entity := mkEntity {
  name : cstr;
  relations : list Relation;
  visited : Z;
  prev : option ptr
}.

(** The allocated entities and the table [gHash]: bucket [i] holds the chain
    that starts at [gHash[i]]; an absent bucket is the NULL chain. *)
Record Graph := mkGraph {
  heap : list Entity;
  gHash : gmap nat (list ptr)
}.

Definition empty_graph : Graph := {| heap := []; gHash := ∅ |}.

Definition bucket (g : Graph) (i : nat) : list ptr := default [] (gHash g !! i).

(** The order of [for (i = 0; i < HASH_SIZE; ++i) for (e = gHash[i]; e; e = e->hnext)]. *)
Definition all_entities (g : Graph) : list ptr :=
  concat (map (bucket g) (seq 0 HASH_SIZE)).

(** ** Hash table operations *)

(** djb2 in [unsigned long], taken as 64 bits wide (LP64). *)
Definition ULONG_MOD : Z := 2 ^ 64.

Fixpoint djb2 (h : Z) (s : cstr) : Z :=
  match s with
  | [] => h
  | c :: s' => djb2 ((((Z.shiftl h 5 mod ULONG_MOD) + h) mod ULONG_MOD + code c) mod ULONG_MOD) s'
  end.

Definition hash_index (s : cstr) : nat := Z.to_nat (djb2 5381 s mod Z.of_nat HASH_SIZE).

Fixpoint find_in_chain (h : list Entity) (nm : cstr) (chain : list ptr) : option ptr :=
  match chain with
  | [] => None
  | e :: rest =>
      match h !! e with
      | Some E => if streq (name E) nm then Some e else find_in_chain h nm rest
      | None => None
      end
  end.

Definition find_entity_exact (nm : cstr) (g : Graph) : option ptr :=
  find_in_chain (heap g) nm (bucket g (hash_index nm)).

Definition create_entity (nm : cstr) (g : Graph) : ptr * Graph :=
  let e := {| name := strncpy nm (NAME_LEN - 1); relations := [];
              visited := 0; prev := None |} in
  let p := length (heap g) in
  let idx := hash_index (name e) in
  (p, {| heap := heap g ++ [e];
         gHash := <[idx := p :: bucket g idx]> (gHash g) |}).

Definition get_or_create_entity (nm : cstr) (g : Graph) : ptr * Graph :=
  match find_entity_exact nm g with
  | Some e => (e, g)
  | None => create_entity nm g
  end.

(** ** Graph operations *)

Definition push_relation (R : Relation) (E : Entity) : Entity :=
  {| name := name E; relations := R :: relations E;
     visited := visited E; prev := prev E |}.

Definition add_relationship (src rl tgt : cstr) (g : Graph) : Graph :=
  let '(pS, g1) := get_or_create_entity src g in
  let '(pT, g2) := get_or_create_entity tgt g1 in
  let R := {| rel := strncpy rl (REL_LEN - 1); target := pT |} in
  {| heap := alter (push_relation R) pS (heap g2); gHash := gHash g2 |}.

(** ** Console: the bytes waiting on stdin and what the fuzzy search prints *)

Inductive Output :=
  | DidYouMean (names : list cstr)   (* the enumerated list and "Choose (1-n) or 0 to cancel" *)
  | CancelledSelection.

Record Console := mkConsole {
  stdin : list ascii;
  stdout : list Output
}.

Definition print (o : Output) (con : Console) : Console :=
  {| stdin := stdin con; stdout := stdout con ++ [o] |}.

Definition console_read_line (n : nat) (con : Console) : cstr * Console :=
  let '(buf, rest) := read_line n (stdin con) in
  (buf, {| stdin := rest; stdout := stdout con |}).

(** [e->name] *)
Definition ename (g : Graph) (e : ptr) : cstr := from_option name [] (heap g !! e).

(** ** Fuzzy search *)

Definition fuzzy_pick_from_suggestions (g : Graph) (list : list ptr) (count : Z)
    (con : Console) : option ptr * Console :=
  if count <=? 0 then (None, con)
  else if count =? 1 then (list !! 0%nat, con)
  else
    let con1 := print (DidYouMean (map (ename g) (take (Z.to_nat count) list))) con in
    let '(buf, con2) := console_read_line 32 con1 in
    let choice := atoi buf in
    if (1 <=? choice) && (choice <=? count)
    then (list !! Z.to_nat (choice - 1), con2)
    else (None, print CancelledSelection con2).

(** Pass 1: the first entity, in table order, whose name is [key] up to case. *)
Fixpoint first_ci_match (g : Graph) (key : cstr) (es : list ptr) : option ptr :=
  match es with
  | [] => None
  | e :: es' =>
      if ci_cmp (ename g e) key =? 0 then Some e else first_ci_match g key es'
  end.

(** Passes 2 and 3: both loops run while [sc < SUGGEST_MAX]. *)
Fixpoint collect (test : cstr -> bool) (g : Graph) (es : list ptr) (sugg : list ptr)
    : list ptr :=
  match es with
  | [] => sugg
  | e :: es' =>
      if (length sugg <? SUGGEST_MAX)%nat
      then collect test g es' (if test (ename g e) then sugg ++ [e] else sugg)
      else sugg
  end.

Definition prefix_test (key nm : cstr) : bool :=
  let lowE := to_lower_copy nm NAME_LEN in
  let lowK := to_lower_copy key NAME_LEN in
  strncmp lowE lowK (length lowK) =? 0.

Definition substring_test (key nm : cstr) : bool := ci_contains nm key.

Definition search_entity_smart (user_input : cstr) (g : Graph) (con : Console)
    : option ptr * Console :=
  let key := squeeze_spaces (trim (strncpy user_input (NAME_LEN - 1))) in
  match key with
  | [] => (None, con)
  | _ =>
      match first_ci_match g key (all_entities g) with
      | Some e => (Some e, con)
      | None =>
          let sugg := collect (prefix_test key) g (all_entities g) [] in
          let sugg :=
            if (length sugg =? 0)%nat
            then collect (substring_test key) g (all_entities g) sugg
            else sugg in
          fuzzy_pick_from_suggestions g sugg (Z.of_nat (length sugg)) con
      end
  end.

(** ** BFS path finding *)

Definition clear_marks (E : Entity) : Entity :=
  {| name := name E; relations := relations E; visited := 0; prev := None |}.

Definition mark_visited (E : Entity) : Entity :=
  {| name := name E; relations := relations E; visited := 1; prev := prev E |}.

Definition mark_reached (cur : ptr) (E : Entity) : Entity :=
  {| name := name E; relations := relations E; visited := 1; prev := Some cur |}.

(** [reset_bfs_marks] walks every chain of the table. *)
Definition reset_bfs_marks (g : Graph) : Graph :=
  {| heap := foldl (fun h e => alter clear_marks e h) (heap g) (all_entities g);
     gHash := gHash g |}.

(** What C leaves undefined, or what the embedding cannot follow. *)
Inductive Fault :=
  | QueueOverflow      (* Q[tail++] written at tail >= cap *)
  | StackOverflow      (* stack[top++] written at top >= 1024 *)
  | DanglingPointer    (* a pointer that is no allocated entity *)
  | FuelExhausted.     (* the rounds given to a loop are used up: never
                          returned, see [bfs_run_fuel] *)

Inductive BfsOutcome :=
  | BfsFound
  | BfsExhausted
  | BfsFault (f : Fault).

(** The inner [for (r = cur->relations; r; r = r->next)]: the queue [Q] holds
    the [tail = length Q] entries written so far, [cap] is its capacity. *)
Fixpoint bfs_scan (cur : ptr) (rs : list Relation) (h : list Entity) (Q : list ptr)
    (cap : nat) : Fault + (list Entity * list ptr) :=
  match rs with
  | [] => inr (h, Q)
  | r :: rs' =>
      let n := target r in
      match h !! n with
      | None => inl DanglingPointer
      | Some E =>
          if visited E =? 0
          then if (cap <=? length Q)%nat then inl QueueOverflow
               else bfs_scan cur rs' (<[n := mark_reached cur E]> h) (Q ++ [n]) cap
          else bfs_scan cur rs' h Q cap
      end
  end.

(** The [while (head < tail)] loop. *)
Fixpoint bfs_loop (fuel : nat) (tgt : ptr) (h : list Entity) (Q : list ptr)
    (head cap : nat) : BfsOutcome * list Entity :=
  match fuel with
  | O => (BfsFault FuelExhausted, h)
  | S k =>
      match Q !! head with
      | None => (BfsExhausted, h)
      | Some cur =>
          let cap := if (cap <=? length Q)%nat then (cap * 2)%nat else cap in
          if (cur =? tgt)%nat then (BfsFound, h)
          else
            match h !! cur with
            | None => (BfsFault DanglingPointer, h)
            | Some E =>
                match bfs_scan cur (relations E) h Q cap with
                | inl f => (BfsFault f, h)
                | inr (h', Q') => bfs_loop k tgt h' Q' (S head) cap
                end
            end
      end
  end.

(** [for (p = tgt; p; p = p->prev) stack[top++] = p;] with [room] free slots. *)
Fixpoint walk_prev (room : nat) (h : list Entity) (p : option ptr)
    : Fault + list ptr :=
  match p with
  | None => inr []
  | Some q =>
      match room with
      | O => inl StackOverflow
      | S k =>
          match h !! q with
          | None => inl DanglingPointer
          | Some E =>
              match walk_prev k h (prev E) with
              | inl f => inl f
              | inr st => inr (q :: st)
              end
          end
      end
  end.

(** What [find_path_bfs] reports. *)
Inductive PathResult :=
  | SourceNotFound
  | TargetNotFound
  | PathNotFound (src tgt : cstr)
  | PathFound (path : list cstr)
  | Undefined (f : Fault).

Definition resolve (fuzzy : bool) (input : cstr) (g : Graph) (con : Console)
    : option ptr * Console :=
  if fuzzy then search_entity_smart input g con
  else (find_entity_exact input g, con).

(** The traversal: [reset_bfs_marks], the source marked and queued, then the
    loop.  It visits every entity at most once, so one round per allocated
    entity and one more to see the queue empty are enough. *)
Definition bfs_run (src tgt : ptr) (g : Graph) : BfsOutcome * list Entity :=
  let g1 := reset_bfs_marks g in
  let h1 := alter mark_visited src (heap g1) in
  bfs_loop (S (length h1)) tgt h1 [src] 0 QUEUE_INIT.

(** The search proper, from the call of [reset_bfs_marks] on.  With a report
    [Undefined f] the C program has written out of bounds and has no state:
    the graph returned beside it stands for none, and the properties of the
    state after a query are stated for the other reports only. *)
Definition bfs_from (src tgt : ptr) (g : Graph) : PathResult * Graph :=
  let '(out, h2) := bfs_run src tgt g in
  let g2 := {| heap := h2; gHash := gHash g |} in
  match out with
  | BfsFault f => (Undefined f, g2)
  | BfsExhausted => (PathNotFound (ename g2 src) (ename g2 tgt), g2)
  | BfsFound =>
      match walk_prev PATH_STACK h2 (Some tgt) with
      | inl f => (Undefined f, g2)
      | inr st => (PathFound (map (ename g2) (reverse st)), g2)
      end
  end.

Definition find_path_bfs (src_in tgt_in : cstr) (fuzzy : bool) (g : Graph)
    (con : Console) : PathResult * Graph * Console :=
  let '(src, con1) := resolve fuzzy src_in g con in
  let '(tgt, con2) := resolve fuzzy tgt_in g con1 in
  match src, tgt with
  | None, _ => (SourceNotFound, g, con2)
  | Some _, None => (TargetNotFound, g, con2)
  | Some src, Some tgt =>
      let '(r, g') := bfs_from src tgt g in (r, g', con2)
  end.

(** ** File I/O *)

Definition parse_relation_line (line : cstr) : option (cstr * cstr * cstr) :=
  match strchr line BAR with
  | None => None
  | Some p1 =>
      let after1 := drop (S p1) line in
      match strchr after1 BAR with
      | None => None
      | Some L2 =>
          let after2 := drop (S L2) after1 in
          let L1 := p1 in
          let L3 := length after2 in
          if (L1 =? 0)%nat || (L2 =? 0)%nat || (L3 =? 0)%nat then None
          else
            let L1 := if (NAME_LEN <=? L1)%nat then (NAME_LEN - 1)%nat else L1 in
            let L2 := if (REL_LEN <=? L2)%nat then (REL_LEN - 1)%nat else L2 in
            let L3 := if (NAME_LEN <=? L3)%nat then (NAME_LEN - 1)%nat else L3 in
            let src := strncpy line L1 in
            let rl := strncpy after1 L2 in
            let tgt := strncpy after2 L3 in
            Some (squeeze_spaces (trim src), squeeze_spaces (trim rl),
                  squeeze_spaces (trim tgt))
      end
  end.

(** The state of the reading loop of [load_from_file]. *)
Record LoadState := mkLoad {
  ld_graph : Graph;
  ld_count : Z;
  ld_bad : Z;
  ld_lineNo : Z;
  ld_skipped : list (Z * cstr)   (* "Skipping invalid line %d: \"%s\"" *)
}.

Definition load_step (st : LoadState) (buf : list ascii) : LoadState :=
  let lineNo := ld_lineNo st + 1 in
  let line := trim (chomp buf) in
  let skip := {| ld_graph := ld_graph st; ld_count := ld_count st;
                 ld_bad := ld_bad st; ld_lineNo := lineNo;
                 ld_skipped := ld_skipped st |} in
  match line with
  | [] => skip
  | c :: _ =>
      if ascii_eqb c HASHMARK then skip
      else
        match parse_relation_line line with
        | None =>
            {| ld_graph := ld_graph st; ld_count := ld_count st;
               ld_bad := ld_bad st + 1; ld_lineNo := lineNo;
               ld_skipped := ld_skipped st ++ [(lineNo, line)] |}
        | Some (src, rl, tgt) =>
            {| ld_graph := add_relationship src rl tgt (ld_graph st);
               ld_count := ld_count st + 1;
               ld_bad := ld_bad st; ld_lineNo := lineNo;
               ld_skipped := ld_skipped st |}
        end
  end.

(** What [load_from_file] prints at its end. *)
Inductive LoadReport :=
  | CannotOpen
  | Loaded (count bad : Z) (skipped : list (Z * cstr)).

(** [file] is the content of the named file, [None] when [fopen] fails. *)
Definition load_from_file (file : option (list ascii)) (g : Graph)
    : LoadReport * Graph :=
  match file with
  | None => (CannotOpen, g)
  | Some fp =>
      let st := foldl load_step
                  {| ld_graph := g; ld_count := 0; ld_bad := 0; ld_lineNo := 0;
                     ld_skipped := [] |}
                  (fgets_all fp) in
      (Loaded (ld_count st) (ld_bad st) (ld_skipped st), ld_graph st)
  end.

(** One line of [save_to_file]: ["%s|%s|%s\n"]. *)
Definition relation_line (s r t : cstr) : list ascii :=
  s ++ [BAR] ++ r ++ [BAR] ++ t ++ [LF].

Definition entity_lines (g : Graph) (e : ptr) : list ascii :=
  match heap g !! e with
  | None => []
  | Some E =>
      concat (map (fun r => relation_line (name E) (rel r) (ename g (target r)))
                  (relations E))
  end.

(** The bytes [save_to_file] writes when the file can be opened. *)
Definition save_to_file (g : Graph) : list ascii :=
  concat (map (entity_lines g) (all_entities g)).

(** ** The menu entries of [main] that enter data *)

(** choice 1, "Add Entity (manual)" *)
Definition menu_add_entity (g : Graph) (con : Console) : Graph * Console :=
  let '(buf, con1) := console_read_line LINE_BUF con in
  let buf := squeeze_spaces (trim buf) in
  match buf with
  | [] => (g, con1)
  | _ =>
      match find_entity_exact buf g with
      | Some _ => (g, con1)
      | None => (snd (create_entity buf g), con1)
      end
  end.

(** choice 2, "Add Relationship (manual)" *)
Definition menu_add_relationship (g : Graph) (con : Console) : Graph * Console :=
  let '(s, con1) := console_read_line NAME_LEN con in
  let s := squeeze_spaces (trim s) in
  let '(r, con2) := console_read_line REL_LEN con1 in
  let r := squeeze_spaces (trim r) in
  let '(t, con3) := console_read_line NAME_LEN con2 in
  let t := squeeze_spaces (trim t) in
  match s, r, t with
  | _ :: _, _ :: _, _ :: _ => (add_relationship s r t g, con3)
  | _, _, _ => (g, con3)
  end.

(** ** Display *)

(** What [display_connections] shows: the entity's name and one row
    [(target name, label)] per relation, in the order of the relation list. *)
Inductive Connections :=
  | EntityNotFound
  | ConnectionsOf (nm : cstr) (rows : list (cstr * cstr)).

Definition display_connections (query : cstr) (fuzzy : bool) (g : Graph)
    (con : Console) : Connections * Console :=
  let '(e, con1) := resolve fuzzy query g con in
  match e with
  | None => (EntityNotFound, con1)
  | Some e =>
      (ConnectionsOf (ename g e)
         (map (fun r => (ename g (target r), rel r))
              (from_option relations [] (heap g !! e))),
       con1)
  end.

(** ** Batch input *)

Inductive BatchResult :=
  | BatchDone (g : Graph) (con : Console)
  | BatchIntOverflow     (* ++i at i = INT_MAX *)
  | BatchFuelExhausted.  (* the rounds given to the loop are used up: never
                            returned, see [batch_loop_returns] *)

(** [for (int i = 1; i <= n; ++i)]: a blank or comment line counts as
    entered, an invalid line is asked again ([--i; continue;]). *)
Fixpoint batch_loop (fuel : nat) (i n : Z) (g : Graph) (con : Console) : BatchResult :=
  match fuel with
  | O => BatchFuelExhausted
  | S k =>
      if n <? i then BatchDone g con
      else
        let '(line, con1) := console_read_line LINE_BUF con in
        let line := trim line in
        let next g' :=
          if i =? INT_MAX then BatchIntOverflow else batch_loop k (i + 1) n g' con1 in
        match line with
        | [] => next g
        | c :: _ =>
            if ascii_eqb c HASHMARK then next g
            else
              match parse_relation_line line with
              | None => batch_loop k i n g con1
              | Some (src, rl, tgt) => next (add_relationship src rl tgt g)
              end
        end
  end.

(** Every round either counts a line or consumes input, so [n] rounds and one
    per waiting byte, and one more to leave the loop, are enough. *)
Definition batch_input_lines (n : Z) (g : Graph) (con : Console) : BatchResult :=
  batch_loop (S (Z.to_nat n + length (stdin con))) 1 n g con.

(** The triples [(source, label, target)] of the graph, in table order. *)
Definition entity_triples (g : Graph) (e : ptr) : list (cstr * cstr * cstr) :=
  match heap g !! e with
  | None => []
  | Some E => map (fun r => (name E, rel r, ename g (target r))) (relations E)
  end.

Definition triples (g : Graph) : list (cstr * cstr * cstr) :=
  concat (map (entity_triples g) (all_entities g)).

(** * Vocabulary of the properties *)

(** ** Matching names *)

(** The matching relations of the three tiers, stated on lower-cased names. *)
Definition lower (s : cstr) : cstr := map tolower s.

Definition ci_equal (a b : cstr) : Prop := lower a = lower b.

Definition ci_prefix (key nm : cstr) : Prop := lower key `prefix_of` lower nm.

(** The tails of a string, the string itself first. *)
Fixpoint tails (s : cstr) : list cstr :=
  s :: match s with [] => [] | _ :: s' => tails s' end.

(** Some tail of the lower-cased name starts with the lower-cased key. *)
Definition ci_substring (key nm : cstr) : Prop :=
  Exists (fun t => lower key `prefix_of` t) (tails (lower nm)).

#[global] Instance ci_equal_dec a b : Decision (ci_equal a b).
Proof. unfold ci_equal. apply _. Defined.

#[global] Instance ci_prefix_dec key nm : Decision (ci_prefix key nm).
Proof. unfold ci_prefix. apply _. Defined.

#[global] Instance ci_substring_dec key nm : Decision (ci_substring key nm).
Proof. unfold ci_substring. apply _. Defined.

(** A C string holds no NUL. *)
Definition valid_cstr (s : cstr) : Prop := NUL ∉ s.

(** The names of a graph are C strings that fit [char name[NAME_LEN]]. *)
Definition names_ok (g : Graph) : Prop :=
  forall e, valid_cstr (ename g e) /\ (length (ename g e) < NAME_LEN)%nat.

(** The three tiers in the words of the specification: the entities, in table
    order, whose name equals / starts with / contains the key up to case; the
    last two cut at [SUGGEST_MAX] candidates. *)
Definition exact_tier (g : Graph) (key : cstr) : list ptr :=
  filter (fun e => ci_equal (ename g e) key) (all_entities g).

Definition prefix_tier (g : Graph) (key : cstr) : list ptr :=
  take SUGGEST_MAX (filter (fun e => ci_prefix key (ename g e)) (all_entities g)).

Definition substring_tier (g : Graph) (key : cstr) : list ptr :=
  take SUGGEST_MAX (filter (fun e => ci_substring key (ename g e)) (all_entities g)).

(** ** Graphs *)

(** The graph with every mark cleared. *)
Definition unmarked (g : Graph) : Graph :=
  {| heap := clear_marks <$> heap g; gHash := gHash g |}.

(** Every allocated entity is in some chain of the table. *)
Definition indexed (g : Graph) : Prop :=
  forall e, (e < length (heap g))%nat -> e ∈ all_entities g.

(** What every graph built by the program satisfies: chains and relation
    targets point to allocated entities, every allocated entity is in the
    table, and names fit their buffer [char name[NAME_LEN]]. *)
Record wf (g : Graph) : Prop := mk_wf {
  wf_chain : forall i e, e ∈ bucket g i -> (e < length (heap g))%nat;
  wf_indexed : indexed g;
  wf_targets : forall e E r, heap g !! e = Some E -> r ∈ relations E ->
                 (target r < length (heap g))%nat;
  wf_names : forall e E, heap g !! e = Some E -> (length (name E) < NAME_LEN)%nat
}.

(** The graphs the session can be in: the empty table at start, then any
    sequence of manual entries, imports and path queries.  A query that
    writes past its queue or its stack leaves no state to go on from. *)
Inductive reachable : Graph -> Prop :=
  | reach_start : reachable empty_graph
  | reach_add_entity g con :
      reachable g -> reachable (fst (menu_add_entity g con))
  | reach_add_relationship g con :
      reachable g -> reachable (fst (menu_add_relationship g con))
  | reach_import g file :
      reachable g -> reachable (snd (load_from_file file g))
  | reach_query g s t fz con :
      reachable g ->
      (forall f, (find_path_bfs s t fz g con).1.1 <> Undefined f) ->
      reachable (find_path_bfs s t fz g con).1.2.

(** Every entity is in the chain of its name's hash. *)
Definition hashed (g : Graph) : Prop :=
  forall i e, e ∈ bucket g i -> hash_index (ename g e) = i.

(** The table as an index: chains follow the hash and hold no entity twice. *)
Definition index_ok (g : Graph) : Prop := hashed g /\ NoDup (all_entities g).

(** A well-formed graph whose table is an index. *)
Definition table_ok (g : Graph) : Prop := wf g /\ index_ok g.

(** No two entities of the table have the same name. *)
Definition unique_names (g : Graph) : Prop :=
  forall e1 e2, e1 ∈ all_entities g -> e2 ∈ all_entities g ->
    ename g e1 = ename g e2 -> e1 = e2.

(** ** The relation file *)

(** A name or label as the program stores it, and as the file format can
    carry it: not empty, already trimmed and squeezed, short enough for its
    buffer, free of the delimiter and of NUL. *)
Definition token_ok (x : cstr) : Prop :=
  x <> [] /\ normalize x = x /\ (length x < NAME_LEN)%nat /\ (BAR ∉ x) /\ (NUL ∉ x).

Definition triple_ok (x : cstr * cstr * cstr) : Prop :=
  token_ok x.1.1 /\ token_ok x.1.2 /\ token_ok x.2 /\ head x.1.1 <> Some HASHMARK.

#[global] Instance token_ok_dec x : Decision (token_ok x).
Proof. unfold token_ok. apply _. Defined.

#[global] Instance triple_ok_dec x : Decision (triple_ok x).
Proof. unfold triple_ok. apply _. Defined.

(** ** Breadth-first search *)

(** The number of entities not yet visited. *)
Definition unvisited (h : list Entity) : nat :=
  length (filter (fun E => visited E = 0) h).

(** [b] is the target of a relation of [a]. *)
Definition succ (h : list Entity) (a b : ptr) : Prop :=
  exists E r, h !! a = Some E /\ r ∈ relations E /\ target r = b.

(** [hops h a b n]: [b] is reached from [a] along [n] relations. *)
Inductive hops (h : list Entity) (a : ptr) : ptr -> nat -> Prop :=
  | hops_O : hops h a a 0
  | hops_S b c n : hops h a b n -> succ h b c -> hops h a c (S n).

(** Consecutive entities of the list are joined by a relation. *)
Definition linked (h : list Entity) (p : list ptr) : Prop :=
  forall i a b, p !! i = Some a -> p !! S i = Some b -> succ h a b.

(** The state of the traversal between two rounds: [Q] is the queue written
    so far, [head] the next entry to take, and [D] gives each entry its depth. *)
Record bfs_inv (src tgt : ptr) (h : list Entity) (Q : list ptr) (D : list nat)
    (head : nat) : Prop := mk_bfs_inv {
  inv_len : length D = length Q;
  inv_head : (head <= length Q)%nat;
  inv_src : Q !! 0%nat = Some src /\ D !! 0%nat = Some 0%nat /\
            exists E, h !! src = Some E /\ prev E = None;
  inv_vis : forall e, e ∈ Q <-> exists E, h !! e = Some E /\ visited E <> 0;
  inv_nodup : NoDup Q;
  inv_par : forall i e, (0 < i)%nat -> Q !! i = Some e ->
     exists E p j d, h !! e = Some E /\ prev E = Some p /\ Q !! j = Some p /\
                     succ h p e /\ D !! j = Some d /\ D !! i = Some (S d);
  inv_sorted : forall i j di dj, (i <= j)%nat ->
     D !! i = Some di -> D !! j = Some dj -> (di <= dj)%nat;
  inv_bound : forall dh i di,
     D !! head = Some dh -> D !! i = Some di -> (di <= S dh)%nat;
  inv_done : forall i e, (i < head)%nat -> Q !! i = Some e ->
     e <> tgt /\
     forall b, succ h e b ->
       exists k dk di, Q !! k = Some b /\ D !! k = Some dk /\ D !! i = Some di /\
                       (dk <= S di)%nat
}.

(** ** Graphs and inputs of the examples *)

(** No input waiting, nothing printed yet. *)
Definition con0 : Console := {| stdin := []; stdout := [] |}.

(** Alice -knows-> Bob -knows-> Carol and Alice -met-> Carol. *)
Definition abc_graph : Graph :=
  add_relationship (lit "Alice") (lit "met") (lit "Carol")
    (add_relationship (lit "Bob") (lit "knows") (lit "Carol")
       (add_relationship (lit "Alice") (lit "knows") (lit "Bob") empty_graph)).

(** The entities Alice, Alan and Bob, without relations. *)
Definition aab_graph : Graph :=
  snd (create_entity (lit "Bob")
    (snd (create_entity (lit "Alan") (snd (create_entity (lit "Alice") empty_graph))))).

(** Names and segments longer than the 127 bytes a buffer holds. *)
Definition long_name : cstr := replicate 128 "a"%char.


(** 127 blanks, then Alice. *)
Definition padded_alice : cstr := replicate 127 SP ++ lit "Alice".

(** The one-line file [a|b|], 127 blanks, [c]. *)
Definition padded_target_file : list ascii :=
  lit "a|b|" ++ replicate 127 SP ++ lit "c" ++ [LF].

Definition padded_target_graph : Graph :=
  snd (load_from_file (Some padded_target_file) empty_graph).

(** The same 128-byte name typed twice at "Add Entity". *)
Definition long_entry : list ascii := replicate 128 "a"%char ++ [LF].

Definition long_entry_console : Console :=
  {| stdin := long_entry ++ long_entry; stdout := [] |}.

Definition long_entry_graph : Graph :=
  let r1 := menu_add_entity empty_graph long_entry_console in
  fst (menu_add_entity (fst r1) (snd r1)).

(** A name that fills the name buffer, 127 letters; a file that relates it;
    and the session that imports the file and then enters the 128-letter
    name at "Add Entity". *)
Definition full_name : cstr := replicate 127 "a"%char.

Definition full_name_file : list ascii := full_name ++ lit "|r|b" ++ [LF].

Definition full_name_graph : Graph :=
  snd (load_from_file (Some full_name_file) empty_graph).

Definition twin_graph : Graph :=
  fst (menu_add_entity full_name_graph {| stdin := long_entry; stdout := [] |}).

(** The answer 4294967298 to the menu of candidates. *)
Definition big_answer : Console := {| stdin := lit "4294967298" ++ [LF]; stdout := [] |}.

(** 200 distinct two-letter names. *)
Definition node_name (i : nat) : cstr :=
  [ascii_of_nat (65 + i / 16); ascii_of_nat (97 + i mod 16)].

(** An entity Hub with [n] outgoing relations to distinct entities. *)
Definition hub_graph (n : nat) : Graph :=
  foldl (fun g i => add_relationship (lit "Hub") (lit "to") (node_name i) g)
        empty_graph (seq 0 n).

(** "Add Relationship" with the source [#a], the label [r] and the target [b]. *)
Definition comment_mark_graph : Graph :=
  fst (menu_add_relationship empty_graph
         {| stdin := lit "#a" ++ [LF] ++ lit "r" ++ [LF] ++ lit "b" ++ [LF];
            stdout := [] |}).

(** * Properties *)

#[global] Arguments strncpy : simpl never.
#[global] Arguments to_lower_copy : simpl never.
#[global] Arguments trim : simpl never.
#[global] Arguments hash_index : simpl never.
#[global] Arguments all_entities : simpl never.
#[global] Arguments bucket : simpl never.
#[global] Arguments fgets : simpl never.
#[global] Arguments HASH_SIZE : simpl never.
#[global] Arguments NAME_LEN : simpl never.
#[global] Arguments REL_LEN : simpl never.
#[global] Arguments LINE_BUF : simpl never.
#[global] Arguments SUGGEST_MAX : simpl never.
#[global] Arguments QUEUE_INIT : simpl never.
#[global] Arguments PATH_STACK : simpl never.

(** ** Strings *)

Section StringFacts.

Implicit Types (s : cstr) (c : ascii).

Lemma ascii_eqb_true a b : ascii_eqb a b = true <-> a = b.
Proof. unfold ascii_eqb. apply bool_decide_eq_true. Qed.

Lemma ascii_eqb_false a b : ascii_eqb a b = false <-> a <> b.
Proof. unfold ascii_eqb. apply bool_decide_eq_false. Qed.

Lemma ascii_eqb_refl a : ascii_eqb a a = true.
Proof. by apply ascii_eqb_true. Qed.

Lemma streq_true a b : streq a b = true <-> a = b.
Proof. unfold streq. apply bool_decide_eq_true. Qed.

Lemma code_inj a b : code a = code b -> a = b.
Proof.
  unfold code. intros H. apply N2Z.inj in H.
  rewrite <- (ascii_N_embedding a), <- (ascii_N_embedding b). by rewrite H.
Qed.

Lemma isspace_SP : isspace SP = true.
Proof. reflexivity. Qed.

(** *** trim *)

Lemma trim_start_le s : (trim_start s <= length s)%nat.
Proof. induction s as [|c s IH]; simpl; [lia|]. destruct (isspace c); simpl; lia. Qed.

Lemma trim_start_all s : Forall (fun c => isspace c = true) s -> trim_start s = length s.
Proof. induction 1 as [|c s Hc _ IH]; simpl; [done|]. by rewrite Hc, IH. Qed.

Lemma trim_start_lookup s :
  (trim_start s < length s)%nat ->
  exists c, s !! trim_start s = Some c /\ isspace c = false.
Proof.
  induction s as [|c s IH]; simpl; [lia|].
  destruct (isspace c) eqn:Hc; simpl.
  - intros H. apply IH. lia.
  - intros _. by exists c.
Qed.

Lemma trim_start_full s :
  trim_start s = length s -> Forall (fun c => isspace c = true) s.
Proof.
  induction s as [|c s IH]; simpl; [constructor|].
  destruct (isspace c) eqn:Hc; [|discriminate].
  intros H. constructor; [done|]. apply IH. lia.
Qed.

Lemma trim_end_bounds s start e :
  (trim_end s start e <= e)%nat /\ ((start <= e)%nat -> (start <= trim_end s start e)%nat).
Proof.
  induction e as [|e IH]; simpl; [lia|].
  destruct (start <? S e)%nat eqn:Hlt; simpl.
  - apply Nat.ltb_lt in Hlt.
    destruct (from_option isspace false (s !! S e)); [|lia].
    destruct IH as [IH1 IH2]. split; [lia|]. intros _. apply IH2. lia.
  - lia.
Qed.

Lemma trim_end_stop s start e :
  (start < trim_end s start e)%nat ->
  from_option isspace false (s !! trim_end s start e) = false.
Proof.
  induction e as [|e IH]; simpl; [lia|].
  destruct (start <? S e)%nat eqn:Hlt; simpl.
  - destruct (from_option isspace false (s !! S e)) eqn:Hs; [apply IH|].
    intros _. exact Hs.
  - apply Nat.ltb_ge in Hlt. simpl. lia.
Qed.

Lemma trim_all_space s : Forall (fun c => isspace c = true) s -> trim s = [].
Proof.
  intros H. unfold trim. rewrite (trim_start_all s H).
  rewrite drop_all. by rewrite take_nil.
Qed.

(** The indices [start] and [end] of a string that is not all white space. *)
Lemma trim_indices s :
  (trim_start s < length s)%nat ->
  let start := trim_start s in
  let e := trim_end s start (if (0 <? length s)%nat then length s - 1 else 0)%nat in
  (start <= e < length s)%nat /\
  exists c, s !! e = Some c /\ isspace c = false.
Proof.
  intros Hlt start e.
  assert (Hpos : (0 <? length s)%nat = true) by (apply Nat.ltb_lt; lia).
  subst e. rewrite Hpos.
  destruct (trim_end_bounds s start (length s - 1)) as [Hle Hge].
  assert (Hse : (start <= trim_end s start (length s - 1))%nat) by (apply Hge; subst start; lia).
  split; [lia|].
  destruct (decide (start < trim_end s start (length s - 1))%nat) as [Hgt|Heq].
  - pose proof (trim_end_stop s start _ Hgt) as Hstop.
    destruct (s !! trim_end s start (length s - 1)) as [c|] eqn:Hl.
    + exists c. by split.
    + apply lookup_ge_None in Hl. lia.
  - assert (trim_end s start (length s - 1) = start) as -> by lia.
    by apply trim_start_lookup.
Qed.

Lemma trim_nil_inv s : trim s = [] -> Forall (fun c => isspace c = true) s.
Proof.
  intros H. apply trim_start_full.
  destruct (decide (trim_start s < length s)%nat) as [Hlt|]; [|pose proof (trim_start_le s); lia].
  exfalso. destruct (trim_indices s Hlt) as [[H1 H2] _].
  unfold trim in H. apply (f_equal length) in H.
  rewrite length_take, length_drop in H. simpl in H. lia.
Qed.

Lemma trim_head s c t : trim s = c :: t -> isspace c = false.
Proof.
  intros H.
  destruct (decide (trim_start s < length s)%nat) as [Hlt|Hge].
  - destruct (trim_start_lookup s Hlt) as (c' & Hc' & Hsp).
    unfold trim in H.
    assert (Hh : (c :: t) !! 0%nat = Some c) by done.
    rewrite <- H in Hh. apply lookup_take_Some in Hh as [Hh _].
    rewrite lookup_drop, Nat.add_0_r in Hh. congruence.
  - rewrite trim_all_space in H; [done|]. apply trim_start_full.
    pose proof (trim_start_le s). lia.
Qed.

Lemma trim_last s c : last (trim s) = Some c -> isspace c = false.
Proof.
  intros H.
  destruct (decide (trim_start s < length s)%nat) as [Hlt|Hge].
  - destruct (trim_indices s Hlt) as [[H1 H2] (c' & Hc' & Hsp)].
    unfold trim in H. rewrite last_lookup in H.
    rewrite length_take, length_drop in H.
    apply lookup_take_Some in H as [H _].
    rewrite lookup_drop in H.
    match type of H with s !! ?i = _ =>
      replace i with (trim_end s (trim_start s)
        (if (0 <? length s)%nat then length s - 1 else 0)%nat) in H by (simpl; lia) end.
    congruence.
  - rewrite trim_all_space in H; [done|]. apply trim_start_full.
    pose proof (trim_start_le s). lia.
Qed.

(** A string with no white space at either end is left as it is. *)
Lemma trim_id s c :
  head s = Some c -> isspace c = false ->
  (forall d, last s = Some d -> isspace d = false) ->
  trim s = s.
Proof.
  intros Hh Hc Hl. destruct s as [|c0 s]; [done|]. simpl in Hh. simplify_eq.
  unfold trim. simpl trim_start. rewrite Hc. simpl length.
  replace (if (0 <? S (length s))%nat then (S (length s) - 1)%nat else 0%nat)
    with (length s) by (simpl; lia).
  assert (He : trim_end (c :: s) 0 (length s) = length s).
  { destruct (length s) as [|n] eqn:Hn; [done|]. simpl trim_end.
    destruct (s !! n) as [d|] eqn:Hd; simpl; [|done].
    rewrite (Hl d); [done|]. rewrite last_lookup. simpl. by rewrite Hn. }
  rewrite He. rewrite drop_0. apply take_ge. simpl. lia.
Qed.

Lemma length_trim s : (length (trim s) <= length s)%nat.
Proof. unfold trim. rewrite length_take, length_drop. lia. Qed.

Lemma trim_subset s c : c ∈ trim s -> c ∈ s.
Proof.
  unfold trim. intros H.
  apply elem_of_take in H as (i & H & _).
  rewrite lookup_drop in H. by eapply list_elem_of_lookup_2.
Qed.

(** *** squeeze_spaces *)

Lemma length_squeeze_from b s : (length (squeeze_from b s) <= length s)%nat.
Proof.
  revert b. induction s as [|c s IH]; intros b; simpl; [lia|].
  pose proof (IH true). pose proof (IH false).
  destruct (isspace c); [destruct b|]; simpl; lia.
Qed.

Lemma squeeze_from_elem b s c :
  c ∈ squeeze_from b s -> c = SP \/ (c ∈ s /\ isspace c = false).
Proof.
  revert b. induction s as [|x s IH]; intros b; simpl; [by intros ?%elem_of_nil|].
  destruct (isspace x) eqn:Hx.
  - destruct b.
    + intros H. destruct (IH _ H) as [?|[? ?]]; [by left|right; split; [by right|done]].
    + intros [->|H]%elem_of_cons; [by left|].
      destruct (IH _ H) as [?|[? ?]]; [by left|right; split; [by right|done]].
  - intros [->|H]%elem_of_cons; [right; split; [by left|done]|].
    destruct (IH _ H) as [?|[? ?]]; [by left|right; split; [by right|done]].
Qed.

Lemma squeeze_from_nil s : squeeze_from false s = [] -> s = [].
Proof. destruct s as [|c s]; [done|]. simpl. by destruct (isspace c). Qed.

Lemma squeeze_from_last b s d :
  last s = Some d -> isspace d = false -> last (squeeze_from b s) = Some d.
Proof.
  revert b. induction s as [|c s IH]; intros b Hl Hd; [done|].
  destruct s as [|c' s].
  - simpl in Hl. simplify_eq. simpl. by rewrite Hd.
  - assert (Hl' : last (c' :: s) = Some d) by done.
    pose proof (fun b => IH b Hl' Hd) as IH'.
    assert (Hne : forall b, squeeze_from b (c' :: s) <> []).
    { intros b' Hn. specialize (IH' b'). by rewrite Hn in IH'. }
    change (squeeze_from b (c :: c' :: s)) with
      (if isspace c
       then (if b then squeeze_from true (c' :: s) else SP :: squeeze_from true (c' :: s))
       else c :: squeeze_from false (c' :: s)).
    destruct (isspace c); [destruct b|]; try apply IH'.
    + specialize (IH' true). specialize (Hne true).
      destruct (squeeze_from true (c' :: s)); done.
    + specialize (IH' false). specialize (Hne false).
      destruct (squeeze_from false (c' :: s)); done.
Qed.

Lemma length_normalize s : (length (normalize s) <= length s)%nat.
Proof.
  unfold normalize, squeeze_spaces.
  pose proof (length_squeeze_from false (trim s)). pose proof (length_trim s). lia.
Qed.

Lemma normalize_nil_inv s : normalize s = [] -> Forall (fun c => isspace c = true) s.
Proof. intros H. apply trim_nil_inv. by apply squeeze_from_nil. Qed.

Lemma normalize_all_space s : Forall (fun c => isspace c = true) s -> normalize s = [].
Proof. intros H. unfold normalize. by rewrite trim_all_space. Qed.

Lemma normalize_elem s c : c ∈ normalize s -> c = SP \/ (c ∈ s /\ isspace c = false).
Proof.
  intros H. apply squeeze_from_elem in H as [?|[H ?]]; [by left|].
  right. split; [by apply trim_subset|done].
Qed.

(** A normalized, non-empty string starts and ends with a byte that is not
    white space, and its only white space is the blank. *)
Lemma normalized_head s c t : normalize s = s -> s = c :: t -> isspace c = false.
Proof.
  intros Hn Hs. unfold normalize, squeeze_spaces in Hn.
  destruct (trim s) as [|c' t'] eqn:Ht.
  - simpl in Hn. congruence.
  - pose proof (trim_head _ _ _ Ht) as Hc'.
    simpl in Hn. rewrite Hc' in Hn. rewrite Hs in Hn. by simplify_eq.
Qed.

Lemma normalized_last s d : normalize s = s -> last s = Some d -> isspace d = false.
Proof.
  intros Hn Hl. unfold normalize, squeeze_spaces in Hn.
  destruct (last (trim s)) as [d'|] eqn:Ht.
  - pose proof (trim_last _ _ Ht) as Hd'.
    pose proof (squeeze_from_last false _ _ Ht Hd') as Hl'.
    rewrite Hn in Hl'. congruence.
  - apply last_None in Ht. rewrite Ht in Hn. simpl in Hn. subst s. done.
Qed.

Lemma normalized_space s c : normalize s = s -> c ∈ s -> isspace c = true -> c = SP.
Proof.
  intros Hn Hc Hsp. rewrite <- Hn in Hc.
  apply normalize_elem in Hc as [?|[_ ?]]; [done|congruence].
Qed.

End StringFacts.

(** ** The table and the entities *)

Section TableFacts.

Lemma elem_of_concat_map {A B} (f : A -> list B) (l : list A) (x : B) :
  x ∈ concat (map f l) <-> exists i, i ∈ l /\ x ∈ f i.
Proof.
  induction l as [|a l IH]; simpl.
  - split; [by intros ?%elem_of_nil|]. by intros (i & ?%elem_of_nil & _).
  - rewrite elem_of_app, IH. split.
    + intros [H|(i & Hi & H)]; [exists a|exists i]; split; try done; by constructor.
    + intros (i & [->|Hi]%elem_of_cons & H); [by left|right; by exists i].
Qed.

(** Putting [p] in front of one of the lists adds [p] once to the whole. *)
Lemma concat_map_cons_perm {A} (f f' : nat -> list A) (p : A) (idx : nat) (l : list nat) :
  NoDup l -> idx ∈ l ->
  f' idx = p :: f idx -> (forall j, j <> idx -> f' j = f j) ->
  concat (map f' l) ≡ₚ p :: concat (map f l).
Proof.
  intros Hnd Hin Hidx Hoth. induction Hnd as [|a l Ha Hnd IH]; [by apply elem_of_nil in Hin|].
  simpl. destruct (decide (a = idx)) as [->|Hne].
  - rewrite Hidx. simpl.
    replace (map f' l) with (map f l); [done|].
    apply map_ext_in. intros j Hj%list_elem_of_In. symmetry. apply Hoth. by intros ->.
  - rewrite (Hoth a Hne). apply elem_of_cons in Hin as [?|Hin]; [congruence|].
    rewrite (IH Hin). symmetry. apply Permutation_middle.
Qed.

Lemma hash_index_lt s : (hash_index s < HASH_SIZE)%nat.
Proof.
  unfold hash_index.
  pose proof (Z.mod_pos_bound (djb2 5381 s) (Z.of_nat HASH_SIZE)) as H.
  unfold HASH_SIZE in *. lia.
Qed.

Lemma elem_of_all_entities g e :
  e ∈ all_entities g <-> exists i, (i < HASH_SIZE)%nat /\ e ∈ bucket g i.
Proof.
  unfold all_entities. rewrite elem_of_concat_map. split.
  - intros (i & Hi%elem_of_seq & H). exists i. split; [lia|done].
  - intros (i & Hi & H). exists i. split; [apply elem_of_seq; lia|done].
Qed.

Lemma bucket_insert h m i l j :
  bucket {| heap := h; gHash := <[i := l]> m |} j =
  if decide (i = j) then l else default [] (m !! j).
Proof.
  unfold bucket. simpl. destruct (decide (i = j)) as [->|Hne].
  - by rewrite lookup_insert_eq.
  - by rewrite lookup_insert_ne.
Qed.

Lemma bucket_heap_irrel h h' m j :
  bucket {| heap := h; gHash := m |} j = bucket {| heap := h'; gHash := m |} j.
Proof. reflexivity. Qed.

Lemma all_entities_heap_irrel h h' m :
  all_entities {| heap := h; gHash := m |} = all_entities {| heap := h'; gHash := m |}.
Proof. reflexivity. Qed.

Lemma all_entities_create nm g :
  all_entities (snd (create_entity nm g)) ≡ₚ length (heap g) :: all_entities g.
Proof.
  unfold create_entity, all_entities. cbn [snd name].
  set (idx := hash_index (strncpy nm (NAME_LEN - 1))).
  apply (concat_map_cons_perm _ _ _ idx).
  - apply NoDup_seq.
  - apply elem_of_seq. pose proof (hash_index_lt (strncpy nm (NAME_LEN - 1))). subst idx. lia.
  - rewrite bucket_insert. by rewrite decide_True.
  - intros j Hj. rewrite bucket_insert. by rewrite decide_False.
Qed.

Lemma find_in_chain_Some h nm chain e :
  find_in_chain h nm chain = Some e ->
  e ∈ chain /\ exists E, h !! e = Some E /\ name E = nm.
Proof.
  induction chain as [|x chain IH]; simpl; [done|].
  destruct (h !! x) as [E|] eqn:Hx; [|done].
  destruct (streq (name E) nm) eqn:Hs.
  - intros [= <-]. apply streq_true in Hs. split; [by left|]. by exists E.
  - intros H. destruct (IH H) as [? ?]. split; [by right|done].
Qed.

Lemma find_in_chain_app h x nm chain :
  (forall e, e ∈ chain -> (e < length h)%nat) ->
  find_in_chain (h ++ [x]) nm chain = find_in_chain h nm chain.
Proof.
  induction chain as [|e chain IH]; intros Hv; simpl; [done|].
  rewrite lookup_app_l by (apply Hv; by left).
  rewrite IH; [done|]. intros e' He'. apply Hv. by right.
Qed.

Lemma find_in_chain_names h h' nm chain :
  (forall e, name <$> (h !! e) = name <$> (h' !! e)) ->
  find_in_chain h nm chain = find_in_chain h' nm chain.
Proof.
  intros Hn. induction chain as [|e chain IH]; simpl; [done|].
  specialize (Hn e). destruct (h !! e) as [E|], (h' !! e) as [E'|]; simpl in Hn; try done.
  simplify_eq. by rewrite Hn, IH.
Qed.

Lemma short_strncpy nm : (length nm < NAME_LEN)%nat -> strncpy nm (NAME_LEN - 1) = nm.
Proof. intros H. unfold strncpy. apply take_ge. unfold NAME_LEN in *. lia. Qed.

Lemma find_after_create nm g :
  (length nm < NAME_LEN)%nat ->
  find_entity_exact nm (snd (create_entity nm g)) = Some (length (heap g)).
Proof.
  intros Hlen. unfold find_entity_exact, create_entity.
  rewrite (short_strncpy nm Hlen). cbn [snd heap gHash name].
  rewrite bucket_insert. rewrite decide_True by done. simpl.
  rewrite lookup_app_r by lia. rewrite Nat.sub_diag. simpl.
  unfold streq. by rewrite bool_decide_eq_true_2.
Qed.

Lemma get_or_create_found nm g e g' :
  get_or_create_entity nm g = (e, g') ->
  find_entity_exact nm g = Some e /\ g' = g \/
  find_entity_exact nm g = None /\ (e, g') = create_entity nm g.
Proof.
  unfold get_or_create_entity. destruct (find_entity_exact nm g) as [e0|].
  - intros [= <- <-]. by left.
  - intros <-. by right.
Qed.

Lemma ename_create nm g : ename (snd (create_entity nm g)) (length (heap g)) = strncpy nm (NAME_LEN - 1).
Proof.
  unfold ename, create_entity. simpl.
  rewrite lookup_app_r by lia. by rewrite Nat.sub_diag.
Qed.

Lemma find_entity_exact_name nm g e : find_entity_exact nm g = Some e -> ename g e = nm.
Proof.
  intros H. apply find_in_chain_Some in H as (_ & E & HE & Hn).
  unfold ename. by rewrite HE.
Qed.

End TableFacts.

(** ** get_or_create_entity *)

(** Two consecutive calls: a name that fits the name buffer (at most
    [NAME_LEN - 1 = 127] bytes, which is all the callers of
    [get_or_create_entity] pass) is resolved to one and the same entity by two
    consecutive calls; the entity carries that name; the table gains one entry
    on the first call exactly when the name was absent, and none on the
    second. *)
Theorem get_or_create_entity_idempotent (g : Graph) (nm : cstr) :
  (length nm < NAME_LEN)%nat ->
  let '(e1, g1) := get_or_create_entity nm g in
  let '(e2, g2) := get_or_create_entity nm g1 in
  e2 = e1 /\ g2 = g1 /\ ename g1 e1 = nm /\
  length (all_entities g1) =
    (length (all_entities g) +
     match find_entity_exact nm g with Some _ => 0 | None => 1 end)%nat /\
  length (all_entities g2) = length (all_entities g1).
Proof.
  intros Hlen.
  destruct (get_or_create_entity nm g) as [e1 g1] eqn:H1.
  assert (Hf : find_entity_exact nm g1 = Some e1).
  { apply get_or_create_found in H1 as [[Hf ->]|[Hf Hc]]; [done|].
    pose proof (find_after_create nm g Hlen) as H. rewrite <- Hc in H.
    cbn [snd] in H. rewrite H. f_equal. by apply (f_equal fst) in Hc. }
  unfold get_or_create_entity at 1. rewrite Hf.
  repeat split; try done.
  - by apply find_entity_exact_name.
  - apply get_or_create_found in H1 as [[Hf' ->]|[Hf' Hc]]; rewrite Hf'; [lia|].
    pose proof (all_entities_create nm g) as Hp. rewrite <- Hc in Hp. cbn [snd] in Hp.
    rewrite Hp. simpl. lia.
Qed.

(** The theorem applied to the empty table and the name Alice. *)
Lemma get_or_create_entity_idempotent_witness :
  (length (lit "Alice") < NAME_LEN)%nat /\
  let '(e1, g1) := get_or_create_entity (lit "Alice") empty_graph in
  let '(e2, g2) := get_or_create_entity (lit "Alice") g1 in
  e2 = e1 /\ g2 = g1 /\ ename g1 e1 = lit "Alice" /\
  length (all_entities g1) =
    (length (all_entities empty_graph) +
     match find_entity_exact (lit "Alice") empty_graph with Some _ => 0 | None => 1 end)%nat /\
  length (all_entities g2) = length (all_entities g1).
Proof.
  assert (H : (length (lit "Alice") < NAME_LEN)%nat) by (vm_compute; lia).
  split; [exact H|].
  exact (get_or_create_entity_idempotent empty_graph (lit "Alice") H).
Defined.

(** ** Disambiguation *)

(** [fuzzy_pick_from_suggestions] in terms of the [int] that [atoi] makes of
    the line read.  No candidate: no entity, nothing printed or read.  One
    candidate: that candidate, nothing printed or read.  Several: the list is
    printed, one line is read, and a value in [1 .. count] selects the
    candidate at that position while any other value gives no entity and the
    cancellation message. *)
Theorem fuzzy_pick_from_suggestions_contract (g : Graph) (list : list ptr) (con : Console) :
  let count := Z.of_nat (length list) in
  let res := fuzzy_pick_from_suggestions g list count con in
  let asked := print (DidYouMean (map (ename g) list)) con in
  let choice := atoi (fst (console_read_line 32 asked)) in
  let con' := snd (console_read_line 32 asked) in
  (list = [] -> res = (None, con)) /\
  (forall e, list = [e] -> res = (Some e, con)) /\
  ((2 <= length list)%nat ->
     (1 <= choice <= count ->
        exists e, list !! Z.to_nat (choice - 1) = Some e /\ res = (Some e, con')) /\
     (choice < 1 \/ count < choice ->
        res = (None, print CancelledSelection con'))).
Proof.
  intros count res asked choice con'. repeat split.
  - intros ->. reflexivity.
  - intros e ->. reflexivity.
  - intros [H1 H2].
    assert (Hlt : (Z.to_nat (choice - 1) < length list)%nat) by (subst count; lia).
    apply lookup_lt_is_Some in Hlt as [e He]. exists e. split; [done|].
    subst res. unfold fuzzy_pick_from_suggestions.
    assert ((count <=? 0) = false) as -> by (subst count; lia).
    assert ((count =? 1) = false) as -> by (subst count; lia).
    replace (take (Z.to_nat count) list) with list
      by (symmetry; apply take_ge; subst count; lia).
    fold asked. subst choice con'.
    destruct (console_read_line 32 asked) as [buf con2]. simpl in *.
    assert ((1 <=? atoi buf) && (atoi buf <=? count) = true) as -> by lia.
    by rewrite He.
  - intros Hout.
    subst res. unfold fuzzy_pick_from_suggestions.
    assert ((count <=? 0) = false) as -> by (subst count; lia).
    assert ((count =? 1) = false) as -> by (subst count; lia).
    replace (take (Z.to_nat count) list) with list
      by (symmetry; apply take_ge; subst count; lia).
    fold asked. subst choice con'.
    destruct (console_read_line 32 asked) as [buf con2]. simpl in *.
    assert ((1 <=? atoi buf) && (atoi buf <=? count) = false) as -> by lia.
    done.
Qed.

(** The contract at a list of three candidates and the answers 2 and 0. *)
Lemma fuzzy_pick_from_suggestions_contract_witness :
  fst (fuzzy_pick_from_suggestions abc_graph [0; 1; 2]%nat 3
         {| stdin := lit "2" ++ [LF]; stdout := [] |}) = Some 1%nat /\
  fst (fuzzy_pick_from_suggestions abc_graph [0; 1; 2]%nat 3
         {| stdin := lit "0" ++ [LF]; stdout := [] |}) = None.
Proof.
  split.
  - destruct (fuzzy_pick_from_suggestions_contract abc_graph [0; 1; 2]%nat
                {| stdin := lit "2" ++ [LF]; stdout := [] |}) as (_ & _ & H).
    destruct H as [H _]; [simpl; lia|].
    destruct H as (e & He & Hres); [vm_compute; split; discriminate|].
    change (Z.of_nat (length [0; 1; 2]%nat)) with 3 in Hres.
    rewrite Hres. simpl. vm_compute in He. congruence.
  - destruct (fuzzy_pick_from_suggestions_contract abc_graph [0; 1; 2]%nat
                {| stdin := lit "0" ++ [LF]; stdout := [] |}) as (_ & _ & H).
    destruct H as [_ H]; [simpl; lia|].
    change (Z.of_nat (length [0; 1; 2]%nat)) with 3 in H.
    rewrite H; [done|]. left. vm_compute. reflexivity.
Defined.

(** ** The transient marks *)

Section MarkFacts.

Lemma clear_marks_idemp E : clear_marks (clear_marks E) = clear_marks E.
Proof. reflexivity. Qed.

Lemma shape_alter (f : Entity -> Entity) e (h : list Entity) :
  (forall E, h !! e = Some E -> clear_marks (f E) = clear_marks E) ->
  clear_marks <$> alter f e h = clear_marks <$> h.
Proof.
  intros Hf. apply list_eq. intros i.
  rewrite !list_lookup_fmap, list_lookup_alter.
  destruct (decide (e = i)) as [->|]; [|done].
  destruct (h !! i) as [E|] eqn:HE; [|done]. simpl. f_equal. by apply Hf.
Qed.

Lemma shape_insert e E E' (h : list Entity) :
  h !! e = Some E -> clear_marks E' = clear_marks E ->
  clear_marks <$> <[e := E']> h = clear_marks <$> h.
Proof.
  intros HE Heq. rewrite list_insert_alter. apply shape_alter.
  intros E0 HE0. congruence.
Qed.

Lemma foldl_alter_lookup (f : Entity -> Entity) (es : list nat) (h : list Entity) i :
  (forall E, f (f E) = f E) ->
  foldl (fun h e => alter f e h) h es !! i =
  if decide (i ∈ es) then f <$> h !! i else h !! i.
Proof.
  intros Hf. revert h. induction es as [|e es IH]; intros h; cbn [foldl].
  - rewrite decide_False; [done|]. by intros ?%elem_of_nil.
  - rewrite IH. rewrite list_lookup_alter.
    destruct (decide (e = i)) as [->|Hne].
    + rewrite (decide_True (P := i ∈ i :: es)) by (by left).
      destruct (decide (i ∈ es)); [|done].
      destruct (h !! i); simpl; [|done]. by rewrite Hf.
    + destruct (decide (i ∈ es)) as [Hin|Hnin].
      * by rewrite decide_True by (by right).
      * rewrite decide_False; [done|]. intros [?|?]%elem_of_cons; congruence.
Qed.

Lemma length_foldl_alter (f : Entity -> Entity) (es : list nat) (h : list Entity) :
  length (foldl (fun h e => alter f e h) h es) = length h.
Proof.
  revert h. induction es as [|e es IH]; intros h; simpl; [done|].
  by rewrite IH, length_alter.
Qed.

(** After [reset_bfs_marks] every entity of the table is unvisited and has
    no predecessor. *)
Lemma reset_bfs_marks_clears g e E :
  e ∈ all_entities g -> heap (reset_bfs_marks g) !! e = Some E ->
  visited E = 0 /\ prev E = None.
Proof.
  intros Hin. unfold reset_bfs_marks. cbn [heap].
  rewrite foldl_alter_lookup by apply clear_marks_idemp.
  rewrite decide_True by done.
  destruct (heap g !! e) as [E0|]; simpl; [|done]. by intros [= <-].
Qed.

Lemma reset_bfs_marks_indexed g : indexed g -> reset_bfs_marks g = unmarked g.
Proof.
  intros Hix. unfold reset_bfs_marks, unmarked. f_equal.
  apply list_eq. intros i.
  rewrite foldl_alter_lookup by apply clear_marks_idemp.
  rewrite list_lookup_fmap.
  destruct (decide (i ∈ all_entities g)) as [|Hnin]; [done|].
  destruct (heap g !! i) as [E|] eqn:HE; [|done].
  exfalso. apply Hnin, Hix. by eapply lookup_lt_Some.
Qed.

Lemma shape_reset g : clear_marks <$> heap (reset_bfs_marks g) = clear_marks <$> heap g.
Proof.
  unfold reset_bfs_marks. cbn [heap].
  generalize (all_entities g). intros es. revert g.
  assert (H : forall h : list Entity,
             clear_marks <$> foldl (fun h e => alter clear_marks e h) h es
             = clear_marks <$> h); [|intros g; apply H].
  induction es as [|e es IH]; intros h; simpl; [done|].
  rewrite IH. by apply shape_alter.
Qed.

Lemma bfs_scan_shape cur rs h Q cap h' Q' :
  bfs_scan cur rs h Q cap = inr (h', Q') ->
  clear_marks <$> h' = clear_marks <$> h.
Proof.
  revert h Q. induction rs as [|r rs IH]; intros h Q; simpl.
  - by intros [= <- <-].
  - destruct (h !! target r) as [E|] eqn:HE; [|done].
    destruct (visited E =? 0); [|apply IH].
    destruct (cap <=? length Q)%nat; [done|].
    intros H. rewrite (IH _ _ H). by eapply shape_insert.
Qed.

Lemma bfs_loop_shape fuel tgt h Q head cap :
  clear_marks <$> snd (bfs_loop fuel tgt h Q head cap) = clear_marks <$> h.
Proof.
  revert h Q head cap. induction fuel as [|k IH]; intros h Q head cap; simpl; [done|].
  destruct (Q !! head) as [cur|]; [|done].
  destruct (cur =? tgt)%nat; [done|].
  destruct (h !! cur) as [E|]; [|done].
  destruct (bfs_scan _ _ _ _ _) as [f|[h' Q']] eqn:Hs; [done|].
  rewrite IH. by eapply bfs_scan_shape.
Qed.

Lemma bfs_run_shape src tgt g :
  clear_marks <$> snd (bfs_run src tgt g) = clear_marks <$> heap g.
Proof.
  unfold bfs_run. rewrite bfs_loop_shape.
  rewrite shape_alter by done. apply shape_reset.
Qed.

Lemma ename_shape g g' e :
  clear_marks <$> heap g = clear_marks <$> heap g' -> ename g e = ename g' e.
Proof.
  intros H. apply (f_equal (fun l => name <$> (l !! e))) in H.
  rewrite !list_lookup_fmap in H. unfold ename.
  destruct (heap g !! e), (heap g' !! e); simpl in *; congruence.
Qed.

(** A query that stays within its queue and its stack leaves the table and,
    marks apart, the entities as they were. *)
Lemma bfs_from_graph src tgt g :
  (forall f, (bfs_from src tgt g).1 <> Undefined f) ->
  gHash (snd (bfs_from src tgt g)) = gHash g /\
  clear_marks <$> heap (snd (bfs_from src tgt g)) = clear_marks <$> heap g.
Proof.
  intros _. unfold bfs_from. pose proof (bfs_run_shape src tgt g) as Hs.
  destruct (bfs_run src tgt g) as [out h2]. simpl in Hs.
  destruct out as [| |f]; [destruct (walk_prev _ _ _)| |]; simpl; by split.
Qed.

Lemma find_path_bfs_graph s t fz g con :
  (forall f, (find_path_bfs s t fz g con).1.1 <> Undefined f) ->
  gHash (find_path_bfs s t fz g con).1.2 = gHash g /\
  clear_marks <$> heap (find_path_bfs s t fz g con).1.2 = clear_marks <$> heap g.
Proof.
  unfold find_path_bfs.
  destruct (resolve fz s g con) as [[src|] con1];
    destruct (resolve fz t g con1) as [[tgt|] con2]; simpl; try done.
  pose proof (bfs_from_graph src tgt g) as H.
  destruct (bfs_from src tgt g) as [r g']. simpl in *. done.
Qed.

(** Resolution reads names and chains, never marks. *)
Lemma first_ci_match_ext g g' key es :
  (forall e, ename g e = ename g' e) ->
  first_ci_match g key es = first_ci_match g' key es.
Proof. intros H. induction es as [|e es IH]; simpl; [done|]. by rewrite H, IH. Qed.

Lemma collect_ext test g g' es sugg :
  (forall e, ename g e = ename g' e) ->
  collect test g es sugg = collect test g' es sugg.
Proof.
  intros H. revert sugg. induction es as [|e es IH]; intros sugg; simpl; [done|].
  by rewrite H, !IH.
Qed.

Lemma all_entities_gHash g g' : gHash g = gHash g' -> all_entities g = all_entities g'.
Proof. intros H. unfold all_entities, bucket. by rewrite H. Qed.

Lemma resolve_ext fz x g g' con :
  gHash g = gHash g' ->
  clear_marks <$> heap g = clear_marks <$> heap g' ->
  resolve fz x g con = resolve fz x g' con.
Proof.
  intros Hh Hs.
  assert (Hn : forall e, ename g e = ename g' e) by (intros e; by apply ename_shape).
  unfold resolve. destruct fz.
  - unfold search_entity_smart.
    destruct (squeeze_spaces _) as [|c key]; [done|].
    rewrite <- (all_entities_gHash g g' Hh).
    rewrite (first_ci_match_ext g g' _ _ Hn).
    destruct (first_ci_match g' _ _); [done|].
    rewrite !(collect_ext _ g g' _ _ Hn).
    unfold fuzzy_pick_from_suggestions.
    by rewrite (map_ext _ _ Hn).
  - f_equal. unfold find_entity_exact, bucket. rewrite Hh.
    apply find_in_chain_names. intros e.
    apply (f_equal (fun l => name <$> (l !! e))) in Hs.
    rewrite !list_lookup_fmap in Hs.
    destruct (heap g !! e), (heap g' !! e); simpl in *; congruence.
Qed.

Lemma bfs_from_ext src tgt g g' :
  gHash g = gHash g' -> reset_bfs_marks g = reset_bfs_marks g' ->
  bfs_from src tgt g = bfs_from src tgt g'.
Proof.
  intros Hh Hr. unfold bfs_from, bfs_run. by rewrite Hh, Hr.
Qed.

Lemma indexed_same g g' :
  gHash g = gHash g' -> length (heap g) = length (heap g') -> indexed g -> indexed g'.
Proof.
  intros Hh Hl Hix e He. rewrite <- (all_entities_gHash g g' Hh). apply Hix. lia.
Qed.

Lemma unmarked_same g g' :
  gHash g = gHash g' -> clear_marks <$> heap g = clear_marks <$> heap g' ->
  unmarked g = unmarked g'.
Proof. intros Hh Hs. unfold unmarked. by rewrite Hh, Hs. Qed.

Lemma indexed_unmarked g : indexed g -> indexed (unmarked g).
Proof.
  intros H. apply (indexed_same g); [done| |done].
  unfold unmarked. simpl. by rewrite length_fmap.
Qed.

Lemma unmarked_idemp g : unmarked (unmarked g) = unmarked g.
Proof.
  unfold unmarked. simpl. f_equal. rewrite <- list_fmap_compose.
  apply list_fmap_ext. intros i E _. reflexivity.
Qed.

End MarkFacts.

(** ** Reset between queries *)


(** ** Well-formed graphs *)

Section WfFacts.

Lemma wf_empty : wf empty_graph.
Proof.
  split.
  - intros i e. unfold bucket, empty_graph. simpl. rewrite lookup_empty. simpl.
    by intros ?%elem_of_nil.
  - intros e. simpl. lia.
  - intros e E r. simpl. by rewrite lookup_nil.
  - intros e E. simpl. by rewrite lookup_nil.
Qed.

Lemma all_entities_lt g e : wf g -> e ∈ all_entities g -> (e < length (heap g))%nat.
Proof. intros Hwf (i & _ & Hi)%elem_of_all_entities. by eapply wf_chain. Qed.

Lemma length_strncpy s n : (length (strncpy s n) <= n)%nat.
Proof. unfold strncpy. rewrite length_take. lia. Qed.

Lemma elem_of_all_entities_create nm g e :
  e ∈ all_entities (snd (create_entity nm g)) <-> e = length (heap g) \/ e ∈ all_entities g.
Proof. rewrite (all_entities_create nm g). apply elem_of_cons. Qed.

Lemma heap_create nm g :
  heap (snd (create_entity nm g)) =
  heap g ++ [{| name := strncpy nm (NAME_LEN - 1); relations := []; visited := 0; prev := None |}].
Proof. reflexivity. Qed.

Lemma bucket_create nm g j :
  bucket (snd (create_entity nm g)) j =
  if decide (hash_index (strncpy nm (NAME_LEN - 1)) = j)
  then length (heap g) :: bucket g j else bucket g j.
Proof.
  unfold create_entity. cbn [snd name]. rewrite bucket_insert.
  by destruct (decide _) as [->|].
Qed.

Lemma wf_create nm g : wf g -> wf (snd (create_entity nm g)).
Proof.
  intros Hwf. split.
  - intros i e. rewrite bucket_create, heap_create, length_app. simpl.
    destruct (decide _); [intros [->|He]%elem_of_cons; [lia|]|intros He];
      apply (wf_chain g Hwf) in He; lia.
  - intros e. rewrite heap_create, length_app. simpl. intros He.
    apply elem_of_all_entities_create.
    destruct (decide (e = length (heap g))); [by left|right].
    apply (wf_indexed g Hwf). lia.
  - intros e E r. rewrite heap_create, length_app. simpl.
    intros [HE|[He HE]]%lookup_app_Some Hr.
    + pose proof (wf_targets g Hwf e E r HE Hr). lia.
    + apply list_lookup_singleton_Some in HE as [_ <-]. by apply elem_of_nil in Hr.
  - intros e E. rewrite heap_create.
    intros [He|[He HE]]%lookup_app_Some.
    + by apply (wf_names g Hwf e E).
    + apply list_lookup_singleton_Some in HE as [_ <-]. cbn [name].
      pose proof (length_strncpy nm (NAME_LEN - 1)). unfold NAME_LEN in *. lia.
Qed.

(** What [get_or_create_entity] returns on a well-formed graph: an entity of
    the table and of the given name; nothing that was there is changed. *)
Lemma get_or_create_spec nm g e g' :
  wf g -> (length nm < NAME_LEN)%nat ->
  get_or_create_entity nm g = (e, g') ->
  wf g' /\ e ∈ all_entities g' /\ ename g' e = nm /\
  (forall x, x ∈ all_entities g' <-> x ∈ all_entities g \/ (x = e /\ find_entity_exact nm g = None)) /\
  (forall x, (x < length (heap g))%nat -> heap g' !! x = heap g !! x) /\
  (find_entity_exact nm g = None ->
     e = length (heap g) /\ exists E, heap g' !! e = Some E /\ relations E = []).
Proof.
  intros Hwf Hlen [[Hf ->]|[Hf Hc]]%get_or_create_found.
  - split; [done|]. split; [|split; [|split; [|split]]].
    + pose proof Hf as (Hb & _)%find_in_chain_Some.
      apply elem_of_all_entities. eexists. split; [apply hash_index_lt|done].
    + by apply find_entity_exact_name.
    + intros x. rewrite Hf. naive_solver.
    + done.
    + rewrite Hf. done.
  - assert (e = length (heap g)) as -> by (by apply (f_equal fst) in Hc).
    assert (g' = snd (create_entity nm g)) as -> by (by apply (f_equal snd) in Hc).
    split; [by apply wf_create|]. split; [|split; [|split; [|split]]].
    + apply elem_of_all_entities_create. by left.
    + rewrite ename_create. by apply short_strncpy.
    + intros x. rewrite elem_of_all_entities_create. naive_solver.
    + intros x Hx. rewrite heap_create. by apply lookup_app_l.
    + intros _. split; [done|]. rewrite heap_create. eexists. split.
      * rewrite lookup_app_r by lia. by rewrite Nat.sub_diag.
      * done.
Qed.

Lemma wf_get_or_create nm g : wf g -> wf (snd (get_or_create_entity nm g)).
Proof.
  intros Hwf. unfold get_or_create_entity.
  destruct (find_entity_exact nm g); [done|]. by apply wf_create.
Qed.

Lemma get_or_create_lt nm g :
  wf g -> ((get_or_create_entity nm g).1 < length (heap (get_or_create_entity nm g).2))%nat.
Proof.
  intros Hwf. unfold get_or_create_entity.
  destruct (find_entity_exact nm g) as [e|] eqn:Hf; simpl.
  - apply find_in_chain_Some in Hf as (Hb & _). by eapply wf_chain.
  - rewrite length_app. simpl. lia.
Qed.

Lemma get_or_create_length nm g :
  (length (heap g) <= length (heap (get_or_create_entity nm g).2))%nat.
Proof.
  unfold get_or_create_entity. destruct (find_entity_exact nm g); simpl; [lia|].
  rewrite length_app. lia.
Qed.

(** Well-formedness looks at chains, relations and names only. *)
Lemma wf_alter_relations g e R :
  wf g -> (target R < length (heap g))%nat ->
  wf {| heap := alter (push_relation R) e (heap g); gHash := gHash g |}.
Proof.
  intros Hwf HR. split.
  - intros i x Hx. cbn [heap]. rewrite length_alter. by apply (wf_chain g Hwf i).
  - intros x. cbn [heap]. rewrite length_alter. apply (wf_indexed g Hwf).
  - intros x E r. cbn [heap]. rewrite length_alter, list_lookup_alter.
    destruct (decide (e = x)) as [->|].
    + destruct (heap g !! x) as [E0|] eqn:HE0; simpl; [|done].
      intros [= <-]. simpl. intros [->|Hr]%elem_of_cons; [done|].
      by apply (wf_targets g Hwf x E0).
    + apply (wf_targets g Hwf).
  - intros x E. cbn [heap]. rewrite list_lookup_alter.
    destruct (decide (e = x)) as [->|]; [|apply (wf_names g Hwf)].
    destruct (heap g !! x) as [E0|] eqn:HE0; simpl; [|done].
    intros [= <-]. simpl. by apply (wf_names g Hwf x).
Qed.

Lemma wf_add_relationship s l t g : wf g -> wf (add_relationship s l t g).
Proof.
  intros Hwf. unfold add_relationship.
  pose proof (wf_get_or_create s g Hwf) as Hwf1.
  destruct (get_or_create_entity s g) as [pS g1]. cbn [snd] in Hwf1.
  pose proof (wf_get_or_create t g1 Hwf1) as Hwf2.
  pose proof (get_or_create_lt t g1 Hwf1) as Hlt.
  destruct (get_or_create_entity t g1) as [pT g2]. cbn [fst snd] in *.
  by apply wf_alter_relations.
Qed.

Lemma wf_shape g g' :
  gHash g = gHash g' -> clear_marks <$> heap g = clear_marks <$> heap g' ->
  wf g -> wf g'.
Proof.
  intros Hh Hs Hwf.
  assert (Hl : length (heap g) = length (heap g')).
  { apply (f_equal length) in Hs. by rewrite !length_fmap in Hs. }
  assert (HE : forall e E', heap g' !! e = Some E' ->
             exists E, heap g !! e = Some E /\ name E = name E' /\ relations E = relations E').
  { intros e E' HE'. apply (f_equal (fun l => l !! e)) in Hs.
    rewrite !list_lookup_fmap, HE' in Hs.
    destruct (heap g !! e) as [E|]; simpl in Hs; [|done].
    exists E. split; [done|]. destruct E, E'. unfold clear_marks in Hs. simpl in *.
    by simplify_eq. }
  split.
  - intros i e. unfold bucket. rewrite <- Hh, <- Hl. apply (wf_chain g Hwf).
  - by apply (indexed_same g), wf_indexed.
  - intros e E' r HE' Hr. destruct (HE _ _ HE') as (E & HEg & _ & Hrel).
    rewrite <- Hl. apply (wf_targets g Hwf e E r HEg). by rewrite Hrel.
  - intros e E' HE'. destruct (HE _ _ HE') as (E & HEg & Hn & _).
    rewrite <- Hn. by apply (wf_names g Hwf e E).
Qed.

Lemma wf_find_path_bfs s t fz g con :
  wf g -> (forall f, (find_path_bfs s t fz g con).1.1 <> Undefined f) ->
  wf (find_path_bfs s t fz g con).1.2.
Proof.
  intros Hwf Hok. destruct (find_path_bfs_graph s t fz g con Hok) as [Hh Hs].
  by apply (wf_shape g).
Qed.

Lemma wf_load_step st buf : wf (ld_graph st) -> wf (ld_graph (load_step st buf)).
Proof.
  intros Hwf. unfold load_step.
  destruct (trim (chomp buf)) as [|c line]; [done|].
  destruct (ascii_eqb c HASHMARK); [done|].
  destruct (parse_relation_line (c :: line)) as [[[src rl] tgt]|]; [|done].
  by apply wf_add_relationship.
Qed.

Lemma wf_load_from_file file g : wf g -> wf (snd (load_from_file file g)).
Proof.
  intros Hwf. unfold load_from_file. destruct file as [fp|]; [|done]. cbn [snd].
  generalize (fgets_all fp). intros bufs.
  set (st0 := {| ld_graph := g; ld_count := 0; ld_bad := 0; ld_lineNo := 0; ld_skipped := [] |}).
  assert (Hst : wf (ld_graph st0)) by done.
  clearbody st0. revert st0 Hst.
  induction bufs as [|buf bufs IH]; intros st0 Hst; simpl; [done|].
  apply IH. by apply wf_load_step.
Qed.

Lemma wf_menu_add_entity g con : wf g -> wf (fst (menu_add_entity g con)).
Proof.
  intros Hwf. unfold menu_add_entity.
  destruct (console_read_line LINE_BUF con) as [buf con1].
  destruct (squeeze_spaces (trim buf)) as [|c b]; [done|].
  destruct (find_entity_exact (c :: b) g); [done|]. by apply wf_create.
Qed.

Lemma wf_menu_add_relationship g con : wf g -> wf (fst (menu_add_relationship g con)).
Proof.
  intros Hwf. unfold menu_add_relationship.
  destruct (console_read_line NAME_LEN con) as [s con1].
  destruct (console_read_line REL_LEN con1) as [r con2].
  destruct (console_read_line NAME_LEN con2) as [t con3].
  destruct (squeeze_spaces (trim s)); [done|].
  destruct (squeeze_spaces (trim r)); [done|].
  destruct (squeeze_spaces (trim t)); [done|].
  by apply wf_add_relationship.
Qed.

End WfFacts.

(** ** Reachable states *)

(** The part of C4 that holds in every reachable state: every relation's
    target is an allocated entity that is in the table (and so are the
    entities of every chain). *)
Lemma reachable_wf g : reachable g -> wf g.
Proof.
  induction 1.
  - apply wf_empty.
  - by apply wf_menu_add_entity.
  - by apply wf_menu_add_relationship.
  - by apply wf_load_from_file.
  - by apply wf_find_path_bfs.
Qed.

Lemma reachable_targets_indexed g e E r :
  reachable g -> heap g !! e = Some E -> r ∈ relations E ->
  target r ∈ all_entities g.
Proof.
  intros Hwf%reachable_wf HE Hr.
  apply (wf_indexed g Hwf). by apply (wf_targets g Hwf e E r).
Qed.

(** ** The reports of a path query *)

(** C8: what [find_path_bfs] reports, by the resolution of the two inputs and
    the end of the traversal.  "Source not found" exactly when the source does
    not resolve; "Target not found" exactly when the source resolves and the
    target does not; "No path found" (with the two names) exactly when both
    resolve and the loop ends on an empty queue; and a path is reported only
    when both resolve and the target was taken from the queue.  The reports
    are distinct constructors, so each query gives at most one of them. *)
Theorem find_path_bfs_failures (src_in tgt_in : cstr) (fz : bool) (g : Graph) (con : Console) :
  let src := (resolve fz src_in g con).1 in
  let con1 := (resolve fz src_in g con).2 in
  let tgt := (resolve fz tgt_in g con1).1 in
  let r := (find_path_bfs src_in tgt_in fz g con).1.1 in
  (r = SourceNotFound <-> src = None) /\
  (r = TargetNotFound <-> is_Some src /\ tgt = None) /\
  (forall a b, r = PathNotFound a b <->
     exists s t, src = Some s /\ tgt = Some t /\
                 (bfs_run s t g).1 = BfsExhausted /\ a = ename g s /\ b = ename g t) /\
  (forall p, r = PathFound p ->
     exists s t, src = Some s /\ tgt = Some t /\ (bfs_run s t g).1 = BfsFound).
Proof.
  intros src con1 tgt r. subst src con1 tgt r. unfold find_path_bfs.
  destruct (resolve fz src_in g con) as [src con1]. cbn [fst snd].
  destruct (resolve fz tgt_in g con1) as [tgt con2]. cbn [fst snd].
  destruct src as [s|]; [destruct tgt as [t|]|]; cbn [fst snd].
  - pose proof (bfs_run_shape s t g) as Hs.
    unfold bfs_from. destruct (bfs_run s t g) as [out h2] eqn:Hrun. cbn [fst snd] in *.
    assert (Hn : forall e, ename {| heap := h2; gHash := gHash g |} e = ename g e).
    { intros e. by apply ename_shape. }
    assert (Hex : forall (a b : list ascii) (P : Prop), out <> BfsExhausted ->
              (exists s0 t0 : nat, Some s = Some s0 /\ Some t = Some t0 /\
                 (bfs_run s0 t0 g).1 = BfsExhausted /\ a = ename g s0 /\ b = ename g t0) -> P).
    { intros a b P Hne (s' & t' & [= <-] & [= <-] & H & _).
      rewrite Hrun in H. by destruct Hne. }
    destruct out as [| |f]; [destruct (walk_prev _ _ _) as [f|st]| |]; cbn [fst snd].
    + split; [done|]. split; [split; [done|by intros [_ ?]]|].
      split; [|done]. intros a b. split; [done|]. by apply Hex.
    + split; [done|]. split; [split; [done|by intros [_ ?]]|].
      split; [|intros p _; exists s, t; by rewrite Hrun].
      intros a b. split; [done|]. by apply Hex.
    + split; [done|]. split; [split; [done|by intros [_ ?]]|].
      split; [|done]. intros a b. rewrite !Hn. split.
      * intros [= <- <-]. exists s, t. by rewrite Hrun.
      * intros (s' & t' & ? & ? & ? & -> & ->). by simplify_eq.
    + split; [done|]. split; [split; [done|by intros [_ ?]]|].
      split; [|done]. intros a b. split; [done|]. by apply Hex.
  - split; [done|]. split; [split; [by eauto|done]|].
    split; [intros a b; split; [done|by intros (? & ? & ? & ? & _)]|done].
  - split; [done|]. split; [split; [done|by intros [[? ?] _]]|].
    split; [intros a b; split; [done|by intros (? & ? & ? & _)]|done].
Qed.

(** ** Import: parsing and truncation *)


(** C5, the defect: the segments are tested for emptiness before they are
    trimmed, so the line [a| |b], whose label is empty after trimming, is
    loaded (one relation, no skip) with the empty label. *)
Theorem load_from_file_accepts_blank_label :
  normalize (lit " ") = [] /\
  parse_relation_line (lit "a| |b") = Some (lit "a", [], lit "b") /\
  let '(report, g) := load_from_file (Some (lit "a| |b" ++ [LF])) empty_graph in
  report = Loaded 1 0 [] /\ triples g = [(lit "a", [], lit "b")].
Proof. by vm_compute. Qed.

(** A fourth segment is taken into the target, against the comment "Expect
    exactly two '|' separators". *)
Lemma parse_relation_line_extra_delimiter :
  parse_relation_line (lit "a|b|c|d") = Some (lit "a", lit "b", lit "c|d").
Proof. by vm_compute. Qed.

(** The example of C5 holds: one valid line and one line without a delimiter
    give one relation loaded and one skip, and the valid relation is there. *)
Lemma load_from_file_resilience_example :
  let file := lit "Alice|knows|Bob" ++ [LF] ++ lit "Alice knows Carol" ++ [LF] in
  let '(report, g) := load_from_file (Some file) empty_graph in
  report = Loaded 1 1 [(2, lit "Alice knows Carol")] /\
  triples g = [(lit "Alice", lit "knows", lit "Bob")].
Proof. by vm_compute. Qed.

(** A line with fewer than two delimiters is rejected, whatever else it holds. *)
Lemma parse_relation_line_missing_delimiter line :
  strchr line BAR = None \/
  (exists p, strchr line BAR = Some p /\ strchr (drop (S p) line) BAR = None) ->
  parse_relation_line line = None.
Proof.
  unfold parse_relation_line. intros [->|(p & -> & ->)]; done.
Qed.

(** ** The invariants of the table *)

(** C4, the defects.  Importing the line [a|b|], 127 blanks, [c] creates an
    entity whose name is empty: the target segment has 128 bytes, its first
    127 are kept, and they are all blank.  Entering a 128-byte name twice at
    "Add Entity" creates two entities with the same stored name: the lookup
    compares all 128 bytes, the entity stores 127. *)
Theorem reachable_invariants_broken :
  (reachable padded_target_graph /\
   exists e, e ∈ all_entities padded_target_graph /\ ename padded_target_graph e = []) /\
  (reachable long_entry_graph /\
   exists e1 e2, e1 ∈ all_entities long_entry_graph /\ e2 ∈ all_entities long_entry_graph /\
                 e1 <> e2 /\ ename long_entry_graph e1 = ename long_entry_graph e2).
Proof.
  split.
  - split; [apply reach_import, reach_start|].
    exists 1%nat. split; [|vm_compute; reflexivity].
    apply list_elem_of_In. vm_compute. auto.
  - split; [apply reach_add_entity, reach_add_entity, reach_start|].
    exists 0%nat, 1%nat.
    split; [apply list_elem_of_In; vm_compute; auto|].
    split; [apply list_elem_of_In; vm_compute; auto|].
    split; [discriminate|]. vm_compute; reflexivity.
Qed.

Lemma indexed_abc_graph : indexed abc_graph.
Proof.
  intros e He. change (length (heap abc_graph)) with 3%nat in He.
  apply list_elem_of_In.
  destruct e as [|[|[|e]]]; [vm_compute; auto ..|lia].
Qed.


(** The first query does leave marks behind, which the second one clears. *)
Lemma first_query_leaves_marks :
  let g1 := (find_path_bfs (lit "Alice") (lit "Bob") false abc_graph con0).1.2 in
  visited <$> heap g1 = [1; 1; 1] /\
  (find_path_bfs (lit "Alice") (lit "Carol") false g1 con0).1.1
    = PathFound [lit "Alice"; lit "Carol"].
Proof. vm_compute. split; reflexivity. Qed.

(** ** Breadth-first search: the examples of C1 *)

Lemma find_path_bfs_direct_edge :
  (find_path_bfs (lit "Alice") (lit "Carol") false abc_graph con0).1.1
  = PathFound [lit "Alice"; lit "Carol"].
Proof. vm_compute. reflexivity. Qed.

Lemma find_path_bfs_no_path :
  (find_path_bfs (lit "Carol") (lit "Alice") false abc_graph con0).1.1
  = PathNotFound (lit "Carol") (lit "Alice").
Proof. vm_compute. reflexivity. Qed.

(** ** Breadth-first search: the queue *)

(** C1, the defect: the capacity of the queue is tested once per dequeued
    entity, not once per write.  With 200 relations leaving Hub the first
    round writes [Q[1] .. Q[200]] into a queue of [QUEUE_INIT = 128] slots:
    the search from Hub to the entity of its first relation, one hop away,
    runs out of the array instead of reporting the path. *)
Theorem find_path_bfs_queue_overflow :
  (lit "Hub", lit "to", node_name 0) ∈ triples (hub_graph 200) /\
  find_entity_exact (lit "Hub") (hub_graph 200) = Some 0%nat /\
  find_entity_exact (node_name 0) (hub_graph 200) = Some 1%nat /\
  (find_path_bfs (lit "Hub") (node_name 0) false (hub_graph 200) con0).1.1
    = Undefined QueueOverflow.
Proof.
  split; [apply list_elem_of_In; vm_compute; tauto|].
  vm_compute. repeat split; reflexivity.
Qed.

(** The same query with 100 relations stays inside the queue. *)
Lemma find_path_bfs_hub_small :
  (find_path_bfs (lit "Hub") (node_name 0) false (hub_graph 100) con0).1.1
    = PathFound [lit "Hub"; node_name 0].
Proof. vm_compute. reflexivity. Qed.

(** ** Fuzzy search: the tiers *)

Section MatchFacts.

Lemma code_NUL c : code c = 0 <-> c = NUL.
Proof. split; [intros H; by apply code_inj|by intros ->]. Qed.

Lemma tolower_NUL c : tolower c = NUL -> c = NUL.
Proof.
  unfold tolower. destruct (_ && _) eqn:H; [|done].
  intros Hc. exfalso. apply (f_equal N_of_ascii) in Hc.
  assert (Hr : (N_of_ascii c < 256)%N) by apply N_ascii_bounded.
  unfold code in H.
  rewrite N_ascii_embedding in Hc by lia. simpl in Hc. lia.
Qed.

Lemma valid_lower s : valid_cstr s -> valid_cstr (lower s).
Proof.
  unfold valid_cstr, lower. intros H (c & Hc & Hin)%list_elem_of_In%in_map_iff.
  apply H. apply tolower_NUL in Hc as ->.
  by apply list_elem_of_In.
Qed.

Lemma valid_cons c s : valid_cstr (c :: s) <-> c <> NUL /\ valid_cstr s.
Proof. unfold valid_cstr. rewrite not_elem_of_cons. naive_solver. Qed.

Lemma ci_cmp_zero a b :
  valid_cstr a -> valid_cstr b -> ci_cmp a b = 0 <-> ci_equal a b.
Proof.
  unfold ci_equal. revert b. induction a as [|ca a IH]; intros [|cb b] Ha Hb; simpl.
  - done.
  - apply valid_cons in Hb as [Hb _]. split; [|done].
    intros H. destruct Hb. apply code_NUL. lia.
  - apply valid_cons in Ha as [Ha _]. split; [|done].
    intros H. destruct Ha. apply code_NUL. lia.
  - apply valid_cons in Ha as [_ Ha]. apply valid_cons in Hb as [_ Hb].
    destruct (code (tolower ca) =? code (tolower cb)) eqn:Hc.
    + apply Z.eqb_eq, code_inj in Hc. rewrite (IH b Ha Hb). rewrite Hc.
      split; [by intros ->|by intros [= ->]].
    + apply Z.eqb_neq in Hc. split; [lia|]. intros [= H _]. by rewrite H in Hc.
Qed.

Lemma strncmp_prefix a b :
  valid_cstr b -> strncmp a b (length b) = 0 <-> b `prefix_of` a.
Proof.
  revert a. induction b as [|cb b IH]; intros a Hb; simpl.
  - split; [intros _; apply prefix_nil|done].
  - apply valid_cons in Hb as [Hcb Hb]. destruct a as [|ca a].
    + split.
      * intros H. destruct Hcb. apply code_NUL. lia.
      * intros H. by apply prefix_nil_inv in H.
    + destruct (code ca =? code cb) eqn:Hc.
      * apply Z.eqb_eq, code_inj in Hc. subst ca. rewrite (IH a Hb).
        split; [apply prefix_cons|apply prefix_cons_inv_2].
      * apply Z.eqb_neq in Hc. split; [lia|].
        intros H%prefix_cons_inv_1. by subst.
Qed.

Lemma is_prefix_spec p s : is_prefix p s = true <-> p `prefix_of` s.
Proof.
  revert s. induction p as [|x p IH]; intros [|y s]; simpl.
  - split; [intros _; apply prefix_nil|done].
  - split; [intros _; apply prefix_nil|done].
  - split; [done|]. intros H. by apply prefix_nil_inv in H.
  - rewrite andb_true_iff, ascii_eqb_true, IH. split.
    + intros [-> H]. by apply prefix_cons.
    + intros H. split; [by apply prefix_cons_inv_1 in H|by apply prefix_cons_inv_2 in H].
Qed.

Lemma strstr_spec hay needle :
  strstr hay needle = true <-> exists p q, hay = p ++ needle ++ q.
Proof.
  induction hay as [|c hay IH].
  - simpl. rewrite orb_false_r, is_prefix_spec. split.
    + intros [q Hq]. by exists [], q.
    + intros (p & q & H). destruct p; [|done]. by exists q.
  - cbn [strstr]. rewrite orb_true_iff, is_prefix_spec, IH. split.
    + intros [[q Hq]|(p & q & H)]; [by exists [], q|exists (c :: p), q; by rewrite H].
    + intros (p & q & H). destruct p as [|c' p].
      * left. by exists q.
      * right. exists p, q. simpl in H. by simplify_eq.
Qed.

Lemma strstr_tails hay needle :
  strstr hay needle = true <-> Exists (fun t => needle `prefix_of` t) (tails hay).
Proof.
  induction hay as [|c hay IH].
  - simpl. rewrite orb_false_r, is_prefix_spec. split.
    + intros H. by constructor.
    + by intros [H|H%Exists_nil]%Exists_cons.
  - cbn [strstr tails]. rewrite orb_true_iff, is_prefix_spec, IH.
    by rewrite Exists_cons.
Qed.

(** [ci_substring] says that the key occurs inside the name, up to case. *)
Lemma ci_substring_occurs key nm :
  ci_substring key nm <-> exists p q, lower nm = p ++ lower key ++ q.
Proof. unfold ci_substring. by rewrite <- strstr_tails, strstr_spec. Qed.

Lemma to_lower_copy_short s n : (length s < n)%nat -> to_lower_copy s n = lower s.
Proof. intros H. unfold to_lower_copy, lower. rewrite take_ge; [done|lia]. Qed.

Lemma prefix_test_spec key nm :
  valid_cstr key -> (length key < NAME_LEN)%nat -> (length nm < NAME_LEN)%nat ->
  prefix_test key nm = true <-> ci_prefix key nm.
Proof.
  intros Hk Hlk Hln. unfold prefix_test, ci_prefix.
  rewrite !to_lower_copy_short by done.
  rewrite Z.eqb_eq. apply strncmp_prefix. by apply valid_lower.
Qed.

Lemma substring_test_spec key nm :
  (length key < NAME_LEN)%nat -> (length nm < NAME_LEN)%nat ->
  substring_test key nm = true <-> ci_substring key nm.
Proof.
  intros Hlk Hln. unfold substring_test, ci_contains, ci_substring.
  rewrite !to_lower_copy_short by (unfold NAME_LEN in *; lia).
  apply strstr_tails.
Qed.

Lemma first_ci_match_spec g key es :
  first_ci_match g key es = head (filter (fun e => ci_cmp (ename g e) key = 0) es).
Proof.
  induction es as [|e es IH]; simpl; [done|].
  rewrite filter_cons. destruct (decide (ci_cmp (ename g e) key = 0)) as [H|H].
  - by rewrite (proj2 (Z.eqb_eq _ _) H).
  - by rewrite (proj2 (Z.eqb_neq _ _) H).
Qed.

Lemma collect_spec test g es sugg :
  (length sugg <= SUGGEST_MAX)%nat ->
  collect test g es sugg =
  take SUGGEST_MAX (sugg ++ filter (fun e => test (ename g e) = true) es).
Proof.
  revert sugg. induction es as [|e es IH]; intros sugg Hlen; simpl.
  - rewrite app_nil_r. symmetry. by apply take_ge.
  - destruct (length sugg <? SUGGEST_MAX)%nat eqn:Hlt.
    + apply Nat.ltb_lt in Hlt. rewrite filter_cons.
      destruct (test (ename g e)) eqn:Ht.
      * rewrite decide_True by done. rewrite IH by (rewrite length_app; simpl; lia).
        by rewrite <- app_assoc.
      * rewrite decide_False by done. by apply IH.
    + apply Nat.ltb_ge in Hlt. rewrite take_app_le by lia. symmetry. apply take_ge. lia.
Qed.

End MatchFacts.

Lemma valid_normalize s : valid_cstr s -> valid_cstr (normalize s).
Proof. intros H [?|[? _]]%normalize_elem; [done|by apply H]. Qed.

Lemma valid_strncpy s n : valid_cstr s -> valid_cstr (strncpy s n).
Proof.
  intros H (i & Hi & _)%elem_of_take. apply H. by eapply list_elem_of_lookup_2.
Qed.

(** C2, with the key the code computes: the first [NAME_LEN - 1 = 127] bytes
    of the input, trimmed and squeezed.  An input that normalizes to the empty
    string, or whose key is empty, gives no entity and leaves the console
    untouched.  Otherwise the first entity of the exact tier is returned with
    the console untouched; if the exact tier is empty the prefix tier goes to
    the disambiguation; and the substring tier goes there only when the
    prefix tier is empty too. *)
Theorem search_entity_smart_tiers (g : Graph) (raw : cstr) (con : Console) :
  names_ok g -> valid_cstr raw ->
  let key := normalize (strncpy raw (NAME_LEN - 1)) in
  let res := search_entity_smart raw g con in
  (normalize raw = [] -> res = (None, con)) /\
  (key = [] -> res = (None, con)) /\
  (key <> [] -> forall e, head (exact_tier g key) = Some e -> res = (Some e, con)) /\
  (key <> [] -> exact_tier g key = [] -> prefix_tier g key <> [] ->
     res = fuzzy_pick_from_suggestions g (prefix_tier g key)
             (Z.of_nat (length (prefix_tier g key))) con) /\
  (key <> [] -> exact_tier g key = [] -> prefix_tier g key = [] ->
     res = fuzzy_pick_from_suggestions g (substring_tier g key)
             (Z.of_nat (length (substring_tier g key))) con).
Proof.
  intros Hg Hraw key res.
  assert (Hkv : valid_cstr key) by (by apply valid_normalize, valid_strncpy).
  assert (Hkl : (length key < NAME_LEN)%nat).
  { pose proof (length_normalize (strncpy raw (NAME_LEN - 1))).
    pose proof (length_strncpy raw (NAME_LEN - 1)).
    subst key. unfold NAME_LEN in *. lia. }
  assert (Hex : first_ci_match g key (all_entities g) = head (exact_tier g key)).
  { rewrite first_ci_match_spec. unfold exact_tier. f_equal.
    apply list_filter_iff. intros e. apply ci_cmp_zero; [apply Hg|done]. }
  assert (Hpre : collect (prefix_test key) g (all_entities g) [] = prefix_tier g key).
  { rewrite collect_spec by (simpl; lia). simpl. unfold prefix_tier. f_equal.
    apply list_filter_iff. intros e. apply prefix_test_spec; [done|done|apply Hg]. }
  assert (Hsub : collect (substring_test key) g (all_entities g) [] = substring_tier g key).
  { rewrite collect_spec by (simpl; lia). simpl. unfold substring_tier. f_equal.
    apply list_filter_iff. intros e. apply substring_test_spec; [done|apply Hg]. }
  assert (Hres : res =
    match key with
    | [] => (None, con)
    | _ => match head (exact_tier g key) with
           | Some e => (Some e, con)
           | None =>
               let sugg := if (length (prefix_tier g key) =? 0)%nat
                           then substring_tier g key else prefix_tier g key in
               fuzzy_pick_from_suggestions g sugg (Z.of_nat (length sugg)) con
           end
    end).
  { subst res. unfold search_entity_smart. fold (normalize (strncpy raw (NAME_LEN - 1))).
    fold key. destruct key as [|c k] eqn:Hk; [done|].
    rewrite Hex. destruct (head _); [done|]. rewrite Hpre.
    destruct (prefix_tier g (c :: k)) as [|x l] eqn:Hp; simpl; [|done].
    by rewrite Hsub. }
  assert (Hnil : key = [] -> res = (None, con)) by (intros Hk; by rewrite Hres, Hk).
  split; [|split; [done|split; [|split]]].
  - intros Hn. apply Hnil. subst key. apply normalize_all_space.
    apply normalize_nil_inv in Hn. unfold strncpy. by apply Forall_take.
  - intros Hk e He. rewrite Hres, He. by destruct key.
  - intros Hk He Hp. rewrite Hres, He. simpl.
    destruct key; [done|]. destruct (prefix_tier _ _); done.
  - intros Hk He Hp. rewrite Hres, He, Hp. simpl. by destruct key.
Qed.

Lemma names_ok_abc_graph : names_ok abc_graph.
Proof.
  intros e. unfold ename.
  destruct e as [|[|[|e]]]; [vm_compute; split; [|lia] ..|].
  1-3: intros H%list_elem_of_In; simpl in H; intuition discriminate.
  replace (heap abc_graph !! S (S (S e))) with (@None Entity).
  - simpl. split; [by intros ?%elem_of_nil|unfold NAME_LEN; lia].
  - symmetry. apply lookup_ge_None. vm_compute. lia.
Qed.

(** The theorem on the graph of Alice, Bob and Carol and the input [ALICE]. *)
Lemma search_entity_smart_tiers_witness :
  names_ok abc_graph /\ valid_cstr (lit "ALICE") /\
  search_entity_smart (lit "ALICE") abc_graph con0 = (Some 0%nat, con0).
Proof.
  assert (Hv : valid_cstr (lit "ALICE")).
  { intros H%list_elem_of_In. simpl in H. intuition discriminate. }
  split; [exact names_ok_abc_graph|]. split; [exact Hv|].
  destruct (search_entity_smart_tiers abc_graph (lit "ALICE") con0 names_ok_abc_graph Hv)
    as (_ & _ & H & _).
  apply H; [by vm_compute|]. vm_compute. reflexivity.
Defined.

(** C2 as stated fails on an input of more than 127 bytes: 127 blanks and
    then [Alice] normalize to [Alice], the name of an entity of the table,
    but the key is cut from the first 127 bytes, is empty, and the search
    gives no entity. *)
Lemma search_entity_smart_padded_input :
  normalize padded_alice = lit "Alice" /\
  0%nat ∈ all_entities abc_graph /\ ename abc_graph 0 = lit "Alice" /\
  ci_equal (ename abc_graph 0) (normalize padded_alice) /\
  search_entity_smart padded_alice abc_graph con0 = (None, con0).
Proof.
  split; [vm_compute; reflexivity|].
  split; [apply list_elem_of_In; vm_compute; auto|].
  split; [vm_compute; reflexivity|].
  split; vm_compute; reflexivity.
Qed.

(** The examples of the specification: [al] has the two prefix candidates
    Alan and Alice (in table order) and asks; [OB] has no prefix candidate
    and finds Bob in the substring tier. *)
Lemma search_entity_smart_examples :
  map (ename aab_graph) (prefix_tier aab_graph (lit "al")) = [lit "Alan"; lit "Alice"] /\
  search_entity_smart (lit "al") aab_graph {| stdin := lit "2" ++ [LF]; stdout := [] |}
    = (Some 0%nat, {| stdin := []; stdout := [DidYouMean [lit "Alan"; lit "Alice"]] |}) /\
  search_entity_smart (lit "ALICE") aab_graph con0 = (Some 0%nat, con0) /\
  prefix_tier aab_graph (lit "OB") = [] /\
  search_entity_smart (lit "OB") aab_graph con0 = (Some 2%nat, con0).
Proof. vm_compute. repeat split; reflexivity. Qed.

(** ** The triples of a graph *)

Section TripleFacts.

Lemma elem_of_triples g x :
  x ∈ triples g <->
  exists e E r, e ∈ all_entities g /\ heap g !! e = Some E /\ r ∈ relations E /\
                x = (name E, rel r, ename g (target r)).
Proof.
  unfold triples. rewrite elem_of_concat_map. split.
  - intros (e & He & Hx). unfold entity_triples in Hx.
    destruct (heap g !! e) as [E|] eqn:HE; [|by apply elem_of_nil in Hx].
    apply list_elem_of_In, in_map_iff in Hx as (r & <- & Hr%list_elem_of_In).
    by exists e, E, r.
  - intros (e & E & r & He & HE & Hr & ->). exists e. split; [done|].
    unfold entity_triples. rewrite HE.
    apply list_elem_of_In, in_map_iff. exists r. split; [done|by apply list_elem_of_In].
Qed.

Lemma ename_lookup_eq g g' e : heap g' !! e = heap g !! e -> ename g' e = ename g e.
Proof. unfold ename. by intros ->. Qed.

Lemma triples_get_or_create nm g e g' x :
  wf g -> (length nm < NAME_LEN)%nat -> get_or_create_entity nm g = (e, g') ->
  x ∈ triples g' <-> x ∈ triples g.
Proof.
  intros Hwf Hlen Hgoc.
  destruct (get_or_create_spec nm g e g' Hwf Hlen Hgoc) as (Hwf' & _ & _ & Hall & Hheap & Hnew).
  rewrite !elem_of_triples. split.
  - intros (e0 & E & r & He0 & HE & Hr & ->).
    apply Hall in He0 as [He0|[-> Hnone]].
    + pose proof (all_entities_lt g e0 Hwf He0) as Hlt.
      rewrite (Hheap e0 Hlt) in HE.
      pose proof (wf_targets g Hwf e0 E r HE Hr) as Ht.
      exists e0, E, r. repeat split; try done.
      f_equal. apply ename_lookup_eq. by apply Hheap.
    + destruct (Hnew Hnone) as (_ & E' & HE' & Hrel).
      rewrite HE in HE'. simplify_eq. rewrite Hrel in Hr. by apply elem_of_nil in Hr.
  - intros (e0 & E & r & He0 & HE & Hr & ->).
    pose proof (all_entities_lt g e0 Hwf He0) as Hlt.
    pose proof (wf_targets g Hwf e0 E r HE Hr) as Ht.
    exists e0, E, r. repeat split; try done.
    + apply Hall. by left.
    + by rewrite (Hheap e0 Hlt).
    + f_equal. symmetry. apply ename_lookup_eq. by apply Hheap.
Qed.

Lemma ename_alter_relations g e R x :
  ename {| heap := alter (push_relation R) e (heap g); gHash := gHash g |} x = ename g x.
Proof.
  unfold ename. cbn [heap]. rewrite list_lookup_alter.
  destruct (decide (e = x)) as [->|]; [|done]. by destruct (heap g !! x).
Qed.

Lemma triples_alter_relations g e E R x :
  e ∈ all_entities g -> heap g !! e = Some E ->
  x ∈ triples {| heap := alter (push_relation R) e (heap g); gHash := gHash g |} <->
  x = (name E, rel R, ename g (target R)) \/ x ∈ triples g.
Proof.
  intros He HE. rewrite !elem_of_triples. split.
  - intros (e0 & E0 & r & He0 & HE0 & Hr & ->).
    rewrite ename_alter_relations. cbn [heap] in HE0.
    rewrite list_lookup_alter in HE0.
    destruct (decide (e = e0)) as [<-|Hne].
    + rewrite HE in HE0. simpl in HE0. simplify_eq. simpl in Hr.
      apply elem_of_cons in Hr as [->|Hr]; [by left|].
      right. by exists e, E, r.
    + right. by exists e0, E0, r.
  - intros [->|(e0 & E0 & r & He0 & HE0 & Hr & ->)].
    + exists e, (push_relation R E), R. split; [done|]. split.
      * cbn [heap]. rewrite list_lookup_alter_eq, HE. done.
      * split; [by left|]. by rewrite ename_alter_relations.
    + destruct (decide (e = e0)) as [<-|Hne].
      * exists e, (push_relation R E), r. split; [done|]. split.
        -- cbn [heap]. rewrite list_lookup_alter_eq, HE. done.
        -- rewrite HE in HE0. simplify_eq.
           split; [by right|]. by rewrite ename_alter_relations.
      * exists e0, E0, r. split; [done|]. split.
        -- cbn [heap]. by rewrite list_lookup_alter_ne.
        -- split; [done|]. by rewrite ename_alter_relations.
Qed.

(** [add_relationship] adds the triple of its (stored) arguments and keeps
    the others. *)
Lemma triples_add_relationship s l t g x :
  wf g -> (length s < NAME_LEN)%nat -> (length t < NAME_LEN)%nat ->
  x ∈ triples (add_relationship s l t g) <->
  x = (s, strncpy l (REL_LEN - 1), t) \/ x ∈ triples g.
Proof.
  intros Hwf Hs Ht. unfold add_relationship.
  destruct (get_or_create_entity s g) as [pS g1] eqn:H1.
  destruct (get_or_create_spec s g pS g1 Hwf Hs H1) as (Hwf1 & HpS & HnS & Hall1 & _ & _).
  destruct (get_or_create_entity t g1) as [pT g2] eqn:H2.
  destruct (get_or_create_spec t g1 pT g2 Hwf1 Ht H2) as (Hwf2 & HpT & HnT & Hall2 & Hheap2 & _).
  pose proof (all_entities_lt g1 pS Hwf1 HpS) as HltS.
  assert (HpS2 : pS ∈ all_entities g2) by (apply Hall2; by left).
  assert (HnS2 : ename g2 pS = s).
  { rewrite <- HnS. apply ename_lookup_eq. by apply Hheap2. }
  destruct (heap g2 !! pS) as [ES|] eqn:HES.
  2:{ apply lookup_ge_None in HES. pose proof (all_entities_lt g2 pS Hwf2 HpS2). lia. }
  rewrite (triples_alter_relations g2 pS ES _ x HpS2 HES). cbn [rel target].
  rewrite HnT.
  assert (name ES = s) as -> by (unfold ename in HnS2; by rewrite HES in HnS2).
  rewrite (triples_get_or_create t g1 pT g2 x Hwf1 Ht H2).
  by rewrite (triples_get_or_create s g pS g1 x Hwf Hs H1).
Qed.

Lemma triples_empty : triples empty_graph = [].
Proof. vm_compute. reflexivity. Qed.

End TripleFacts.

(** ** The relation file: writing and reading back *)

Section FileFacts.

Lemma strchr_app s c rest : c ∉ s -> strchr (s ++ c :: rest) c = Some (length s).
Proof.
  induction s as [|x s IH]; intros Hc; simpl.
  - by rewrite ascii_eqb_refl.
  - apply not_elem_of_cons in Hc as [Hx Hc].
    rewrite (proj2 (ascii_eqb_false x c)) by done. by rewrite IH.
Qed.

Lemma clip_segment (s rest : list ascii) n :
  (0 < n)%nat ->
  take (if (n <=? length s)%nat then (n - 1)%nat else length s) (s ++ rest) = take (n - 1) s.
Proof.
  intros Hn. destruct (n <=? length s)%nat eqn:Hle.
  - apply Nat.leb_le in Hle. apply take_app_le. lia.
  - apply Nat.leb_gt in Hle. rewrite take_app_length.
    symmetry. apply take_ge. lia.
Qed.

Lemma drop_past (s : list ascii) c rest : drop (S (length s)) (s ++ c :: rest) = rest.
Proof. induction s as [|x s IH]; simpl; [by rewrite drop_0|done]. Qed.

Lemma length_pos_nonnil {A} (l : list A) : l <> [] -> (length l =? 0)%nat = false.
Proof. destruct l; [done|]. intros _. reflexivity. Qed.

(** What the parser makes of a line with two delimiters and three non-empty
    segments: each segment cut to 127 bytes, trimmed and squeezed. *)
Lemma parse_relation_line_segments (s l t : cstr) :
  BAR ∉ s -> BAR ∉ l -> s <> [] -> l <> [] -> t <> [] ->
  parse_relation_line (s ++ BAR :: l ++ BAR :: t) =
  Some (normalize (strncpy s (NAME_LEN - 1)), normalize (strncpy l (REL_LEN - 1)),
        normalize (strncpy t (NAME_LEN - 1))).
Proof.
  intros Hs Hl Hs0 Hl0 Ht0. unfold parse_relation_line.
  rewrite (strchr_app s BAR _ Hs), drop_past.
  rewrite (strchr_app l BAR _ Hl), drop_past.
  rewrite !length_pos_nonnil by done. cbn [orb].
  unfold strncpy, normalize.
  rewrite (clip_segment s _ NAME_LEN) by (unfold NAME_LEN; lia).
  rewrite (clip_segment l _ REL_LEN) by (unfold REL_LEN; lia).
  pose proof (clip_segment t [] NAME_LEN) as Ht. rewrite app_nil_r in Ht.
  rewrite Ht by (unfold NAME_LEN; lia). reflexivity.
Qed.

Lemma chomp_line (body rest : list ascii) :
  NUL ∉ body -> CR ∉ body -> LF ∉ body -> chomp (body ++ LF :: rest) = body.
Proof.
  induction body as [|c body IH]; intros H0 H1 H2; simpl.
  - reflexivity.
  - apply not_elem_of_cons in H0 as [? ?]. apply not_elem_of_cons in H1 as [? ?].
    apply not_elem_of_cons in H2 as [? ?].
    rewrite !(proj2 (ascii_eqb_false c _)) by done. simpl. by rewrite IH.
Qed.

Lemma fgets_take_line room (body rest : list ascii) :
  LF ∉ body -> (length body < room)%nat ->
  fgets_take room (body ++ LF :: rest) = (body ++ [LF], rest).
Proof.
  revert room. induction body as [|c body IH]; intros room Hlf Hlen.
  - destruct room; [simpl in Hlen; lia|]. reflexivity.
  - apply not_elem_of_cons in Hlf as [Hc Hlf].
    destruct room; [simpl in Hlen; lia|]. simpl.
    rewrite (proj2 (ascii_eqb_false c LF)) by done.
    rewrite IH; [done|done|simpl in Hlen; lia].
Qed.

Lemma fgets_line (body rest : list ascii) :
  LF ∉ body -> (length body < LINE_BUF - 1)%nat ->
  fgets LINE_BUF (body ++ LF :: rest) = Some (body ++ [LF], rest).
Proof.
  intros Hlf Hlen. unfold fgets.
  destruct (body ++ LF :: rest) eqn:Hb; [by destruct body|].
  rewrite <- Hb. f_equal. by apply fgets_take_line.
Qed.

(** A text made of short lines, each closed by a newline, is read line by
    line. *)
Lemma fgets_loop_lines (bodies : list (list ascii)) fuel :
  Forall (fun b => (LF ∉ b) /\ (length b < LINE_BUF - 1)%nat) bodies ->
  (length bodies <= fuel)%nat ->
  fgets_loop fuel (concat (map (fun b => b ++ [LF]) bodies)) =
  map (fun b => b ++ [LF]) bodies.
Proof.
  intros Hb. revert fuel. induction Hb as [|b bodies [Hlf Hlen] _ IH]; intros fuel Hfuel.
  - destruct fuel; reflexivity.
  - destruct fuel as [|fuel]; [simpl in Hfuel; lia|].
    cbn [map concat fgets_loop]. rewrite <- app_assoc. cbn [app].
    rewrite fgets_line by done. f_equal. apply IH. simpl in Hfuel. lia.
Qed.

Lemma fgets_all_lines (bodies : list (list ascii)) :
  Forall (fun b => (LF ∉ b) /\ (length b < LINE_BUF - 1)%nat) bodies ->
  fgets_all (concat (map (fun b => b ++ [LF]) bodies)) = map (fun b => b ++ [LF]) bodies.
Proof.
  intros Hb. unfold fgets_all. apply fgets_loop_lines; [done|].
  clear Hb. induction bodies as [|b bodies IH]; simpl; [lia|].
  rewrite !length_app. simpl. lia.
Qed.

(** More rounds than the file has bytes change nothing: the loop has ended. *)
Lemma fgets_take_length room s :
  (0 < room)%nat -> s <> [] ->
  (length (fgets_take room s).2 < length s)%nat.
Proof.
  revert room. induction s as [|c s IH]; intros room Hroom Hs; [done|].
  destruct room as [|room]; [lia|]. simpl.
  destruct (ascii_eqb c LF); [simpl; lia|].
  destruct room as [|room].
  - destruct s; simpl; lia.
  - destruct s as [|c' s]; [simpl; lia|].
    specialize (IH (S room) ltac:(lia) ltac:(done)).
    destruct (fgets_take (S room) (c' :: s)) as [a b]. simpl in *. lia.
Qed.

Lemma fgets_loop_enough fuel fp :
  (length fp <= fuel)%nat -> fgets_loop fuel fp = fgets_loop (length fp) fp.
Proof.
  remember (length fp) as n eqn:Hn.
  revert fp fuel Hn. induction n as [n IH] using lt_wf_ind. intros fp fuel Hn Hlen.
  destruct fp as [|c fp].
  - subst n. destruct fuel; reflexivity.
  - destruct fuel as [|fuel]; [simpl in *; lia|].
    subst n. cbn [length fgets_loop]. unfold fgets.
    pose proof (fgets_take_length (LINE_BUF - 1) (c :: fp)
                  ltac:(unfold LINE_BUF; lia) ltac:(done)) as Hlt.
    destruct (fgets_take (LINE_BUF - 1) (c :: fp)) as [buf rest]. cbn [snd length] in Hlt.
    f_equal.
    rewrite (IH (length rest) ltac:(simpl; lia) rest fuel eq_refl) by (simpl in Hlen; lia).
    symmetry. apply (IH (length rest)); [simpl; lia|done|lia].
Qed.

End FileFacts.

(** ** Round trip *)

Section RoundTrip.

Lemma token_ok_no_break x c : token_ok x -> isspace c = true -> c <> SP -> c ∉ x.
Proof.
  intros (_ & Hn & _) Hsp Hne Hin. apply Hne. by apply (normalized_space x).
Qed.

Lemma relation_line_body s l t :
  relation_line s l t = (s ++ BAR :: l ++ BAR :: t) ++ [LF].
Proof. unfold relation_line. rewrite <- !app_assoc. simpl. by rewrite <- !app_assoc. Qed.

Lemma save_to_file_triples g :
  save_to_file g =
  concat (map (fun x => relation_line x.1.1 x.1.2 x.2) (triples g)).
Proof.
  unfold save_to_file, triples. induction (all_entities g) as [|e es IH]; [done|].
  cbn [map concat]. rewrite map_app, concat_app, IH. f_equal.
  unfold entity_lines, entity_triples. destruct (heap g !! e) as [E|]; [|done].
  by rewrite map_map.
Qed.

Lemma load_step_line st s l t :
  triple_ok (s, l, t) ->
  load_step st (relation_line s l t) =
  {| ld_graph := add_relationship s l t (ld_graph st);
     ld_count := ld_count st + 1; ld_bad := ld_bad st;
     ld_lineNo := ld_lineNo st + 1; ld_skipped := ld_skipped st |}.
Proof.
  intros (Hs & Hl & Ht & Hhash). cbn [fst snd] in *.
  pose proof Hs as (Hs0 & Hsn & Hsl & Hsb & Hsz).
  pose proof Hl as (Hl0 & Hln & Hll & Hlb & Hlz).
  pose proof Ht as (Ht0 & Htn & Htl & Htb & Htz).
  set (body := s ++ BAR :: l ++ BAR :: t).
  assert (Hnotin : forall c, c ∉ s -> c ∉ l -> c ∉ t -> c <> BAR -> c ∉ body).
  { intros c H1 H2 H3 H4. subst body.
    rewrite elem_of_app, elem_of_cons, elem_of_app, elem_of_cons. naive_solver. }
  assert (Hchomp : chomp (relation_line s l t) = body).
  { rewrite relation_line_body. apply chomp_line.
    - by apply Hnotin.
    - apply Hnotin; [by apply token_ok_no_break ..|done].
    - apply Hnotin; [by apply token_ok_no_break ..|done]. }
  destruct s as [|c s']; [done|].
  assert (Hc : isspace c = false) by exact (normalized_head _ _ _ Hsn eq_refl).
  assert (Htrim : trim body = body).
  { apply (trim_id body c); [done|done|].
    intros d Hd. apply (normalized_last t d Htn).
    subst body. rewrite app_comm_cons, last_app in Hd.
    rewrite last_cons, last_app, last_cons in Hd.
    destruct (last t) as [d'|] eqn:Hlt; [done|].
    apply last_None in Hlt. done. }
  unfold load_step. rewrite Hchomp, Htrim.
  change body with (c :: (s' ++ BAR :: l ++ BAR :: t)) at 1.
  cbn iota.
  assert (ascii_eqb c HASHMARK = false) as ->.
  { apply ascii_eqb_false. intros ->. by apply Hhash. }
  subst body.
  rewrite (parse_relation_line_segments (c :: s') l t) by done.
  change (REL_LEN - 1)%nat with (NAME_LEN - 1)%nat.
  rewrite !short_strncpy by done. by rewrite Hsn, Hln, Htn.
Qed.

Lemma load_fold st (ts : list (cstr * cstr * cstr)) :
  Forall triple_ok ts ->
  foldl load_step st (map (fun x => relation_line x.1.1 x.1.2 x.2) ts) =
  {| ld_graph := foldl (fun g x => add_relationship x.1.1 x.1.2 x.2 g) (ld_graph st) ts;
     ld_count := ld_count st + Z.of_nat (length ts); ld_bad := ld_bad st;
     ld_lineNo := ld_lineNo st + Z.of_nat (length ts); ld_skipped := ld_skipped st |}.
Proof.
  intros Hts. revert st. induction Hts as [|[[s l] t] ts Hx _ IH]; intros st.
  - simpl. rewrite !Z.add_0_r. by destruct st.
  - cbn [map foldl fst snd]. rewrite (load_step_line st s l t Hx), IH.
    cbn [ld_graph ld_count ld_bad ld_lineNo ld_skipped length].
    f_equal; lia.
Qed.

Lemma triples_fold g (ts : list (cstr * cstr * cstr)) x :
  wf g -> Forall triple_ok ts ->
  x ∈ triples (foldl (fun g x => add_relationship x.1.1 x.1.2 x.2 g) g ts) <->
  x ∈ ts \/ x ∈ triples g.
Proof.
  intros Hwf Hts. revert g Hwf. induction Hts as [|[[s l] t] ts Hx _ IH]; intros g Hwf.
  - simpl. rewrite elem_of_nil. naive_solver.
  - cbn [foldl fst snd]. rewrite IH by (by apply wf_add_relationship).
    destruct Hx as ((_ & _ & Hsl & _) & (_ & _ & Hll & _) & (_ & _ & Htl & _) & _).
    cbn [fst snd] in *.
    rewrite (triples_add_relationship s l t g x Hwf Hsl Htl).
    change (REL_LEN - 1)%nat with (NAME_LEN - 1)%nat.
    rewrite (short_strncpy l Hll). rewrite elem_of_cons. naive_solver.
Qed.

Lemma relation_line_ok s l t :
  triple_ok (s, l, t) ->
  (LF ∉ s ++ BAR :: l ++ BAR :: t) /\
  (length (s ++ BAR :: l ++ BAR :: t) < LINE_BUF - 1)%nat.
Proof.
  intros (Hs & Hl & Ht & _). cbn [fst snd] in *. split.
  - rewrite elem_of_app, elem_of_cons, elem_of_app, elem_of_cons.
    pose proof (token_ok_no_break s LF Hs eq_refl ltac:(done)).
    pose proof (token_ok_no_break l LF Hl eq_refl ltac:(done)).
    pose proof (token_ok_no_break t LF Ht eq_refl ltac:(done)).
    naive_solver.
  - destruct Hs as (_ & _ & ? & _), Hl as (_ & _ & ? & _), Ht as (_ & _ & ? & _).
    rewrite length_app. cbn [length]. rewrite length_app. cbn [length].
    unfold NAME_LEN, LINE_BUF in *. lia.
Qed.

End RoundTrip.

(** C6, with what the format needs: when every name and label of the graph
    is a token as above, and no source name begins with the comment mark [#],
    the text written by [save_to_file] is read back by [load_from_file] into
    the empty table without a skipped line, and the triples of the new graph
    are those of the old one. *)
Theorem save_load_roundtrip (g : Graph) :
  Forall triple_ok (triples g) ->
  let '(report, g') := load_from_file (Some (save_to_file g)) empty_graph in
  report = Loaded (Z.of_nat (length (triples g))) 0 [] /\
  forall x, x ∈ triples g' <-> x ∈ triples g.
Proof.
  intros Hok. unfold load_from_file.
  rewrite save_to_file_triples.
  set (line := fun x : cstr * cstr * cstr => relation_line x.1.1 x.1.2 x.2).
  set (body := fun x : cstr * cstr * cstr => x.1.1 ++ BAR :: x.1.2 ++ BAR :: x.2).
  assert (Hmap : map line (triples g) = map (fun b => b ++ [LF]) (map body (triples g))).
  { rewrite map_map. apply map_ext. intros [[s l] t]. apply relation_line_body. }
  rewrite Hmap, fgets_all_lines.
  2:{ apply Forall_forall. intros b (x & <- & Hx%list_elem_of_In)%list_elem_of_In%in_map_iff.
      destruct x as [[s l] t]. apply relation_line_ok.
      by apply (proj1 (Forall_forall _ _) Hok). }
  rewrite <- Hmap. subst line. rewrite (load_fold _ _ Hok).
  cbn [ld_graph ld_count ld_bad ld_skipped]. split; [f_equal; lia|].
  intros x. rewrite (triples_fold empty_graph _ x wf_empty Hok).
  rewrite triples_empty, elem_of_nil. naive_solver.
Qed.

Lemma triples_ok_abc_graph : Forall triple_ok (triples abc_graph).
Proof.
  apply (bool_decide_unpack _). vm_compute. reflexivity.
Qed.

(** The theorem on the graph of Alice, Bob and Carol. *)
Lemma save_load_roundtrip_witness :
  Forall triple_ok (triples abc_graph) /\
  let '(report, g') := load_from_file (Some (save_to_file abc_graph)) empty_graph in
  report = Loaded (Z.of_nat (length (triples abc_graph))) 0 [] /\
  forall x, x ∈ triples g' <-> x ∈ triples abc_graph.
Proof.
  split; [exact triples_ok_abc_graph|].
  exact (save_load_roundtrip abc_graph triples_ok_abc_graph).
Defined.

(** C6 as stated fails on a source name that begins with [#]: no name or
    label holds the delimiter, the line written is [#a|r|b], and the import
    takes it for a comment. *)
Lemma save_load_comment_mark :
  reachable comment_mark_graph /\
  triples comment_mark_graph = [(lit "#a", lit "r", lit "b")] /\
  (BAR ∉ lit "#a") /\ (BAR ∉ lit "r") /\ (BAR ∉ lit "b") /\
  save_to_file comment_mark_graph = lit "#a|r|b" ++ [LF] /\
  let '(report, g') := load_from_file (Some (save_to_file comment_mark_graph)) empty_graph in
  report = Loaded 0 0 [] /\ triples g' = [] /\
  ~ (forall x, x ∈ triples g' <-> x ∈ triples comment_mark_graph).
Proof.
  split; [apply reach_add_relationship, reach_start|].
  split; [vm_compute; reflexivity|].
  split; [apply (bool_decide_unpack _); vm_compute; reflexivity|].
  split; [apply (bool_decide_unpack _); vm_compute; reflexivity|].
  split; [apply (bool_decide_unpack _); vm_compute; reflexivity|].
  split; [vm_compute; reflexivity|].
  vm_compute. split; [reflexivity|]. split; [reflexivity|].
  intros H. specialize (H (lit "#a", lit "r", lit "b")).
  destruct H as [_ H]. specialize (H ltac:(left)). by apply elem_of_nil in H.
Qed.

(** The graph imported from the line [a| |b] (see C5) does not survive the
    round trip either: its empty label is written as [a||b], which the import
    rejects. *)
Lemma save_load_empty_label :
  let g := snd (load_from_file (Some (lit "a| |b" ++ [LF])) empty_graph) in
  triples g = [(lit "a", [], lit "b")] /\
  save_to_file g = lit "a||b" ++ [LF] /\
  let '(report, g') := load_from_file (Some (save_to_file g)) empty_graph in
  report = Loaded 0 1 [(1, lit "a||b")] /\ triples g' = [].
Proof. vm_compute. repeat split; reflexivity. Qed.

(** ** Breadth-first search: termination *)

Section BfsTermination.

Lemma unvisited_le h : (unvisited h <= length h)%nat.
Proof. unfold unvisited. apply length_filter. Qed.

Lemma unvisited_cons E h :
  unvisited (E :: h) = ((if decide (visited E = 0%Z) then 1 else 0) + unvisited h)%nat.
Proof. unfold unvisited. rewrite filter_cons. by destruct (decide _). Qed.

Lemma unvisited_insert h n E E' :
  h !! n = Some E -> visited E = 0 -> visited E' <> 0 ->
  (unvisited (<[n := E']> h) + 1 = unvisited h)%nat.
Proof.
  revert n. induction h as [|E0 h IH]; intros n HE Hv Hv'; [done|].
  destruct n as [|n]; simpl in *.
  - simplify_eq. rewrite !unvisited_cons.
    destruct (decide (visited E' = 0)); [done|].
    destruct (decide (visited E = 0)); [lia|done].
  - rewrite !unvisited_cons. specialize (IH n HE Hv Hv'). lia.
Qed.

Lemma unvisited_lt h n E :
  h !! n = Some E -> visited E <> 0 -> (unvisited h < length h)%nat.
Proof.
  revert n. induction h as [|E0 h IH]; intros n HE Hv; [done|].
  rewrite unvisited_cons. destruct n as [|n]; simpl in *.
  - simplify_eq. destruct (decide (visited E = 0)); [done|].
    pose proof (unvisited_le h). simpl. lia.
  - specialize (IH n HE Hv). destruct (decide _); simpl; lia.
Qed.

Lemma bfs_scan_measure cur rs h Q cap h' Q' :
  bfs_scan cur rs h Q cap = inr (h', Q') ->
  (unvisited h' + length Q' = unvisited h + length Q)%nat /\ (length Q <= length Q')%nat.
Proof.
  revert h Q. induction rs as [|r rs IH]; intros h Q; simpl.
  - intros [= <- <-]. lia.
  - destruct (h !! target r) as [E|] eqn:HE; [|done].
    destruct (visited E =? 0) eqn:Hv; [|apply IH].
    destruct (cap <=? length Q)%nat; [done|].
    intros H. apply IH in H as [H1 H2]. rewrite length_app in *. simpl in *.
    apply Z.eqb_eq in Hv.
    pose proof (unvisited_insert h (target r) E (mark_reached cur E) HE Hv
                  ltac:(simpl; lia)). lia.
Qed.

Lemma bfs_scan_no_fuel cur rs h Q cap : bfs_scan cur rs h Q cap <> inl FuelExhausted.
Proof.
  revert h Q. induction rs as [|r rs IH]; intros h Q; simpl; [done|].
  destruct (h !! target r) as [E|]; [|done].
  destruct (visited E =? 0); [|apply IH].
  destruct (cap <=? length Q)%nat; [done|apply IH].
Qed.

Lemma bfs_loop_fuel fuel tgt h Q head cap :
  (head <= length Q)%nat ->
  (unvisited h + (length Q - head) < fuel)%nat ->
  (bfs_loop fuel tgt h Q head cap).1 <> BfsFault FuelExhausted.
Proof.
  revert h Q head cap. induction fuel as [|k IH]; intros h Q head cap Hhead Hm; [lia|].
  simpl. destruct (Q !! head) as [cur|] eqn:Hcur; [|done].
  apply lookup_lt_Some in Hcur.
  destruct (cur =? tgt)%nat; [done|].
  destruct (h !! cur) as [E|]; [|done].
  destruct (bfs_scan _ _ _ _ _) as [f|[h' Q']] eqn:Hs.
  - simpl. intros [= ->]. by apply bfs_scan_no_fuel in Hs.
  - apply bfs_scan_measure in Hs as [H1 H2]. apply IH; lia.
Qed.

Lemma walk_prev_no_fuel room h p : walk_prev room h p <> inl FuelExhausted.
Proof.
  revert p. induction room as [|k IH]; intros [q|]; simpl; try done.
  destruct (h !! q) as [E|]; [|done].
  specialize (IH (prev E)). destruct (walk_prev k h (prev E)); [congruence|done].
Qed.

(** The rounds given to the loop are enough: the traversal always ends by
    itself. *)
Lemma bfs_run_fuel src tgt g : (bfs_run src tgt g).1 <> BfsFault FuelExhausted.
Proof.
  unfold bfs_run.
  set (h1 := alter mark_visited src (heap (reset_bfs_marks g))).
  destruct (h1 !! src) as [E|] eqn:HE.
  - apply bfs_loop_fuel; [simpl; lia|]. simpl.
    assert (visited E <> 0).
    { subst h1. rewrite list_lookup_alter_eq in HE.
      destruct (heap (reset_bfs_marks g) !! src); simpl in HE; [|done].
      by simplify_eq. }
    pose proof (unvisited_lt h1 src E HE). lia.
  - simpl. destruct (src =? tgt)%nat; [done|]. by rewrite HE.
Qed.

(** X23: the traversal of [find_path_bfs] ends: every entity enters the queue
    at most once, so the rounds the loop is given, one per allocated entity
    and one more, are never used up, whatever the graph and the inputs. *)
Lemma find_path_bfs_no_fuel_fault s t fz g con :
  (find_path_bfs s t fz g con).1.1 <> Undefined FuelExhausted.
Proof.
  unfold find_path_bfs.
  destruct (resolve fz s g con) as [[src|] con1];
    destruct (resolve fz t g con1) as [[tgt|] con2]; cbn [fst snd]; try done.
  unfold bfs_from. pose proof (bfs_run_fuel src tgt g) as Hf.
  destruct (bfs_run src tgt g) as [[| |f] h2]; cbn [fst snd] in *.
  - pose proof (walk_prev_no_fuel PATH_STACK h2 (Some tgt)) as Hw.
    destruct (walk_prev PATH_STACK h2 (Some tgt)); cbn [fst snd]; congruence.
  - done.
  - congruence.
Qed.

End BfsTermination.

(** ** Breadth-first search: shortest paths *)

Section BfsCorrect.

Context (src tgt : ptr).

Lemma succ_shape h h' a b :
  clear_marks <$> h = clear_marks <$> h' -> succ h a b -> succ h' a b.
Proof.
  intros Hs (E & r & HE & Hr & Ht).
  apply (f_equal (fun l => l !! a)) in Hs. rewrite !list_lookup_fmap, HE in Hs.
  destruct (h' !! a) as [E'|] eqn:HE'; simpl in Hs; [|done].
  exists E', r. split; [done|]. split; [|done].
  injection Hs as Hs. unfold clear_marks in Hs.
  destruct E, E'. simpl in *. by simplify_eq.
Qed.

Lemma hops_shape h h' a b n :
  clear_marks <$> h = clear_marks <$> h' -> hops h a b n -> hops h' a b n.
Proof.
  intros Hs. induction 1 as [|b c n _ IH Hsucc]; [constructor|].
  eapply hops_S; [done|]. by eapply succ_shape.
Qed.

Lemma linked_shape h h' p :
  clear_marks <$> h = clear_marks <$> h' -> linked h p -> linked h' p.
Proof. intros Hs Hl i a b Ha Hb. eapply succ_shape; [done|]. by eapply Hl. Qed.

Lemma linked_hops h p a b n :
  linked h p -> p !! 0%nat = Some a -> p !! n = Some b -> hops h a b n.
Proof.
  intros Hl Ha. revert b. induction n as [|n IH]; intros b Hb.
  - rewrite Ha in Hb. simplify_eq. constructor.
  - destruct (p !! n) as [c|] eqn:Hc.
    + eapply hops_S; [by apply IH|]. by eapply Hl.
    + apply lookup_ge_None in Hc. apply lookup_lt_Some in Hb. lia.
Qed.

(** Every entity within reach is in the queue at no greater depth, as long
    as the entities before it on the way were taken from the queue. *)
Lemma bfs_inv_closure h Q D head a n :
  bfs_inv src tgt h Q D head ->
  hops h src a n ->
  (head = length Q \/ exists d, D !! head = Some d /\ (n < d)%nat) ->
  exists k dk, Q !! k = Some a /\ D !! k = Some dk /\ (dk <= n)%nat.
Proof.
  intros Hinv Hh. induction Hh as [|b c n Hh IH Hsucc]; intros Hlim.
  - exists 0%nat, 0%nat. destruct (inv_src _ _ _ _ _ _ Hinv) as (? & ? & _). done.
  - destruct IH as (k & dk & Hk & Hdk & Hle).
    { destruct Hlim as [?|(d & ? & ?)]; [by left|right; exists d; split; [done|lia]]. }
    assert (Hkh : (k < head)%nat).
    { destruct Hlim as [->|(d & Hd & Hlt)]; [by eapply lookup_lt_Some|].
      destruct (decide (k < head)%nat); [done|].
      pose proof (inv_sorted _ _ _ _ _ _ Hinv head k d dk ltac:(lia) Hd Hdk). lia. }
    destruct (inv_done _ _ _ _ _ _ Hinv k b Hkh Hk) as [_ Hall].
    destruct (Hall c Hsucc) as (k' & dk' & di & Hk' & Hdk' & Hdi & Hle').
    exists k', dk'. rewrite Hdk in Hdi. simplify_eq. split; [done|]. split; [done|lia].
Qed.

Lemma bfs_inv_found_shortest h Q D head d n :
  bfs_inv src tgt h Q D head ->
  Q !! head = Some tgt -> D !! head = Some d ->
  hops h src tgt n -> (d <= n)%nat.
Proof.
  intros Hinv Hq Hd Hh. destruct (decide (d <= n)%nat) as [|Hgt]; [done|]. exfalso.
  destruct (bfs_inv_closure h Q D head tgt n Hinv Hh) as (k & dk & Hk & Hdk & Hle).
  { right. exists d. split; [done|lia]. }
  pose proof (NoDup_lookup Q k head tgt (inv_nodup _ _ _ _ _ _ Hinv) Hk Hq) as ->.
  rewrite Hd in Hdk. simplify_eq. lia.
Qed.

Lemma bfs_inv_exhausted_unreachable h Q D n :
  bfs_inv src tgt h Q D (length Q) -> ~ hops h src tgt n.
Proof.
  intros Hinv Hh.
  destruct (bfs_inv_closure h Q D (length Q) tgt n Hinv Hh) as (k & dk & Hk & _);
    [by left|].
  pose proof (lookup_lt_Some _ _ _ Hk) as Hlt.
  by destruct (inv_done _ _ _ _ _ _ Hinv k tgt Hlt Hk) as [? _].
Qed.

Lemma bfs_inv_enqueue h Q D head cur dh n E :
  bfs_inv src tgt h Q D head ->
  Q !! head = Some cur -> D !! head = Some dh ->
  h !! n = Some E -> visited E = 0 -> succ h cur n ->
  bfs_inv src tgt (<[n := mark_reached cur E]> h) (Q ++ [n]) (D ++ [S dh]) head.
Proof.
  intros Hinv Hcur Hdh HE Hv Hsucc.
  pose proof (inv_len _ _ _ _ _ _ Hinv) as Hlen.
  pose proof (lookup_lt_Some _ _ _ Hcur) as Hhead.
  assert (Hshape : clear_marks <$> h = clear_marks <$> <[n := mark_reached cur E]> h).
  { symmetry. by eapply shape_insert. }
  assert (HnQ : n ∉ Q).
  { intros (E' & HE' & Hv')%(inv_vis _ _ _ _ _ _ Hinv). congruence. }
  assert (Hold : forall e, e ∈ Q -> <[n := mark_reached cur E]> h !! e = h !! e).
  { intros e He. apply list_lookup_insert_ne. by intros ->. }
  split.
  - rewrite !length_app. simpl. lia.
  - rewrite length_app. lia.
  - destruct (inv_src _ _ _ _ _ _ Hinv) as (Hq0 & Hd0 & E0 & HE0 & Hp0).
    split; [by apply lookup_app_l_Some|]. split; [by apply lookup_app_l_Some|].
    exists E0. split; [|done]. rewrite Hold; [done|]. by eapply list_elem_of_lookup_2.
  - intros e. rewrite elem_of_app, list_elem_of_singleton. split.
    + intros [He| ->].
      * rewrite (Hold e He). by apply (inv_vis _ _ _ _ _ _ Hinv).
      * exists (mark_reached cur E). split; [|simpl; lia].
        apply list_lookup_insert_eq. by eapply lookup_lt_Some.
    + intros (E' & HE' & Hv'). destruct (decide (e = n)) as [|Hne]; [by right|left].
      rewrite list_lookup_insert_ne in HE' by done.
      apply (inv_vis _ _ _ _ _ _ Hinv). by exists E'.
  - apply NoDup_app. split; [apply (inv_nodup _ _ _ _ _ _ Hinv)|]. split.
    + intros x Hx ->%list_elem_of_singleton. done.
    + apply NoDup_singleton.
  - intros i e Hi [Hq|[Hq Hn]]%lookup_app_Some.
    + destruct (inv_par _ _ _ _ _ _ Hinv i e Hi Hq) as (E0 & p & j & d & H1 & H2 & H3 & H4 & H5 & H6).
      exists E0, p, j, d. rewrite Hold by (by eapply list_elem_of_lookup_2).
      repeat split; try done; try (by apply lookup_app_l_Some).
      by eapply succ_shape.
    + apply list_lookup_singleton_Some in Hn as [Hi0 <-].
      exists (mark_reached cur E), cur, head, dh.
      split; [apply list_lookup_insert_eq; by eapply lookup_lt_Some|].
      split; [done|]. split; [by apply lookup_app_l_Some|].
      split; [by eapply succ_shape|]. split; [by apply lookup_app_l_Some|].
      replace i with (length D) by lia. by rewrite lookup_app_r, Nat.sub_diag.
  - intros i j di dj Hij [Hi|[Hi Hi']]%lookup_app_Some [Hj|[Hj Hj']]%lookup_app_Some.
    + by eapply (inv_sorted _ _ _ _ _ _ Hinv).
    + apply list_lookup_singleton_Some in Hj' as [_ <-].
      by eapply (inv_bound _ _ _ _ _ _ Hinv).
    + apply lookup_lt_Some in Hj. lia.
    + apply list_lookup_singleton_Some in Hi' as [_ <-].
      apply list_lookup_singleton_Some in Hj' as [_ <-]. lia.
  - intros dh' i di Hh [Hi|[Hi Hi']]%lookup_app_Some.
    + rewrite lookup_app_l in Hh by lia. by eapply (inv_bound _ _ _ _ _ _ Hinv).
    + rewrite lookup_app_l in Hh by lia.
      apply list_lookup_singleton_Some in Hi' as [_ <-]. rewrite Hdh in Hh. simplify_eq. lia.
  - intros i e Hi Hq. rewrite lookup_app_l in Hq by lia.
    destruct (inv_done _ _ _ _ _ _ Hinv i e Hi Hq) as [Hne Hall]. split; [done|].
    intros b Hb. symmetry in Hshape.
    destruct (Hall b (succ_shape _ _ _ _ Hshape Hb)) as (k & dk & di & ? & ? & ? & ?).
    exists k, dk, di. repeat split; try done; by apply lookup_app_l_Some.
Qed.

Lemma bfs_inv_advance h Q D head cur :
  bfs_inv src tgt h Q D head ->
  Q !! head = Some cur -> cur <> tgt ->
  (forall b, succ h cur b ->
     exists k dk dh, Q !! k = Some b /\ D !! k = Some dk /\ D !! head = Some dh /\
                     (dk <= S dh)%nat) ->
  bfs_inv src tgt h Q D (S head).
Proof.
  intros Hinv Hcur Hne Hall.
  pose proof (lookup_lt_Some _ _ _ Hcur) as Hhead.
  destruct Hinv as [H1 H2 H3 H4 H5 H6 H7 H8 H9].
  split; [done|lia|done|done|done|done|done| | ].
  - intros dh' i di Hh Hi.
    destruct (D !! head) as [dh|] eqn:Hdh; [|apply lookup_ge_None in Hdh; lia].
    pose proof (H7 head (S head) dh dh' ltac:(lia) Hdh Hh).
    pose proof (H8 dh i di eq_refl Hi). lia.
  - intros i e Hi Hq. destruct (decide (i = head)) as [->|].
    + rewrite Hcur in Hq. simplify_eq. split; [done|].
      intros b Hb. destruct (Hall b Hb) as (k & dk & dh & ? & ? & ? & ?).
      by exists k, dk, dh.
    + apply H9; [lia|done].
Qed.

Lemma bfs_scan_inv cap head cur rs :
  forall h Q D h' Q',
  bfs_inv src tgt h Q D head -> Q !! head = Some cur ->
  (forall r, r ∈ rs -> succ h cur (target r)) ->
  bfs_scan cur rs h Q cap = inr (h', Q') ->
  exists D', bfs_inv src tgt h' Q' D' head /\ Q' !! head = Some cur /\
    (forall k b, Q !! k = Some b -> Q' !! k = Some b) /\
    (forall k d, D !! k = Some d -> D' !! k = Some d) /\
    (forall r, r ∈ rs ->
       exists k dk dh, Q' !! k = Some (target r) /\ D' !! k = Some dk /\
                       D' !! head = Some dh /\ (dk <= S dh)%nat).
Proof.
  induction rs as [|r rs IH]; intros h Q D h' Q' Hinv Hcur Hrs Hscan.
  - simpl in Hscan. simplify_eq. exists D.
    split; [done|]. split; [done|]. split; [done|]. split; [done|].
    by intros r ?%elem_of_nil.
  - simpl in Hscan.
    pose proof (lookup_lt_Some _ _ _ Hcur) as Hhead.
    destruct (D !! head) as [dh|] eqn:Hdh.
    2:{ apply lookup_ge_None in Hdh. rewrite (inv_len _ _ _ _ _ _ Hinv) in Hdh. lia. }
    destruct (h !! target r) as [E|] eqn:HE; [|done].
    destruct (visited E =? 0) eqn:Hv.
    + apply Z.eqb_eq in Hv.
      destruct (cap <=? length Q)%nat; [done|].
      assert (Hsucc : succ h cur (target r)) by (apply Hrs; by left).
      pose proof (bfs_inv_enqueue h Q D head cur dh (target r) E Hinv Hcur Hdh HE Hv Hsucc) as Hinv1.
      assert (Hshape : clear_marks <$> h = clear_marks <$> <[target r := mark_reached cur E]> h).
      { symmetry. by eapply shape_insert. }
      destruct (IH _ _ _ _ _ Hinv1 (lookup_app_l_Some _ _ _ _ Hcur)
                  ltac:(intros r' Hr'; eapply succ_shape; [done|]; apply Hrs; by right) Hscan)
        as (D' & Hinv' & Hcur' & HQ & HD & Hdone).
      exists D'. split; [done|]. split; [done|].
      split; [intros k b Hk; by apply HQ, lookup_app_l_Some|].
      split; [intros k d Hk; by apply HD, lookup_app_l_Some|].
      intros r' [->|Hr']%elem_of_cons; [|by apply Hdone].
      exists (length Q), (S dh), dh. split.
      * apply HQ. by rewrite lookup_app_r, Nat.sub_diag.
      * split; [|split; [apply HD; by apply lookup_app_l_Some|lia]].
        apply HD. rewrite <- (inv_len _ _ _ _ _ _ Hinv).
        by rewrite lookup_app_r, Nat.sub_diag.
    + apply Z.eqb_neq in Hv.
      destruct (IH _ _ _ _ _ Hinv Hcur ltac:(intros r' Hr'; apply Hrs; by right) Hscan)
        as (D' & Hinv' & Hcur' & HQ & HD & Hdone).
      exists D'. split; [done|]. split; [done|]. split; [done|]. split; [done|].
      intros r' [->|Hr']%elem_of_cons; [|by apply Hdone].
      assert (Hin : target r ∈ Q) by (apply (inv_vis _ _ _ _ _ _ Hinv); by exists E).
      apply list_elem_of_lookup in Hin as [k Hk].
      destruct (D !! k) as [dk|] eqn:Hdk.
      2:{ apply lookup_ge_None in Hdk. apply lookup_lt_Some in Hk.
          rewrite (inv_len _ _ _ _ _ _ Hinv) in Hdk. lia. }
      exists k, dk, dh. split; [by apply HQ|]. split; [by apply HD|].
      split; [by apply HD|]. by eapply (inv_bound _ _ _ _ _ _ Hinv).
Qed.

Lemma bfs_scan_no_dangling cur rs h Q cap :
  (forall r, r ∈ rs -> (target r < length h)%nat) ->
  bfs_scan cur rs h Q cap <> inl DanglingPointer.
Proof.
  revert h Q. induction rs as [|r rs IH]; intros h Q Hv; simpl; [done|].
  destruct (h !! target r) as [E|] eqn:HE.
  - destruct (visited E =? 0).
    + destruct (cap <=? length Q)%nat; [done|]. apply IH.
      intros r' Hr'. rewrite length_insert. apply Hv. by right.
    + apply IH. intros r' Hr'. apply Hv. by right.
  - apply lookup_ge_None in HE. specialize (Hv r ltac:(left)). lia.
Qed.

(** What holds when the loop ends. *)
Lemma bfs_loop_inv fuel :
  forall h Q D head cap,
  bfs_inv src tgt h Q D head ->
  (forall a b, succ h a b -> (b < length h)%nat) ->
  match (bfs_loop fuel tgt h Q head cap).1 with
  | BfsFound =>
      exists Q' D' head' d,
        bfs_inv src tgt (bfs_loop fuel tgt h Q head cap).2 Q' D' head' /\
        Q' !! head' = Some tgt /\ D' !! head' = Some d
  | BfsExhausted =>
      exists Q' D', bfs_inv src tgt (bfs_loop fuel tgt h Q head cap).2 Q' D' (length Q')
  | BfsFault f => f <> DanglingPointer
  end.
Proof.
  induction fuel as [|fuel IH]; intros h Q D head cap Hinv Hvalid; [done|].
  simpl. destruct (Q !! head) as [cur|] eqn:Hcur.
  2:{ simpl. exists Q, D. apply lookup_ge_None in Hcur.
      pose proof (inv_head _ _ _ _ _ _ Hinv).
      by replace (length Q) with head by lia. }
  destruct (cur =? tgt)%nat eqn:Htgt.
  { apply Nat.eqb_eq in Htgt as ->. simpl.
    destruct (D !! head) as [d|] eqn:Hd.
    - by exists Q, D, head, d.
    - apply lookup_ge_None in Hd. apply lookup_lt_Some in Hcur.
      rewrite (inv_len _ _ _ _ _ _ Hinv) in Hd. lia. }
  apply Nat.eqb_neq in Htgt.
  destruct (h !! cur) as [E|] eqn:HE.
  2:{ exfalso. assert (Hin : cur ∈ Q) by (by eapply list_elem_of_lookup_2).
      apply (inv_vis _ _ _ _ _ _ Hinv) in Hin as (E & HE' & _). congruence. }
  destruct (bfs_scan cur (relations E) h Q _) as [f|[h' Q']] eqn:Hscan.
  - simpl. intros ->. revert Hscan. apply bfs_scan_no_dangling.
    intros r Hr. apply (Hvalid cur). by exists E, r.
  - destruct (bfs_scan_inv _ head cur (relations E) h Q D h' Q' Hinv Hcur
                ltac:(intros r Hr; by exists E, r) Hscan)
      as (D' & Hinv' & Hcur' & HQ & HD & Hdone).
    pose proof (bfs_scan_shape _ _ _ _ _ _ _ Hscan) as Hshape.
    apply (IH h' Q' D' (S head)).
    + apply (bfs_inv_advance h' Q' D' head cur Hinv' Hcur' Htgt).
      intros b Hb.
      destruct (succ_shape _ _ _ _ Hshape Hb) as (E0 & r & HE0 & Hr & <-).
      rewrite HE in HE0. simplify_eq. by apply Hdone.
    + intros a b Hab.
      apply (succ_shape _ _ _ _ Hshape) in Hab.
      apply (f_equal length) in Hshape. rewrite !length_fmap in Hshape.
      rewrite Hshape. by eapply Hvalid.
Qed.

(** Walking the predecessors from an entry of depth [d] collects [d + 1]
    entities, ending at the source, each the target of a relation of the
    next; or it runs out of the stack. *)
Lemma walk_prev_inv h Q D head room :
  bfs_inv src tgt h Q D head ->
  forall i e d, Q !! i = Some e -> D !! i = Some d ->
  match walk_prev room h (Some e) with
  | inr st => length st = S d /\ st !! 0%nat = Some e /\ last st = Some src /\
              forall k a b, st !! k = Some a -> st !! S k = Some b -> succ h b a
  | inl f => f = StackOverflow
  end.
Proof.
  intros Hinv. induction room as [|room IH]; intros i e d Hq Hd; [done|].
  cbn [walk_prev].
  assert (Hin : e ∈ Q) by (by eapply list_elem_of_lookup_2).
  apply (inv_vis _ _ _ _ _ _ Hinv) in Hin as (E & HE & _). rewrite HE.
  destruct (inv_src _ _ _ _ _ _ Hinv) as (Hq0 & Hd0 & E0 & HE0 & Hp0).
  destruct (decide (i = 0)%nat) as [->|Hi].
  - rewrite Hq0 in Hq. rewrite Hd0 in Hd. simplify_eq. rewrite Hp0.
    destruct room; simpl; repeat split; try done.
  - destruct (inv_par _ _ _ _ _ _ Hinv i e ltac:(lia) Hq)
      as (E' & p & j & d' & HE' & Hp & Hj & Hsucc & Hdj & Hdi).
    simplify_eq. rewrite Hp.
    specialize (IH j p d' Hj Hdj).
    destruct (walk_prev room h (Some p)) as [f|st]; [done|].
    destruct IH as (Hlen & Hst0 & Hlast & Hlink).
    split; [simpl; lia|]. split; [done|]. split.
    + rewrite last_cons, Hlast. done.
    + intros k a b Ha Hb. destruct k as [|k]; simpl in *.
      * simplify_eq. done.
      * by eapply Hlink.
Qed.

Lemma bfs_inv_init g :
  indexed g -> (src < length (heap g))%nat ->
  bfs_inv src tgt (alter mark_visited src (heap (reset_bfs_marks g))) [src] [0%nat] 0.
Proof.
  intros Hix Hsrc. rewrite (reset_bfs_marks_indexed g Hix). cbn [heap unmarked].
  apply lookup_lt_is_Some in Hsrc as [E0 HE0].
  assert (Hs : alter mark_visited src (clear_marks <$> heap g) !! src
               = Some (mark_visited (clear_marks E0))).
  { by rewrite list_lookup_alter_eq, list_lookup_fmap, HE0. }
  split.
  - done.
  - simpl. lia.
  - split; [done|]. split; [done|]. by eexists.
  - intros e. rewrite list_elem_of_singleton. split.
    + intros ->. eexists. split; [done|]. simpl. lia.
    + intros (E & HE & Hv). destruct (decide (e = src)) as [|Hne]; [done|].
      rewrite list_lookup_alter_ne, list_lookup_fmap in HE by done.
      destruct (heap g !! e); simpl in HE; [|done]. by simplify_eq.
  - apply NoDup_singleton.
  - intros i e Hi Hq. destruct i; [lia|done].
  - intros i j di dj _ Hi Hj.
    apply list_lookup_singleton_Some in Hi as [_ <-].
    apply list_lookup_singleton_Some in Hj as [_ <-]. lia.
  - intros dh i di _ Hi. apply list_lookup_singleton_Some in Hi as [_ <-]. lia.
  - intros i e Hi. lia.
Qed.

End BfsCorrect.

(** The traversal on a well-formed graph from an allocated source.  When it
    reports a path, that is a path from source to target along relations and
    no walk from source to target has fewer relations; when it reports that
    there is none, the target is out of reach; and the only faults are the
    two overflows. *)
Theorem bfs_from_shortest (g : Graph) (src tgt : ptr) :
  wf g -> (src < length (heap g))%nat ->
  match (bfs_from src tgt g).1 with
  | PathFound names =>
      exists p, names = map (ename g) p /\ p !! 0%nat = Some src /\ last p = Some tgt /\
                linked (heap g) p /\
                forall n, hops (heap g) src tgt n -> (length p <= S n)%nat
  | PathNotFound a b =>
      a = ename g src /\ b = ename g tgt /\ forall n, ~ hops (heap g) src tgt n
  | Undefined f => f = QueueOverflow \/ f = StackOverflow
  | SourceNotFound | TargetNotFound => False
  end.
Proof.
  intros Hwf Hsrc. unfold bfs_from.
  pose proof (bfs_run_shape src tgt g) as Hshape.
  pose proof (bfs_run_fuel src tgt g) as Hfuel.
  pose proof (bfs_inv_init src tgt g (wf_indexed g Hwf) Hsrc) as Hinit.
  assert (Hshape1 : clear_marks <$> alter mark_visited src (heap (reset_bfs_marks g))
                    = clear_marks <$> heap g).
  { rewrite shape_alter by done. apply shape_reset. }
  assert (Hvalid : forall a b,
            succ (alter mark_visited src (heap (reset_bfs_marks g))) a b ->
            (b < length (alter mark_visited src (heap (reset_bfs_marks g))))%nat).
  { intros a b (E & r & HE & Hr & <-)%(succ_shape _ _ _ _ Hshape1).
    apply (f_equal length) in Hshape1. rewrite !length_fmap in Hshape1.
    rewrite Hshape1. by eapply (wf_targets g Hwf). }
  pose proof (bfs_loop_inv src tgt (S (length (alter mark_visited src (heap (reset_bfs_marks g)))))
                _ [src] [0%nat] 0%nat QUEUE_INIT Hinit Hvalid) as Hloop.
  fold (bfs_run src tgt g) in Hloop.
  destruct (bfs_run src tgt g) as [out h2]. cbn [fst snd] in *.
  assert (Hn : forall e, ename {| heap := h2; gHash := gHash g |} e = ename g e).
  { intros e. by apply ename_shape. }
  destruct out as [| |f].
  - destruct Hloop as (Q' & D' & head' & d & Hinv & Hq & Hd).
    pose proof (walk_prev_inv src tgt h2 Q' D' head' PATH_STACK Hinv head' tgt d Hq Hd) as Hw.
    destruct (walk_prev PATH_STACK h2 (Some tgt)) as [f|st]; cbn [fst].
    + by right.
    + destruct Hw as (Hlen & Hst0 & Hlast & Hlink).
      exists (reverse st). split; [apply map_ext; intros e; apply Hn|].
      split; [by rewrite <- head_lookup, head_reverse|].
      split; [by rewrite last_reverse, head_lookup|]. split.
      * apply (linked_shape h2); [done|].
        intros i a b Ha Hb.
        apply reverse_lookup_Some in Ha as [Ha Hia].
        apply reverse_lookup_Some in Hb as [Hb Hib].
        apply (Hlink (length st - S (S i))%nat); [done|].
        by replace (S (length st - S (S i))) with (length st - S i)%nat by lia.
      * intros n Hh. rewrite length_reverse, Hlen.
        symmetry in Hshape.
        pose proof (bfs_inv_found_shortest src tgt h2 Q' D' head' d n Hinv Hq Hd
                      (hops_shape _ _ _ _ _ Hshape Hh)). lia.
  - cbn [fst]. rewrite !Hn. split; [done|]. split; [done|].
    destruct Hloop as (Q' & D' & Hinv). intros n Hh.
    symmetry in Hshape.
    by apply (bfs_inv_exhausted_unreachable src tgt h2 Q' D' n Hinv),
             (hops_shape _ _ _ _ _ Hshape).
  - cbn [fst]. destruct f; try done; [by left|by right].
Qed.

(** Resolution gives entities of the table. *)
Lemma collect_in_table test g es e :
  e ∈ collect test g es [] -> e ∈ es.
Proof.
  rewrite collect_spec by (simpl; lia). simpl.
  intros (i & Hi & _)%elem_of_take.
  apply list_elem_of_lookup_2, list_elem_of_filter in Hi. by destruct Hi.
Qed.

Lemma first_ci_match_in_table g key es e :
  first_ci_match g key es = Some e -> e ∈ es.
Proof.
  induction es as [|x es IH]; simpl; [done|].
  destruct (_ =? 0); [intros [= ->]; by left|]. intros H. right. by apply IH.
Qed.

Lemma fuzzy_pick_in_list g l n con e :
  (fuzzy_pick_from_suggestions g l n con).1 = Some e -> e ∈ l.
Proof.
  unfold fuzzy_pick_from_suggestions.
  destruct (n <=? 0); [done|]. destruct (n =? 1).
  - simpl. apply list_elem_of_lookup_2.
  - destruct (console_read_line _ _) as [buf con2].
    destruct (_ && _); [|done]. simpl. apply list_elem_of_lookup_2.
Qed.

Lemma resolve_in_table fz x g con e :
  (resolve fz x g con).1 = Some e -> e ∈ all_entities g.
Proof.
  unfold resolve. destruct fz; simpl.
  - unfold search_entity_smart. destruct (squeeze_spaces _) as [|c key]; [done|].
    destruct (first_ci_match g (c :: key) (all_entities g)) as [e'|] eqn:Hf.
    + simpl. intros [= <-]. by eapply first_ci_match_in_table.
    + intros H%fuzzy_pick_in_list.
      destruct (collect (prefix_test (c :: key)) g (all_entities g) []) as [|y l] eqn:Hp.
      * cbn [length Nat.eqb] in H. by eapply collect_in_table.
      * cbn [length Nat.eqb] in H. rewrite <- Hp in H. by eapply collect_in_table.
  - intros (Hb & _)%find_in_chain_Some.
    apply elem_of_all_entities. eexists. split; [apply hash_index_lt|done].
Qed.

(** X22: the path query on a well-formed graph, when both inputs resolve: the
    reported path is a shortest one, "no path" means out of reach, and the
    only other outcome is an overflow of the queue or of the stack. *)
Theorem find_path_bfs_shortest (g : Graph) (s t : cstr) (fz : bool) (con : Console)
    (src tgt : ptr) :
  wf g ->
  (resolve fz s g con).1 = Some src ->
  (resolve fz t g (resolve fz s g con).2).1 = Some tgt ->
  match (find_path_bfs s t fz g con).1.1 with
  | PathFound names =>
      exists p, names = map (ename g) p /\ p !! 0%nat = Some src /\ last p = Some tgt /\
                linked (heap g) p /\
                forall n, hops (heap g) src tgt n -> (length p <= S n)%nat
  | PathNotFound a b =>
      a = ename g src /\ b = ename g tgt /\ forall n, ~ hops (heap g) src tgt n
  | Undefined f => f = QueueOverflow \/ f = StackOverflow
  | SourceNotFound | TargetNotFound => False
  end.
Proof.
  intros Hwf Hs Ht.
  pose proof (all_entities_lt g src Hwf (resolve_in_table _ _ _ _ _ Hs)) as Hsrc.
  pose proof (bfs_from_shortest g src tgt Hwf Hsrc) as H.
  unfold find_path_bfs.
  destruct (resolve fz s g con) as [src' con1]. cbn [fst snd] in *. subst src'.
  destruct (resolve fz t g con1) as [tgt' con2]. cbn [fst snd] in *. subst tgt'.
  by destruct (bfs_from src tgt g) as [r g'].
Qed.

(** The theorem on the graph of Alice, Bob and Carol. *)
Lemma find_path_bfs_shortest_witness :
  wf abc_graph /\
  exists p, [lit "Alice"; lit "Carol"] = map (ename abc_graph) p /\
            p !! 0%nat = Some 0%nat /\ last p = Some 2%nat /\ linked (heap abc_graph) p /\
            forall n, hops (heap abc_graph) 0 2 n -> (length p <= S n)%nat.
Proof.
  assert (Hwf : wf abc_graph) by (do 3 apply wf_add_relationship; apply wf_empty).
  split; [exact Hwf|].
  pose proof (find_path_bfs_shortest abc_graph (lit "Alice") (lit "Carol") false con0
                0%nat 2%nat Hwf eq_refl eq_refl) as H.
  rewrite find_path_bfs_direct_edge in H. exact H.
Defined.

(** Source and target the same entity: the path is that entity alone. *)
Lemma walk_prev_root room h e E :
  h !! e = Some E -> prev E = None -> walk_prev (S room) h (Some e) = inr [e].
Proof. intros HE Hp. cbn [walk_prev]. rewrite HE, Hp. by destruct room. Qed.

Lemma bfs_from_same (g : Graph) (e : ptr) :
  indexed g -> (e < length (heap g))%nat ->
  (bfs_from e e g).1 = PathFound [ename g e].
Proof.
  intros Hix He. unfold bfs_from, bfs_run.
  set (h1 := alter mark_visited e (heap (reset_bfs_marks g))).
  cbn [bfs_loop]. change ([e] !! 0%nat) with (Some e). cbn iota.
  rewrite Nat.eqb_refl.
  apply lookup_lt_is_Some in He as [E0 HE0].
  assert (Hs : h1 !! e = Some (mark_visited (clear_marks E0))).
  { subst h1. rewrite (reset_bfs_marks_indexed g Hix). cbn [heap unmarked].
    by rewrite list_lookup_alter_eq, list_lookup_fmap, HE0. }
  unfold PATH_STACK. rewrite (walk_prev_root _ h1 e _ Hs eq_refl). cbn [fst].
  change (reverse [e]) with [e]. cbn [map]. do 2 f_equal.
  unfold ename. cbn [heap]. by rewrite Hs, HE0.
Qed.

(** * More of the code: strings *)

Section MoreStrings.

Lemma trim_start_spaces s : Forall (fun c => isspace c = true) (take (trim_start s) s).
Proof.
  induction s as [|c s IH]; simpl; [constructor|].
  destruct (isspace c) eqn:Hc; simpl; [|constructor]. by constructor.
Qed.

Lemma trim_end_skipped s start e0 j c :
  (trim_end s start e0 < j <= e0)%nat -> s !! j = Some c -> isspace c = true.
Proof.
  induction e0 as [|e0 IH]; simpl; [lia|].
  destruct ((start <? S e0)%nat && from_option isspace false (s !! S e0)) eqn:Hb; [|lia].
  apply andb_true_iff in Hb as [_ Hsp].
  intros Hj Hc. destruct (decide (j = S e0)) as [->|].
  - rewrite Hc in Hsp. exact Hsp.
  - apply IH; [lia|done].
Qed.

Lemma squeeze_from_true_head s c :
  head (squeeze_from true s) = Some c -> isspace c = false.
Proof.
  induction s as [|x s IH]; simpl; [done|].
  destruct (isspace x) eqn:Hx; [done|]. simpl. by intros [= <-].
Qed.

Lemma squeeze_from_adjacent b s i :
  squeeze_from b s !! i = Some SP -> squeeze_from b s !! S i <> Some SP.
Proof.
  revert b i. induction s as [|x s IH]; intros b i; simpl; [done|].
  destruct (isspace x) eqn:Hx.
  - destruct b; [apply IH|]. destruct i as [|i]; simpl; [|apply IH].
    intros _ H. rewrite <- head_lookup in H. by apply squeeze_from_true_head in H.
  - destruct i as [|i]; simpl; [|apply IH]. intros [= ->]. done.
Qed.

Lemma squeeze_from_keeps b s :
  filter (fun c => isspace c = false) (squeeze_from b s)
  = filter (fun c => isspace c = false) s.
Proof.
  revert b. induction s as [|x s IH]; intros b; simpl; [done|].
  destruct (isspace x) eqn:Hx.
  - rewrite (filter_cons_False _ x s) by congruence.
    destruct b; [apply IH|]. rewrite filter_cons_False by (rewrite isspace_SP; congruence).
    apply IH.
  - rewrite !filter_cons_True by done. by rewrite IH.
Qed.

Lemma squeeze_from_true_run w r :
  Forall (fun c => isspace c = true) w ->
  (forall c, head r = Some c -> isspace c = false) ->
  squeeze_from true (w ++ r) = squeeze_from false r.
Proof.
  intros Hw Hr. induction Hw as [|x w Hx _ IH]; cbn [app].
  - destruct r as [|c r]; [done|]. simpl. by rewrite (Hr c eq_refl).
  - simpl. by rewrite Hx.
Qed.

Lemma squeeze_from_idemp b s : squeeze_from b (squeeze_from b s) = squeeze_from b s.
Proof.
  revert b. induction s as [|x s IH]; intros b; simpl; [done|].
  destruct (isspace x) eqn:Hx.
  - destruct b; [apply IH|]. simpl. by rewrite IH.
  - simpl. rewrite Hx. by rewrite IH.
Qed.

Lemma normalize_fixed s : trim (normalize s) = normalize s.
Proof.
  unfold normalize, squeeze_spaces.
  destruct (trim s) as [|c t] eqn:Ht; [reflexivity|].
  pose proof (trim_head _ _ _ Ht) as Hc.
  apply (trim_id _ c).
  - simpl. by rewrite Hc.
  - done.
  - intros d Hd. destruct (last (c :: t)) as [d'|] eqn:Hl.
    + assert (Hd' : isspace d' = false) by (apply (trim_last s); by rewrite Ht).
      rewrite (squeeze_from_last false _ _ Hl Hd') in Hd. by simplify_eq.
    + by apply last_None in Hl.
Qed.

End MoreStrings.

(** X1: [trim] keeps exactly the part of the string between its leading and
    its trailing white space: the string is a run of white space, the result,
    and a run of white space, and the result neither starts nor ends with
    white space. *)
Theorem trim_spec (s : cstr) :
  exists a b, s = a ++ trim s ++ b /\
    Forall (fun c => isspace c = true) a /\ Forall (fun c => isspace c = true) b /\
    (forall c, head (trim s) = Some c -> isspace c = false) /\
    (forall c, last (trim s) = Some c -> isspace c = false).
Proof.
  destruct (decide (trim_start s < length s)%nat) as [Hlt|Hge].
  - destruct (trim_indices s Hlt) as [[H1 H2] _].
    set (e := trim_end s (trim_start s) (if (0 <? length s)%nat then length s - 1 else 0)%nat) in *.
    exists (take (trim_start s) s), (drop (S e) s). split; [|split; [|split; [|split]]].
    + unfold trim. fold e.
      replace (drop (S e) s) with (drop (e + 1 - trim_start s) (drop (trim_start s) s))
        by (rewrite drop_drop; f_equal; lia).
      rewrite take_drop. by rewrite take_drop.
    + apply trim_start_spaces.
    + apply Forall_forall. intros c (i & Hi)%list_elem_of_lookup.
      rewrite lookup_drop in Hi.
      apply (trim_end_skipped s (trim_start s)
               (if (0 <? length s)%nat then length s - 1 else 0)%nat (S e + i) c); [|done].
      fold e. apply lookup_lt_Some in Hi.
      assert ((0 <? length s)%nat = true) as -> by (apply Nat.ltb_lt; lia). lia.
    + intros c Hc. destruct (trim s) as [|c' t] eqn:Ht; [done|].
      simpl in Hc. simplify_eq. by eapply trim_head.
    + apply trim_last.
  - assert (Hall : Forall (fun c => isspace c = true) s).
    { apply trim_start_full. pose proof (trim_start_le s). lia. }
    exists s, []. rewrite (trim_all_space s Hall). rewrite app_nil_r.
    split; [done|]. split; [done|]. split; [constructor|]. split; done.
Qed.

(** X2: [squeeze_spaces] turns every run of white space into one blank and
    keeps everything else.  Read from the left: the empty string stays empty;
    a byte that is no white space is kept; and a run of white space, taken
    whole (the string ends after it, or goes on with a byte that is no white
    space), becomes one blank.  These three cases cover every string, so they
    say what the result is.  In particular the only white space of the result
    is the blank, no two blanks are adjacent, and the other bytes are kept,
    in order. *)
Theorem squeeze_spaces_spec (s : cstr) :
  squeeze_spaces [] = [] /\
  (forall c r, isspace c = false -> squeeze_spaces (c :: r) = c :: squeeze_spaces r) /\
  (forall w r, w <> [] -> Forall (fun c => isspace c = true) w ->
     (forall c, head r = Some c -> isspace c = false) ->
     squeeze_spaces (w ++ r) = SP :: squeeze_spaces r) /\
  (forall c, c ∈ squeeze_spaces s -> isspace c = true -> c = SP) /\
  (forall i, squeeze_spaces s !! i = Some SP -> squeeze_spaces s !! S i <> Some SP) /\
  filter (fun c => isspace c = false) (squeeze_spaces s)
    = filter (fun c => isspace c = false) s.
Proof.
  unfold squeeze_spaces. split; [done|]. split; [|split; [|split; [|split]]].
  - intros c r Hc. simpl. by rewrite Hc.
  - intros w r Hw Hall Hr. destruct w as [|x w]; [done|].
    apply Forall_cons in Hall as [Hx Hall]. cbn [app squeeze_from]. rewrite Hx.
    f_equal. by apply squeeze_from_true_run.
  - intros c [?|[_ ?]]%squeeze_from_elem Hsp; [done|congruence].
  - apply squeeze_from_adjacent.
  - apply squeeze_from_keeps.
Qed.

(** X3: the normalization [trim] then [squeeze_spaces], applied to every name
    and label that is read, is idempotent: a normalized string is left as it
    is, so names taken from the graph can be typed back. *)
Theorem normalize_idempotent (s : cstr) : normalize (normalize s) = normalize s.
Proof.
  unfold normalize at 1. rewrite normalize_fixed.
  unfold normalize, squeeze_spaces. apply squeeze_from_idemp.
Qed.

(** * More of the code: comparison and input *)

Section MoreInput.

Lemma ci_cmp_antisym a b : ci_cmp b a = - ci_cmp a b.
Proof.
  revert b. induction a as [|ca a IH]; intros [|cb b]; simpl; try lia.
  rewrite (Z.eqb_sym (code (tolower cb))).
  destruct (code (tolower ca) =? code (tolower cb)); [apply IH|lia].
Qed.

Lemma fgets_take_spec room s a b :
  fgets_take room s = (a, b) ->
  s = a ++ b /\ (length a <= room)%nat /\
  (forall i, a !! i = Some LF -> S i = length a) /\
  ((0 < room)%nat -> s <> [] -> a <> []) /\
  (b = [] \/ last a = Some LF \/ length a = room).
Proof.
  revert s a b. induction room as [|r IH]; intros s a b.
  - simpl. intros [= <- <-].
    split; [done|]. split; [done|]. split; [by intros i; rewrite lookup_nil|].
    split; [lia|]. by right; right.
  - destruct s as [|c s]; simpl.
    + intros [= <- <-].
      split; [done|]. split; [simpl; lia|]. split; [by intros i; rewrite lookup_nil|].
      split; [done|]. by left.
    + destruct (ascii_eqb c LF) eqn:Hc.
      * intros [= <- <-]. apply ascii_eqb_true in Hc as ->.
        split; [done|]. split; [simpl; lia|]. split; [|split; [done|by right; left]].
        intros [|i]; simpl; [done|]. by rewrite lookup_nil.
      * destruct (fgets_take r s) as [a' b'] eqn:Hf. intros [= <- <-].
        destruct (IH _ _ _ Hf) as (H1 & H2 & H3 & H4 & H5).
        split; [by rewrite H1|]. split; [simpl; lia|]. split; [|split; [done|]].
        -- intros [|i]; simpl.
           ++ intros [= ->]. by rewrite ascii_eqb_refl in Hc.
           ++ intros Hi. f_equal. by apply H3.
        -- destruct H5 as [H5|[H5|H5]]; [by left| |right; right; simpl; lia].
           right. left. destruct a' as [|x a']; [done|]. by rewrite last_cons, H5.
Qed.

Lemma fgets_loop_nil fuel : fgets_loop fuel [] = [].
Proof. by destruct fuel. Qed.

Lemma line_buf_room : (0 < LINE_BUF - 1)%nat.
Proof. unfold LINE_BUF. lia. Qed.

Lemma fgets_loop_spec fuel fp :
  (length fp <= fuel)%nat ->
  concat (fgets_loop fuel fp) = fp /\
  Forall (fun buf => buf <> [] /\ (length buf <= LINE_BUF - 1)%nat /\
                     forall i, buf !! i = Some LF -> S i = length buf)
         (fgets_loop fuel fp) /\
  forall i buf, fgets_loop fuel fp !! i = Some buf ->
    (S i < length (fgets_loop fuel fp))%nat ->
    last buf = Some LF \/ length buf = (LINE_BUF - 1)%nat.
Proof.
  revert fp. induction fuel as [|k IH]; intros fp Hlen.
  - destruct fp; [|simpl in Hlen; lia]. simpl. split; [done|]. split; [constructor|].
    intros i buf. by rewrite lookup_nil.
  - destruct fp as [|c fp].
    { simpl. split; [done|]. split; [constructor|]. intros i buf. by rewrite lookup_nil. }
    cbn [fgets_loop]. unfold fgets.
    destruct (fgets_take (LINE_BUF - 1) (c :: fp)) as [a b] eqn:Hf.
    destruct (fgets_take_spec _ _ _ _ Hf) as (H1 & H2 & H3 & H4 & H5).
    pose proof (fgets_take_length (LINE_BUF - 1) (c :: fp) line_buf_room) as Hsh.
    rewrite Hf in Hsh. cbn [snd] in Hsh. specialize (Hsh ltac:(done)).
    destruct (IH b) as (I1 & I2 & I3); [simpl in *; lia|].
    split; [|split].
    + cbn [concat]. by rewrite I1.
    + constructor; [|done]. split; [|done]. apply H4; [apply line_buf_room|done].
    + intros [|i] buf; cbn [lookup list_lookup length].
      * intros [= <-] Hi. destruct H5 as [->|H5]; [|done].
        rewrite fgets_loop_nil in Hi. simpl in Hi. lia.
      * intros Hb Hi. apply (I3 i); [done|lia].
Qed.

Lemma chomp_prefix buf : chomp buf `prefix_of` buf.
Proof.
  induction buf as [|c buf IH]; simpl; [done|].
  destruct (ascii_eqb c NUL || ascii_eqb c CR || ascii_eqb c LF); [apply prefix_nil|].
  by apply prefix_cons.
Qed.

Lemma chomp_clean buf c : c ∈ chomp buf -> c <> NUL /\ c <> CR /\ c <> LF.
Proof.
  induction buf as [|x buf IH]; simpl; [by intros ?%elem_of_nil|].
  destruct (ascii_eqb x NUL || ascii_eqb x CR || ascii_eqb x LF) eqn:Hx;
    [by intros ?%elem_of_nil|].
  apply orb_false_iff in Hx as [[H1 H2]%orb_false_iff H3].
  intros [->|Hin]%elem_of_cons; [|by apply IH].
  repeat split; intros ->; by rewrite ascii_eqb_refl in *.
Qed.

End MoreInput.

(** X4: [ci_cmp] is a comparison up to the case of letters: on C strings it
    is zero exactly for strings that are equal after lowering, and swapping
    the arguments changes the sign of the result. *)
Theorem ci_cmp_spec (a b : cstr) :
  valid_cstr a -> valid_cstr b ->
  (ci_cmp a b = 0 <-> lower a = lower b) /\ ci_cmp b a = - ci_cmp a b.
Proof.
  intros Ha Hb. split; [by apply ci_cmp_zero|apply ci_cmp_antisym].
Qed.

Lemma ci_cmp_spec_witness :
  (ci_cmp (lit "Alice") (lit "ALICE") = 0 <-> lower (lit "Alice") = lower (lit "ALICE")) /\
  ci_cmp (lit "ALICE") (lit "Alice") = - ci_cmp (lit "Alice") (lit "ALICE").
Proof.
  apply (ci_cmp_spec (lit "Alice") (lit "ALICE"));
    unfold valid_cstr; apply (bool_decide_unpack _); vm_compute; reflexivity.
Defined.

(** X5: the reading loop of the import, [while (fgets(line, sizeof line, fp))],
    loses no byte of the file: the buffers it sees, put end to end, are the
    file.  No buffer is empty or longer than 511 bytes, a newline can only be
    the last byte of a buffer, and every buffer but the last either ends in a
    newline or is full, so that a longer line is read in several pieces. *)
Theorem fgets_all_spec (fp : list ascii) :
  concat (fgets_all fp) = fp /\
  Forall (fun buf => buf <> [] /\ (length buf <= LINE_BUF - 1)%nat /\
                     forall i, buf !! i = Some LF -> S i = length buf)
         (fgets_all fp) /\
  forall i buf, fgets_all fp !! i = Some buf ->
    (S i < length (fgets_all fp))%nat ->
    last buf = Some LF \/ length buf = (LINE_BUF - 1)%nat.
Proof. unfold fgets_all. by apply fgets_loop_spec. Qed.

(** X6: [read_line] consumes a piece of the input and returns the start of
    it: at most [n - 1] bytes, none of them a NUL, a carriage return or a
    newline.  Input that is not at its end always loses at least one byte,
    and a line that fits the buffer is returned whole, without its newline. *)
Theorem read_line_spec (n : nat) (s : list ascii) :
  (length (read_line n s).1 <= n - 1)%nat /\
  (forall c, c ∈ (read_line n s).1 -> c <> NUL /\ c <> CR /\ c <> LF) /\
  (exists taken, s = taken ++ (read_line n s).2 /\
     (read_line n s).1 `prefix_of` taken /\
     (s <> [] -> (1 < n)%nat -> taken <> [])) /\
  (forall body rest, s = body ++ LF :: rest ->
     NUL ∉ body -> CR ∉ body -> LF ∉ body -> (length body < n - 1)%nat ->
     read_line n s = (body, rest)).
Proof.
  unfold read_line, fgets. destruct s as [|c s].
  - cbn [fst snd]. split; [simpl; lia|]. split; [by intros c ?%elem_of_nil|].
    split; [by exists []|]. intros body rest H. by destruct body.
  - destruct (fgets_take (n - 1) (c :: s)) as [a b] eqn:Hf. cbn [fst snd].
    destruct (fgets_take_spec _ _ _ _ Hf) as (H1 & H2 & H3 & H4 & H5).
    pose proof (chomp_prefix a) as Hp.
    split; [|split; [|split]].
    + apply prefix_length in Hp. lia.
    + apply chomp_clean.
    + exists a. split; [done|]. split; [done|]. intros _ Hn. apply H4; [lia|done].
    + intros body rest Hs Hn Hc Hl Hlen. rewrite Hs in Hf.
      rewrite fgets_take_line in Hf by done. injection Hf as <- <-.
      f_equal. exact (chomp_line body [] Hn Hc Hl).
Qed.

(** * More of the code: the table as an index *)

Section IndexFacts.

Lemma all_entities_empty : all_entities empty_graph = [].
Proof. vm_compute. reflexivity. Qed.

Lemma table_ok_empty : table_ok empty_graph.
Proof.
  split; [apply wf_empty|]. split.
  - intros i e. unfold bucket, empty_graph. cbn [gHash]. rewrite lookup_empty.
    by intros ?%elem_of_nil.
  - rewrite all_entities_empty. constructor.
Qed.

Lemma index_ok_same g g' :
  gHash g = gHash g' -> (forall e, ename g e = ename g' e) -> index_ok g -> index_ok g'.
Proof.
  intros Hh Hn [Hhash Hnd]. split.
  - intros i e. unfold bucket. rewrite <- Hh, <- Hn. apply Hhash.
  - by rewrite <- (all_entities_gHash g g' Hh).
Qed.

Lemma ename_create_old nm g e :
  (e < length (heap g))%nat -> ename (snd (create_entity nm g)) e = ename g e.
Proof.
  intros He. unfold ename. rewrite heap_create. by rewrite lookup_app_l.
Qed.

Lemma table_ok_create nm g : table_ok g -> table_ok (snd (create_entity nm g)).
Proof.
  intros [Hwf [Hhash Hnd]]. split; [by apply wf_create|]. split.
  - intros i e. rewrite bucket_create.
    destruct (decide (hash_index (strncpy nm (NAME_LEN - 1)) = i)) as [Hi|Hi].
    + intros [->|He]%elem_of_cons.
      * by rewrite ename_create.
      * rewrite ename_create_old by (by eapply (wf_chain g Hwf)). by apply Hhash.
    + intros He. rewrite ename_create_old by (by eapply (wf_chain g Hwf)). by apply Hhash.
  - rewrite all_entities_create. constructor; [|done].
    intros Hin%(all_entities_lt g _ Hwf). lia.
Qed.

Lemma table_ok_get_or_create nm g : table_ok g -> table_ok (get_or_create_entity nm g).2.
Proof.
  intros Hok. unfold get_or_create_entity.
  destruct (find_entity_exact nm g); [done|]. by apply table_ok_create.
Qed.

Lemma table_ok_add_relationship s l t g : table_ok g -> table_ok (add_relationship s l t g).
Proof.
  intros Hok. split; [apply wf_add_relationship, Hok|].
  pose proof (table_ok_get_or_create s g Hok) as H1.
  unfold add_relationship.
  destruct (get_or_create_entity s g) as [pS g1]. cbn [snd] in H1.
  pose proof (table_ok_get_or_create t g1 H1) as H2.
  destruct (get_or_create_entity t g1) as [pT g2]. cbn [snd] in H2.
  apply (index_ok_same g2); [done| |apply H2].
  intros e. symmetry. apply ename_alter_relations.
Qed.

Lemma table_ok_find_path_bfs s t fz g con :
  table_ok g -> (forall f, (find_path_bfs s t fz g con).1.1 <> Undefined f) ->
  table_ok (find_path_bfs s t fz g con).1.2.
Proof.
  intros Hok Hdef. split; [by apply wf_find_path_bfs; [apply Hok|]|].
  destruct (find_path_bfs_graph s t fz g con Hdef) as [Hh Hs].
  apply (index_ok_same g); [done| |apply Hok].
  intros e. apply ename_shape. done.
Qed.

Lemma table_ok_load_step st buf :
  table_ok (ld_graph st) -> table_ok (ld_graph (load_step st buf)).
Proof.
  intros Hok. unfold load_step.
  destruct (trim (chomp buf)) as [|c line]; [done|].
  destruct (ascii_eqb c HASHMARK); [done|].
  destruct (parse_relation_line (c :: line)) as [[[src rl] tgt]|]; [|done].
  by apply table_ok_add_relationship.
Qed.

Lemma table_ok_load_from_file file g : table_ok g -> table_ok (snd (load_from_file file g)).
Proof.
  intros Hok. unfold load_from_file. destruct file as [fp|]; [|done]. cbn [snd].
  generalize (fgets_all fp). intros bufs.
  set (st0 := {| ld_graph := g; ld_count := 0; ld_bad := 0; ld_lineNo := 0; ld_skipped := [] |}).
  assert (Hst : table_ok (ld_graph st0)) by done.
  clearbody st0. revert st0 Hst.
  induction bufs as [|buf bufs IH]; intros st0 Hst; simpl; [done|].
  apply IH. by apply table_ok_load_step.
Qed.

Lemma table_ok_menu_add_entity g con : table_ok g -> table_ok (fst (menu_add_entity g con)).
Proof.
  intros Hok. unfold menu_add_entity.
  destruct (console_read_line LINE_BUF con) as [buf con1].
  destruct (squeeze_spaces (trim buf)) as [|c b]; [done|].
  destruct (find_entity_exact (c :: b) g); [done|]. by apply table_ok_create.
Qed.

Lemma table_ok_menu_add_relationship g con :
  table_ok g -> table_ok (fst (menu_add_relationship g con)).
Proof.
  intros Hok. unfold menu_add_relationship.
  destruct (console_read_line NAME_LEN con) as [s con1].
  destruct (console_read_line REL_LEN con1) as [r con2].
  destruct (console_read_line NAME_LEN con2) as [t con3].
  destruct (squeeze_spaces (trim s)); [done|].
  destruct (squeeze_spaces (trim r)); [done|].
  destruct (squeeze_spaces (trim t)); [done|].
  by apply table_ok_add_relationship.
Qed.

Lemma reachable_table_ok g : reachable g -> table_ok g.
Proof.
  induction 1.
  - apply table_ok_empty.
  - by apply table_ok_menu_add_entity.
  - by apply table_ok_menu_add_relationship.
  - by apply table_ok_load_from_file.
  - by apply table_ok_find_path_bfs.
Qed.

(** The table holds every allocated entity exactly once. *)
Lemma table_ok_length g : table_ok g -> length (all_entities g) = length (heap g).
Proof.
  intros [Hwf [_ Hnd]].
  assert (Hp : all_entities g ≡ₚ seq 0 (length (heap g))).
  { apply NoDup_Permutation; [done|apply NoDup_seq|].
    intros e. rewrite elem_of_seq. split.
    - intros He%(all_entities_lt g _ Hwf). lia.
    - intros [_ He]. by apply (wf_indexed g Hwf). }
  by rewrite Hp, length_seq.
Qed.

Lemma find_in_chain_complete h nm chain e E :
  (forall x, x ∈ chain -> (x < length h)%nat) ->
  e ∈ chain -> h !! e = Some E -> name E = nm ->
  exists e', find_in_chain h nm chain = Some e'.
Proof.
  intros Hv He HE Hnm. induction chain as [|x chain IH]; [by apply elem_of_nil in He|].
  simpl. destruct (h !! x) as [X|] eqn:HX.
  2:{ apply lookup_ge_None in HX. specialize (Hv x ltac:(left)). lia. }
  destruct (streq (name X) nm) eqn:Hs; [by eexists|].
  apply elem_of_cons in He as [->|He].
  - rewrite HE in HX. simplify_eq. assert (streq (name X) (name X) = true) by (by apply streq_true). congruence.
  - apply IH; [|done]. intros y Hy. apply Hv. by right.
Qed.

Lemma find_entity_exact_complete g e :
  table_ok g -> e ∈ all_entities g ->
  exists e', find_entity_exact (ename g e) g = Some e'.
Proof.
  intros [Hwf [Hhash _]] He.
  pose proof (all_entities_lt g e Hwf He) as Hlt.
  apply elem_of_all_entities in He as (i & Hi & He).
  pose proof (Hhash i e He) as Hidx.
  apply lookup_lt_is_Some in Hlt as [E HE].
  unfold find_entity_exact. rewrite Hidx.
  apply (find_in_chain_complete _ _ _ e E); [apply (wf_chain g Hwf)|done|done|].
  unfold ename. by rewrite HE.
Qed.

Lemma find_entity_exact_in_table nm g e :
  find_entity_exact nm g = Some e -> e ∈ all_entities g.
Proof.
  unfold find_entity_exact. intros [He _]%find_in_chain_Some.
  apply elem_of_all_entities. exists (hash_index nm). split; [apply hash_index_lt|done].
Qed.

End IndexFacts.

Section UniqueFacts.

Lemma table_ok_abc_graph : table_ok abc_graph.
Proof. unfold abc_graph. do 3 apply table_ok_add_relationship. apply table_ok_empty. Qed.

Lemma length_read_line n s : (length (read_line n s).1 <= n - 1)%nat.
Proof.
  unfold read_line, fgets. destruct s as [|c s]; [simpl; lia|].
  destruct (fgets_take (n - 1) (c :: s)) as [a b] eqn:Hf. cbn [fst].
  destruct (fgets_take_spec _ _ _ _ Hf) as (_ & H2 & _).
  pose proof (prefix_length _ _ (chomp_prefix a)). lia.
Qed.

Lemma length_console_read_line n con : (length (console_read_line n con).1 <= n - 1)%nat.
Proof.
  unfold console_read_line. pose proof (length_read_line n (stdin con)).
  by destruct (read_line n (stdin con)).
Qed.

Lemma parse_relation_line_short line s r t :
  parse_relation_line line = Some (s, r, t) ->
  (length s < NAME_LEN)%nat /\ (length r < REL_LEN)%nat /\ (length t < NAME_LEN)%nat.
Proof.
  unfold parse_relation_line.
  destruct (strchr line BAR) as [p1|]; [|done].
  destruct (strchr (drop (S p1) line) BAR) as [L2|]; [|done].
  destruct (_ || _); [done|]. intros [= <- <- <-].
  pose proof length_normalize as Hn. unfold normalize in Hn.
  pose proof length_strncpy as Hc.
  assert (Hclip : forall (x : cstr) L,
            (length (squeeze_spaces (trim (strncpy x
               (if (NAME_LEN <=? L)%nat then (NAME_LEN - 1)%nat else L)))) < NAME_LEN)%nat).
  { intros x L. eapply Nat.le_lt_trans; [apply Hn|]. eapply Nat.le_lt_trans; [apply Hc|].
    destruct (NAME_LEN <=? L)%nat eqn:Hb; [unfold NAME_LEN; lia|].
    by apply Nat.leb_gt in Hb. }
  split; [apply Hclip|]. split; [apply Hclip|apply Hclip].
Qed.

Lemma unique_names_same g g' :
  gHash g = gHash g' -> (forall e, ename g e = ename g' e) ->
  unique_names g -> unique_names g'.
Proof.
  intros Hh Hn Hu e1 e2. rewrite <- (all_entities_gHash g g' Hh), <- !Hn. apply Hu.
Qed.

Lemma unique_names_create nm g :
  table_ok g -> unique_names g -> (length nm < NAME_LEN)%nat ->
  find_entity_exact nm g = None -> unique_names (snd (create_entity nm g)).
Proof.
  intros Hok Hu Hlen Hnone.
  assert (Hfresh : forall e, e ∈ all_entities g -> ename g e <> nm).
  { intros e He Hnm. destruct (find_entity_exact_complete g e Hok He) as [e' He'].
    rewrite Hnm in He'. congruence. }
  assert (Hold : forall e, e ∈ all_entities g ->
            ename (snd (create_entity nm g)) e = ename g e).
  { intros e He. apply ename_create_old. by apply all_entities_lt; [apply Hok|]. }
  assert (Hnew : ename (snd (create_entity nm g)) (length (heap g)) = nm).
  { by rewrite ename_create, short_strncpy. }
  intros e1 e2 [->|H1]%elem_of_all_entities_create [->|H2]%elem_of_all_entities_create; [done|..].
  - rewrite Hnew, (Hold e2 H2). intros Heq. by destruct (Hfresh e2 H2).
  - rewrite Hnew, (Hold e1 H1). intros Heq. by destruct (Hfresh e1 H1).
  - rewrite (Hold e1 H1), (Hold e2 H2). by apply Hu.
Qed.

Lemma unique_names_get_or_create nm g :
  table_ok g -> unique_names g -> (length nm < NAME_LEN)%nat ->
  unique_names (get_or_create_entity nm g).2.
Proof.
  intros Hok Hu Hlen. unfold get_or_create_entity.
  destruct (find_entity_exact nm g) eqn:Hf; [done|]. by apply unique_names_create.
Qed.

Lemma unique_names_add_relationship s l t g :
  table_ok g -> unique_names g -> (length s < NAME_LEN)%nat -> (length t < NAME_LEN)%nat ->
  unique_names (add_relationship s l t g).
Proof.
  intros Hok Hu Hs Ht.
  pose proof (table_ok_get_or_create s g Hok) as H1.
  pose proof (unique_names_get_or_create s g Hok Hu Hs) as U1.
  unfold add_relationship.
  destruct (get_or_create_entity s g) as [pS g1]. cbn [snd] in H1, U1.
  pose proof (unique_names_get_or_create t g1 H1 U1 Ht) as U2.
  destruct (get_or_create_entity t g1) as [pT g2]. cbn [snd] in U2.
  apply (unique_names_same g2); [done| |done].
  intros e. symmetry. apply ename_alter_relations.
Qed.

Lemma unique_names_load_step st buf :
  table_ok (ld_graph st) -> unique_names (ld_graph st) ->
  unique_names (ld_graph (load_step st buf)).
Proof.
  intros Hok Hu. unfold load_step.
  destruct (trim (chomp buf)) as [|c line]; [done|].
  destruct (ascii_eqb c HASHMARK); [done|].
  destruct (parse_relation_line (c :: line)) as [[[src rl] tgt]|] eqn:Hp; [|done].
  apply parse_relation_line_short in Hp as (Hs & _ & Ht).
  by apply unique_names_add_relationship.
Qed.

Lemma unique_names_load_from_file file g :
  table_ok g -> unique_names g -> unique_names (snd (load_from_file file g)).
Proof.
  intros Hok Hu. unfold load_from_file. destruct file as [fp|]; [|done]. cbn [snd].
  generalize (fgets_all fp). intros bufs.
  set (st0 := {| ld_graph := g; ld_count := 0; ld_bad := 0; ld_lineNo := 0; ld_skipped := [] |}).
  assert (Hst : table_ok (ld_graph st0) /\ unique_names (ld_graph st0)) by done.
  clearbody st0. revert st0 Hst.
  induction bufs as [|buf bufs IH]; intros st0 [Hst Hus]; simpl; [done|].
  apply IH. split; [by apply table_ok_load_step|by apply unique_names_load_step].
Qed.

Lemma length_normalized_line n con :
  (length (squeeze_spaces (trim (console_read_line n con).1)) <= n - 1)%nat.
Proof.
  pose proof (length_normalize (console_read_line n con).1) as H.
  pose proof (length_console_read_line n con). unfold normalize in H. lia.
Qed.

Lemma find_entity_exact_create (nm k : cstr) (g : Graph) :
  wf g ->
  find_entity_exact k (snd (create_entity nm g)) =
  if decide (k = strncpy nm (NAME_LEN - 1)) then Some (length (heap g))
  else find_entity_exact k g.
Proof.
  intros Hwf. unfold find_entity_exact. rewrite bucket_create, heap_create.
  set (E := {| name := strncpy nm (NAME_LEN - 1); relations := []; visited := 0;
               prev := None |}).
  assert (Hold : find_in_chain (heap g ++ [E]) k (bucket g (hash_index k))
                 = find_in_chain (heap g) k (bucket g (hash_index k))).
  { apply find_in_chain_app. apply (wf_chain g Hwf). }
  destruct (decide (hash_index (strncpy nm (NAME_LEN - 1)) = hash_index k)) as [Hh|Hh].
  - cbn [find_in_chain]. rewrite list_lookup_middle by done. cbn [name E].
    destruct (streq (strncpy nm (NAME_LEN - 1)) k) eqn:Hs.
    + apply streq_true in Hs. by rewrite decide_True.
    + rewrite decide_False; [done|]. intros ->.
      assert (streq (strncpy nm (NAME_LEN - 1)) (strncpy nm (NAME_LEN - 1)) = true)
        by (by apply streq_true). congruence.
  - rewrite decide_False; [done|]. by intros ->.
Qed.

End UniqueFacts.

(** X7: in every state the session can reach, the table is an index of the
    allocated entities: a chain holds allocated entities only, each in the
    chain of its name's hash; no entity is in the table twice and none is
    missing from it; every relation points to an entity of the table; and
    every name fits its buffer. *)
Theorem reachable_table_invariants (g : Graph) :
  reachable g ->
  (forall i e, e ∈ bucket g i ->
     (e < length (heap g))%nat /\ hash_index (ename g e) = i) /\
  NoDup (all_entities g) /\
  length (all_entities g) = length (heap g) /\
  (forall e E r, heap g !! e = Some E -> r ∈ relations E -> target r ∈ all_entities g) /\
  (forall e, (length (ename g e) < NAME_LEN)%nat).
Proof.
  intros Hr. pose proof (reachable_table_ok g Hr) as Hok.
  destruct Hok as [Hwf [Hhash Hnd]].
  split; [|split; [done|split; [by apply table_ok_length|split]]].
  - intros i e He. split; [by eapply (wf_chain g Hwf)|by apply Hhash].
  - intros e E r HE Hin. apply (wf_indexed g Hwf). by eapply (wf_targets g Hwf).
  - intros e. unfold ename. destruct (heap g !! e) as [E|] eqn:HE; simpl.
    + by eapply (wf_names g Hwf).
    + unfold NAME_LEN. lia.
Qed.

Lemma reachable_table_invariants_witness :
  reachable comment_mark_graph /\
  NoDup (all_entities comment_mark_graph) /\
  length (all_entities comment_mark_graph) = length (heap comment_mark_graph).
Proof.
  assert (Hr : reachable comment_mark_graph).
  { unfold comment_mark_graph. apply reach_add_relationship, reach_start. }
  split; [exact Hr|].
  destruct (reachable_table_invariants comment_mark_graph Hr) as (_ & H2 & H3 & _).
  split; [exact H2|exact H3].
Defined.

(** X8: on a graph whose table is an index, the exact lookup is sound and
    complete: an entity it returns is in the table and has exactly the name
    asked for, and it returns none only when no entity of the table has that
    name. *)
Theorem find_entity_exact_spec (nm : cstr) (g : Graph) :
  table_ok g ->
  (forall e, find_entity_exact nm g = Some e -> e ∈ all_entities g /\ ename g e = nm) /\
  (find_entity_exact nm g = None <->
   forall e, e ∈ all_entities g -> ename g e <> nm).
Proof.
  intros Hok. split; [|split].
  - intros e He. split; [by eapply find_entity_exact_in_table|by apply find_entity_exact_name].
  - intros Hnone e He Hnm.
    destruct (find_entity_exact_complete g e Hok He) as [e' He'].
    rewrite Hnm in He'. congruence.
  - intros Hall. destruct (find_entity_exact nm g) as [e|] eqn:Hf; [|done].
    destruct (Hall e); [by eapply find_entity_exact_in_table|by apply find_entity_exact_name].
Qed.

Lemma find_entity_exact_spec_witness :
  table_ok abc_graph /\
  find_entity_exact (lit "Bob") abc_graph = Some 1%nat /\
  forall e, e ∈ all_entities abc_graph -> ename abc_graph e <> lit "bob".
Proof.
  split; [apply table_ok_abc_graph|]. split; [vm_compute; reflexivity|].
  apply (find_entity_exact_spec (lit "bob") abc_graph table_ok_abc_graph).
  vm_compute. reflexivity.
Defined.

(** X9: what [create_entity] does to the lookup: the name it stored, the
    first 127 bytes of the name given, now finds the new entity, and every
    other name finds what it found before. *)
Theorem create_entity_lookup (nm k : cstr) (g : Graph) :
  wf g ->
  find_entity_exact k (snd (create_entity nm g)) =
  if decide (k = strncpy nm (NAME_LEN - 1)) then Some (length (heap g))
  else find_entity_exact k g.
Proof. apply find_entity_exact_create. Qed.

Lemma create_entity_lookup_witness :
  wf abc_graph /\
  find_entity_exact (lit "Dave") (snd (create_entity (lit "Dave") abc_graph)) = Some 3%nat /\
  find_entity_exact (lit "Bob") (snd (create_entity (lit "Dave") abc_graph)) = Some 1%nat.
Proof.
  pose proof (proj1 table_ok_abc_graph) as Hwf.
  split; [exact Hwf|]. split.
  - rewrite (create_entity_lookup (lit "Dave") (lit "Dave") abc_graph Hwf).
    vm_compute. reflexivity.
  - rewrite (create_entity_lookup (lit "Dave") (lit "Bob") abc_graph Hwf).
    vm_compute. reflexivity.
Defined.

(** X10: names stay unique.  On a graph whose table is an index and holds no
    name twice, an import, a relation entered at the menu, a relation added
    between names that fit the buffer, and a path query that stays within its
    queue and its stack leave no name twice; neither does "Add Entity" when
    the name entered has fewer than 128 bytes. *)
Theorem unique_names_kept (g : Graph) (con : Console) (file : option (list ascii))
    (s l t : cstr) (fz : bool) :
  table_ok g -> unique_names g ->
  unique_names (snd (load_from_file file g)) /\
  unique_names (fst (menu_add_relationship g con)) /\
  ((forall f, (find_path_bfs s t fz g con).1.1 <> Undefined f) ->
   unique_names (find_path_bfs s t fz g con).1.2) /\
  ((length s < NAME_LEN)%nat -> (length t < NAME_LEN)%nat ->
   unique_names (add_relationship s l t g)) /\
  ((length (normalize (console_read_line LINE_BUF con).1) < NAME_LEN)%nat ->
   unique_names (fst (menu_add_entity g con))).
Proof.
  intros Hok Hu. split; [by apply unique_names_load_from_file|].
  split; [|split; [|split]].
  - unfold menu_add_relationship.
    pose proof (length_normalized_line NAME_LEN con) as H1.
    destruct (console_read_line NAME_LEN con) as [a con1]. cbn [fst] in H1.
    destruct (console_read_line REL_LEN con1) as [b con2].
    pose proof (length_normalized_line NAME_LEN con2) as H3.
    destruct (console_read_line NAME_LEN con2) as [c con3]. cbn [fst] in H3.
    destruct (squeeze_spaces (trim a)) as [|a0 a']; [done|].
    destruct (squeeze_spaces (trim b)) as [|b0 b']; [done|].
    destruct (squeeze_spaces (trim c)) as [|c0 c']; [done|].
    cbn [fst]. apply unique_names_add_relationship; [done|done| |].
    + revert H1. unfold NAME_LEN. lia.
    + revert H3. unfold NAME_LEN. lia.
  - intros Hdef. destruct (find_path_bfs_graph s t fz g con Hdef) as [Hh Hs].
    apply (unique_names_same g); [done| |done].
    intros e. by apply ename_shape.
  - intros Hs Ht. by apply unique_names_add_relationship.
  - unfold menu_add_entity, normalize.
    destruct (console_read_line LINE_BUF con) as [buf con1]. cbn [fst].
    destruct (squeeze_spaces (trim buf)) as [|c b] eqn:Hb; [done|].
    destruct (find_entity_exact (c :: b) g) eqn:Hf; [done|].
    intros Hlen. cbn [fst]. by apply unique_names_create.
Qed.

Lemma unique_names_abc_graph : unique_names abc_graph.
Proof.
  assert (Hall : forall e, e ∈ all_entities abc_graph -> (e < 3)%nat).
  { intros e He. apply (all_entities_lt abc_graph e (proj1 table_ok_abc_graph) He). }
  intros e1 e2 H1%Hall H2%Hall.
  destruct e1 as [|[|[|e1]]]; [..|lia]; destruct e2 as [|[|[|e2]]]; try lia;
    vm_compute; congruence.
Qed.

Lemma unique_names_kept_witness :
  table_ok abc_graph /\ unique_names abc_graph /\
  unique_names (snd (load_from_file (Some (lit "Carol|likes|Dave" ++ [LF])) abc_graph)).
Proof.
  split; [apply table_ok_abc_graph|]. split; [apply unique_names_abc_graph|].
  apply (unique_names_kept abc_graph con0 (Some (lit "Carol|likes|Dave" ++ [LF])) [] [] [] false
           table_ok_abc_graph unique_names_abc_graph).
Defined.

(** * More of the code: relations as a multiset *)

Section TriplePerm.

Lemma concat_map_perm {A B} (f : A -> list B) (l l' : list A) :
  l ≡ₚ l' -> concat (map f l) ≡ₚ concat (map f l').
Proof.
  induction 1 as [|x l l' _ IH|x y l|l l' l'' _ IH1 _ IH2]; cbn [map concat].
  - done.
  - by rewrite IH.
  - rewrite !app_assoc. f_equiv. apply Permutation_app_comm.
  - by rewrite IH1.
Qed.

Lemma concat_map_ext_in {A B} (f f' : A -> list B) (l : list A) :
  (forall x, x ∈ l -> f x = f' x) -> concat (map f l) = concat (map f' l).
Proof.
  induction l as [|x l IH]; intros H; [done|]. cbn [map concat].
  rewrite (H x) by left. rewrite IH; [done|]. intros y Hy. apply H. by right.
Qed.

Lemma triples_perm_get_or_create nm g e g' :
  wf g -> (length nm < NAME_LEN)%nat -> get_or_create_entity nm g = (e, g') ->
  triples g' ≡ₚ triples g.
Proof.
  intros Hwf Hlen Hgoc.
  destruct (get_or_create_spec nm g e g' Hwf Hlen Hgoc) as (_ & _ & _ & _ & Hheap & Hnew).
  destruct (get_or_create_found nm g e g' Hgoc) as [[_ ->]|[Hnone Hc]]; [done|].
  destruct (Hnew Hnone) as (-> & E' & HE' & Hrel).
  assert (g' = snd (create_entity nm g)) as Hg' by (by rewrite <- Hc).
  subst g'. unfold triples.
  rewrite (concat_map_perm _ _ _ (all_entities_create nm g)).
  cbn [map concat]. unfold entity_triples at 1. rewrite HE', Hrel. cbn [map app].
  erewrite concat_map_ext_in; [done|].
  intros x Hx. pose proof (all_entities_lt g x Hwf Hx) as Hlt.
  unfold entity_triples. rewrite (Hheap x Hlt).
  destruct (heap g !! x) as [X|] eqn:HX; [|done].
  apply map_ext_in. intros r Hr%list_elem_of_In. f_equal.
  apply ename_lookup_eq, Hheap. by eapply (wf_targets g Hwf).
Qed.

Lemma triples_perm_alter g e E R :
  NoDup (all_entities g) -> e ∈ all_entities g -> heap g !! e = Some E ->
  triples {| heap := alter (push_relation R) e (heap g); gHash := gHash g |}
  ≡ₚ (name E, rel R, ename g (target R)) :: triples g.
Proof.
  intros Hnd He HE. unfold triples.
  rewrite (all_entities_heap_irrel _ (heap g) (gHash g)).
  replace {| heap := heap g; gHash := gHash g |} with g by (by destruct g).
  apply (concat_map_cons_perm _ _ _ e); [done|done|..].
  - unfold entity_triples. cbn [heap]. rewrite list_lookup_alter_eq, HE.
    cbn [fmap option_fmap option_map push_relation name relations map].
    rewrite ename_alter_relations. f_equal.
    apply map_ext. intros r. by rewrite ename_alter_relations.
  - intros j Hj. unfold entity_triples. cbn [heap].
    rewrite list_lookup_alter_ne by done.
    destruct (heap g !! j); [|done].
    apply map_ext. intros r. by rewrite ename_alter_relations.
Qed.

Lemma triples_perm_add_relationship s l t g :
  table_ok g -> (length s < NAME_LEN)%nat -> (length t < NAME_LEN)%nat ->
  triples (add_relationship s l t g) ≡ₚ (s, strncpy l (REL_LEN - 1), t) :: triples g.
Proof.
  intros Hok Hs Ht. pose proof (proj1 Hok) as Hwf.
  pose proof (table_ok_get_or_create s g Hok) as Hok1.
  unfold add_relationship.
  destruct (get_or_create_entity s g) as [pS g1] eqn:H1. cbn [snd] in Hok1.
  destruct (get_or_create_spec s g pS g1 Hwf Hs H1) as (Hwf1 & HpS & HnS & Hall1 & _ & _).
  pose proof (triples_perm_get_or_create s g pS g1 Hwf Hs H1) as HP1.
  pose proof (table_ok_get_or_create t g1 Hok1) as Hok2.
  destruct (get_or_create_entity t g1) as [pT g2] eqn:H2. cbn [snd] in Hok2.
  destruct (get_or_create_spec t g1 pT g2 Hwf1 Ht H2) as (Hwf2 & HpT & HnT & Hall2 & Hheap2 & _).
  pose proof (triples_perm_get_or_create t g1 pT g2 Hwf1 Ht H2) as HP2.
  pose proof (all_entities_lt g1 pS Hwf1 HpS) as HltS.
  assert (HpS2 : pS ∈ all_entities g2) by (apply Hall2; by left).
  assert (HnS2 : ename g2 pS = s).
  { rewrite <- HnS. apply ename_lookup_eq. by apply Hheap2. }
  pose proof (all_entities_lt g2 pS Hwf2 HpS2) as HltS2.
  apply lookup_lt_is_Some in HltS2 as [E HE].
  rewrite (triples_perm_alter g2 pS E _ (proj2 (proj2 Hok2)) HpS2 HE).
  cbn [rel target]. rewrite HnT, HP2, HP1.
  unfold ename in HnS2. rewrite HE in HnS2. cbn in HnS2. by rewrite HnS2.
Qed.

End TriplePerm.

(** X11: [add_relationship] between names that fit the buffer adds exactly
    one relation, the triple of the two names and the label cut to 127
    bytes, and keeps every relation there was, each as often as before: a
    triple entered twice is stored twice. *)
Theorem add_relationship_adds_one (s l t : cstr) (g : Graph) :
  table_ok g -> (length s < NAME_LEN)%nat -> (length t < NAME_LEN)%nat ->
  triples (add_relationship s l t g) ≡ₚ (s, strncpy l (REL_LEN - 1), t) :: triples g /\
  length (triples (add_relationship s l t g)) = S (length (triples g)).
Proof.
  intros Hok Hs Ht.
  pose proof (triples_perm_add_relationship s l t g Hok Hs Ht) as HP.
  split; [done|]. by rewrite HP.
Qed.

Lemma add_relationship_adds_one_witness :
  table_ok abc_graph /\
  length (triples (add_relationship (lit "Alice") (lit "knows") (lit "Bob") abc_graph)) = 4%nat.
Proof.
  split; [apply table_ok_abc_graph|].
  apply (add_relationship_adds_one (lit "Alice") (lit "knows") (lit "Bob") abc_graph
           table_ok_abc_graph); vm_compute; lia.
Defined.

(** * More of the code: display *)

Section DisplayFacts.

Lemma find_after_get_or_create nm g e g' :
  (length nm < NAME_LEN)%nat -> get_or_create_entity nm g = (e, g') ->
  find_entity_exact nm g' = Some e.
Proof.
  intros Hlen [[Hf ->]|[Hnone Hc]]%get_or_create_found; [done|].
  assert (g' = snd (create_entity nm g)) as -> by (by rewrite <- Hc).
  assert (e = length (heap g)) as -> by (by injection Hc).
  by apply find_after_create.
Qed.

Lemma find_kept_get_or_create nm k g e g' x :
  wf g -> (length nm < NAME_LEN)%nat -> get_or_create_entity nm g = (e, g') ->
  find_entity_exact k g = Some x -> find_entity_exact k g' = Some x.
Proof.
  intros Hwf Hlen [[Hf ->]|[Hnone Hc]]%get_or_create_found Hk; [done|].
  assert (g' = snd (create_entity nm g)) as -> by (by rewrite <- Hc).
  rewrite find_entity_exact_create by done.
  rewrite short_strncpy by done.
  destruct (decide (k = nm)) as [->|]; [congruence|done].
Qed.

Lemma find_alter_relations k g e R :
  find_entity_exact k {| heap := alter (push_relation R) e (heap g); gHash := gHash g |}
  = find_entity_exact k g.
Proof.
  unfold find_entity_exact. cbn [heap].
  rewrite (bucket_heap_irrel _ (heap g) (gHash g)).
  replace {| heap := heap g; gHash := gHash g |} with g by (by destruct g).
  apply find_in_chain_names. intros x. rewrite list_lookup_alter.
  destruct (decide (e = x)) as [->|]; [|done]. by destruct (heap g !! x).
Qed.

End DisplayFacts.

(** X12: a relation just added is the first row that [display_connections]
    shows for its source; the rows below are the rows shown before, none if
    the source is new. *)
Theorem display_connections_newest_first (s l t : cstr) (g : Graph) (con : Console) :
  wf g -> (length s < NAME_LEN)%nat -> (length t < NAME_LEN)%nat ->
  (display_connections s false (add_relationship s l t g) con).1 =
  ConnectionsOf s
    ((t, strncpy l (REL_LEN - 1)) ::
     match (display_connections s false g con).1 with
     | ConnectionsOf _ rows => rows
     | EntityNotFound => []
     end).
Proof.
  intros Hwf Hs Ht. unfold display_connections, resolve. cbn [fst].
  unfold add_relationship.
  destruct (get_or_create_entity s g) as [pS g1] eqn:H1.
  destruct (get_or_create_spec s g pS g1 Hwf Hs H1) as (Hwf1 & HpS & HnS & _ & Hheap1 & Hnew1).
  pose proof (find_after_get_or_create s g pS g1 Hs H1) as Hf1.
  destruct (get_or_create_entity t g1) as [pT g2] eqn:H2.
  destruct (get_or_create_spec t g1 pT g2 Hwf1 Ht H2) as (Hwf2 & HpT & HnT & _ & Hheap2 & _).
  pose proof (find_kept_get_or_create t s g1 pT g2 pS Hwf1 Ht H2 Hf1) as Hf2.
  pose proof (all_entities_lt g1 pS Hwf1 HpS) as HltS.
  pose proof (Hheap2 pS HltS) as HS2.
  rewrite find_alter_relations, Hf2. cbn [fst].
  rewrite ename_alter_relations.
  assert (HnS2 : ename g2 pS = s) by (rewrite <- HnS; by apply ename_lookup_eq).
  rewrite HnS2. f_equal. cbn [heap]. rewrite list_lookup_alter_eq.
  apply lookup_lt_is_Some in HltS as [E HE]. rewrite HS2, HE.
  cbn [fmap option_fmap option_map from_option push_relation relations map rel target].
  rewrite ename_alter_relations, HnT. f_equal.
  assert (Hrows : forall E0, heap g !! pS = Some E0 -> relations E = relations E0 ->
            map (fun r => (ename {| heap := alter (push_relation {| rel := strncpy l (REL_LEN - 1);
                                     target := pT |}) pS (heap g2); gHash := gHash g2 |}
                                 (target r), rel r)) (relations E)
            = map (fun r => (ename g (target r), rel r)) (relations E0)).
  { intros E0 HE0 ->. apply map_ext_in. intros r Hr%list_elem_of_In.
    rewrite ename_alter_relations. f_equal.
    pose proof (wf_targets g Hwf pS E0 r HE0 Hr) as Hlt.
    transitivity (ename g1 (target r)); apply ename_lookup_eq.
    - apply Hheap2. pose proof (get_or_create_length s g) as Hle.
      rewrite H1 in Hle. cbn [snd] in Hle. lia.
    - by apply Hheap1. }
  destruct (get_or_create_found s g pS g1 H1) as [[Hf ->]|[Hnone Hc]].
  - rewrite Hf. cbn [fst]. rewrite HE. cbn [from_option]. by apply Hrows.
  - rewrite Hnone. cbn [fst].
    destruct (Hnew1 Hnone) as (_ & E' & HE' & Hrel).
    rewrite HE in HE'. simplify_eq. by rewrite Hrel.
Qed.

Lemma display_connections_newest_first_witness :
  wf abc_graph /\
  (display_connections (lit "Bob") false
     (add_relationship (lit "Bob") (lit "likes") (lit "Alice") abc_graph) con0).1 =
  ConnectionsOf (lit "Bob") [(lit "Alice", lit "likes"); (lit "Carol", lit "knows")].
Proof.
  split; [apply table_ok_abc_graph|].
  rewrite (display_connections_newest_first (lit "Bob") (lit "likes") (lit "Alice") abc_graph con0
             (proj1 table_ok_abc_graph)) by (vm_compute; lia).
  vm_compute. reflexivity.
Defined.

(** * More of the code: the suggestion menu *)

Section MenuFacts.

Lemma collect_length test g es sugg :
  (length sugg <= SUGGEST_MAX)%nat -> (length (collect test g es sugg) <= SUGGEST_MAX)%nat.
Proof.
  revert sugg. induction es as [|e es IH]; intros sugg Hlen; [done|]. cbn [collect].
  destruct (length sugg <? SUGGEST_MAX)%nat eqn:Hlt; [|done].
  apply Nat.ltb_lt in Hlt. apply IH.
  destruct (test (ename g e)); [|done]. rewrite length_app. simpl. lia.
Qed.

Lemma stdout_console_read_line n con : stdout (console_read_line n con).2 = stdout con.
Proof. unfold console_read_line. by destruct (read_line n (stdin con)). Qed.

Lemma fuzzy_pick_output g l con :
  let r := fuzzy_pick_from_suggestions g l (Z.of_nat (length l)) con in
  ((length l <= 1)%nat /\ r.2 = con) \/
  ((2 <= length l)%nat /\
   (stdout r.2 = stdout con ++ [DidYouMean (map (ename g) l)] \/
    stdout r.2 = stdout con ++ [DidYouMean (map (ename g) l); CancelledSelection] /\
    r.1 = None)).
Proof.
  unfold fuzzy_pick_from_suggestions.
  destruct (Z.of_nat (length l) <=? 0) eqn:H0; [left; split; [lia|done]|].
  destruct (Z.of_nat (length l) =? 1) eqn:H1; [left; split; [lia|done]|].
  right. split; [lia|]. rewrite Nat2Z.id, firstn_all.
  pose proof (stdout_console_read_line 32 (print (DidYouMean (map (ename g) l)) con)) as Hout.
  destruct (console_read_line 32 _) as [buf con2]. cbn [snd] in Hout.
  destruct (_ && _); cbn [fst snd].
  - left. by rewrite Hout.
  - right. split; [|done]. cbn [print stdout]. rewrite Hout. cbn [print stdout].
    by rewrite <- app_assoc.
Qed.

End MenuFacts.

(** X13: what [search_entity_smart] can print and return.  An entity it
    returns is in the table.  It prints nothing, or one menu of candidates and
    after it at most the notice of a cancelled selection, and then it returns
    no entity; a menu has at least two and at most 16 names, each the name of
    an entity of the table. *)
Theorem search_entity_smart_menu (input : cstr) (g : Graph) (con : Console) :
  let r := search_entity_smart input g con in
  (forall e, r.1 = Some e -> e ∈ all_entities g) /\
  (stdout r.2 = stdout con \/
   exists l, (2 <= length l <= SUGGEST_MAX)%nat /\
     Forall (fun e => e ∈ all_entities g) l /\
     (stdout r.2 = stdout con ++ [DidYouMean (map (ename g) l)] \/
      stdout r.2 = stdout con ++ [DidYouMean (map (ename g) l); CancelledSelection] /\
      r.1 = None)).
Proof.
  cbv zeta. split; [intros e; apply (resolve_in_table true)|].
  unfold search_entity_smart.
  destruct (squeeze_spaces (trim (strncpy input (NAME_LEN - 1)))) as [|c key]; [by left|].
  destruct (first_ci_match g (c :: key) (all_entities g)); [by left|].
  set (p := collect (prefix_test (c :: key)) g (all_entities g) []).
  set (l := if (length p =? 0)%nat
            then collect (substring_test (c :: key)) g (all_entities g) p else p).
  assert (Hlen : (length l <= SUGGEST_MAX)%nat).
  { assert (Hp : (length p <= SUGGEST_MAX)%nat)
      by (apply collect_length; simpl; unfold SUGGEST_MAX; lia).
    subst l. destruct (length p =? 0)%nat; [by apply collect_length|done]. }
  assert (Hin : Forall (fun e => e ∈ all_entities g) l).
  { apply Forall_forall. intros e He. subst l.
    destruct (length p =? 0)%nat eqn:Hp0.
    - apply Nat.eqb_eq in Hp0. destruct p; [|done]. by eapply collect_in_table.
    - by eapply collect_in_table. }
  destruct (fuzzy_pick_output g l con) as [[_ ->]|[H2 Hout]]; [by left|].
  right. exists l. split; [lia|]. split; done.
Qed.

(** * More of the code: path queries on small graphs *)

Section BfsBounds.

Context (src tgt : ptr).

Lemma bfs_inv_depth_le h Q D head :
  bfs_inv src tgt h Q D head -> forall i d, D !! i = Some d -> (d <= i)%nat.
Proof.
  intros Hinv i. induction i as [i IH] using lt_wf_ind. intros d Hd.
  destruct (inv_src _ _ _ _ _ _ Hinv) as (_ & Hd0 & _).
  destruct (decide (i = 0)%nat) as [->|Hi]; [rewrite Hd0 in Hd; simplify_eq; lia|].
  assert (Hq : is_Some (Q !! i)).
  { apply lookup_lt_is_Some. rewrite <- (inv_len _ _ _ _ _ _ Hinv).
    by apply lookup_lt_Some in Hd. }
  destruct Hq as [e Hq].
  destruct (inv_par _ _ _ _ _ _ Hinv i e ltac:(lia) Hq)
    as (E & p & j & d' & _ & _ & _ & _ & Hdj & Hdi).
  rewrite Hd in Hdi. simplify_eq.
  assert (j < i)%nat as Hji.
  { destruct (decide (j < i)%nat) as [|Hge]; [done|].
    pose proof (inv_sorted _ _ _ _ _ _ Hinv i j (S d') d' ltac:(lia) Hd Hdj). lia. }
  pose proof (IH j Hji d' Hdj). lia.
Qed.

Lemma nodup_bounded_length (l : list nat) n :
  NoDup l -> (forall x, x ∈ l -> (x < n)%nat) -> (length l <= n)%nat.
Proof.
  intros Hnd Hlt.
  assert (Hs : l ⊆+ seq 0 n).
  { apply NoDup_submseteq; [done|]. intros x Hx. apply elem_of_seq.
    specialize (Hlt x Hx). lia. }
  apply submseteq_length in Hs. by rewrite length_seq in Hs.
Qed.

Lemma bfs_inv_queue_le h Q D head :
  bfs_inv src tgt h Q D head -> (length Q <= length h)%nat.
Proof.
  intros Hinv. apply nodup_bounded_length; [apply (inv_nodup _ _ _ _ _ _ Hinv)|].
  intros e (E & HE & _)%(inv_vis _ _ _ _ _ _ Hinv). by apply lookup_lt_Some in HE.
Qed.

Lemma walk_prev_enough h Q D head :
  bfs_inv src tgt h Q D head ->
  forall room i e d, Q !! i = Some e -> D !! i = Some d -> (d < room)%nat ->
  exists st, walk_prev room h (Some e) = inr st.
Proof.
  intros Hinv. induction room as [|room IH]; intros i e d Hq Hd Hroom; [lia|].
  cbn [walk_prev].
  assert (Hin : e ∈ Q) by (by eapply list_elem_of_lookup_2).
  apply (inv_vis _ _ _ _ _ _ Hinv) in Hin as (E & HE & _). rewrite HE.
  destruct (inv_src _ _ _ _ _ _ Hinv) as (Hq0 & Hd0 & E0 & HE0 & Hp0).
  destruct (decide (i = 0)%nat) as [->|Hi].
  - rewrite Hq0 in Hq. injection Hq as <-. rewrite HE in HE0. injection HE0 as <-.
    rewrite Hp0. exists [src]. by destruct room.
  - destruct (inv_par _ _ _ _ _ _ Hinv i e ltac:(lia) Hq)
      as (E' & p & j & d' & HE' & Hp & Hj & _ & Hdj & Hdi).
    simplify_eq. rewrite Hp.
    destruct (IH j p d' Hj Hdj ltac:(lia)) as [st ->]. by eexists.
Qed.

Lemma bfs_scan_no_overflow cur rs :
  forall h Q cap,
  NoDup Q ->
  (forall e, e ∈ Q <-> exists E, h !! e = Some E /\ visited E <> 0) ->
  (length h <= cap)%nat ->
  bfs_scan cur rs h Q cap <> inl QueueOverflow /\
  bfs_scan cur rs h Q cap <> inl StackOverflow.
Proof.
  induction rs as [|r rs IH]; intros h Q cap Hnd Hvis Hcap; [done|].
  cbn [bfs_scan]. destruct (h !! target r) as [E|] eqn:HE; [|done].
  destruct (visited E =? 0) eqn:Hv; [|by apply IH].
  apply Z.eqb_eq in Hv.
  assert (Hnot : target r ∉ Q).
  { intros (E' & HE' & Hv')%Hvis. congruence. }
  assert (Hlen : (length (target r :: Q) <= length h)%nat).
  { apply nodup_bounded_length; [by constructor|].
    intros x [->|Hx]%elem_of_cons.
    - by apply lookup_lt_Some in HE.
    - apply Hvis in Hx as (X & HX & _). by apply lookup_lt_Some in HX. }
  cbn [length] in Hlen.
  destruct (cap <=? length Q)%nat eqn:Hc; [apply Nat.leb_le in Hc; lia|].
  apply IH.
  - apply NoDup_app. split; [done|]. split; [|apply NoDup_singleton].
    intros x Hx ->%list_elem_of_singleton. done.
  - intros e. rewrite elem_of_app, list_elem_of_singleton.
    destruct (decide (e = target r)) as [->|Hne].
    + rewrite list_lookup_insert_eq by (by eapply lookup_lt_Some).
      split; [|by right]. intros _. eexists. split; [done|]. simpl. lia.
    + rewrite list_lookup_insert_ne by done. rewrite Hvis. naive_solver.
  - by rewrite length_insert.
Qed.

Lemma bfs_loop_no_overflow fuel :
  forall h Q D head cap,
  bfs_inv src tgt h Q D head ->
  (forall a b, succ h a b -> (b < length h)%nat) ->
  (length h <= cap)%nat ->
  (bfs_loop fuel tgt h Q head cap).1 <> BfsFault QueueOverflow /\
  (bfs_loop fuel tgt h Q head cap).1 <> BfsFault StackOverflow.
Proof.
  induction fuel as [|fuel IH]; intros h Q D head cap Hinv Hvalid Hcap; [done|].
  cbn [bfs_loop]. destruct (Q !! head) as [cur|] eqn:Hcur; [|done].
  set (cap' := if (cap <=? length Q)%nat then (cap * 2)%nat else cap).
  assert (Hcap' : (length h <= cap')%nat).
  { subst cap'. destruct (cap <=? length Q)%nat; lia. }
  destruct (cur =? tgt)%nat eqn:Htgt; [done|].
  apply Nat.eqb_neq in Htgt.
  destruct (h !! cur) as [E|] eqn:HE; [|done].
  pose proof (bfs_scan_no_overflow cur (relations E) h Q cap'
                (inv_nodup _ _ _ _ _ _ Hinv) (inv_vis _ _ _ _ _ _ Hinv) Hcap') as [Hno1 Hno2].
  destruct (bfs_scan cur (relations E) h Q cap') as [f|[h' Q']] eqn:Hscan.
  - cbn [fst]. split; congruence.
  - destruct (bfs_scan_inv src tgt _ head cur (relations E) h Q D h' Q' Hinv Hcur
                ltac:(intros r Hr; by exists E, r) Hscan)
      as (D' & Hinv' & Hcur' & HQ & HD & Hdone).
    pose proof (bfs_scan_shape _ _ _ _ _ _ _ Hscan) as Hshape.
    assert (Hlen : length h' = length h).
    { apply (f_equal length) in Hshape. by rewrite !length_fmap in Hshape. }
    apply (IH h' Q' D' (S head)).
    + apply (bfs_inv_advance src tgt h' Q' D' head cur Hinv' Hcur' Htgt).
      intros b Hb.
      destruct (succ_shape _ _ _ _ Hshape Hb) as (E0 & r & HE0 & Hr & <-).
      rewrite HE in HE0. simplify_eq. by apply Hdone.
    + intros a b Hab. apply (succ_shape _ _ _ _ Hshape) in Hab.
      rewrite Hlen. by eapply Hvalid.
    + by rewrite Hlen.
Qed.

End BfsBounds.

Section QueryFacts.

Lemma shape_lookup g g' e :
  clear_marks <$> heap g = clear_marks <$> heap g' ->
  name <$> (heap g !! e) = name <$> (heap g' !! e) /\
  relations <$> (heap g !! e) = relations <$> (heap g' !! e).
Proof.
  intros H. apply (f_equal (fun l => l !! e)) in H.
  rewrite !list_lookup_fmap in H.
  destruct (heap g !! e) as [[]|], (heap g' !! e) as [[]|]; simpl in *; by simplify_eq.
Qed.

Lemma triples_shape g g' :
  gHash g = gHash g' -> clear_marks <$> heap g = clear_marks <$> heap g' ->
  triples g = triples g'.
Proof.
  intros Hh Hs. unfold triples. rewrite (all_entities_gHash g g' Hh).
  apply concat_map_ext_in. intros e _. unfold entity_triples.
  destruct (shape_lookup g g' e Hs) as [Hn Hr].
  destruct (heap g !! e) as [E|], (heap g' !! e) as [E'|]; simpl in *; try done.
  simplify_eq. rewrite Hn, Hr. apply map_ext. intros r. by rewrite (ename_shape g g').
Qed.

Lemma find_entity_exact_shape k g g' :
  gHash g = gHash g' -> clear_marks <$> heap g = clear_marks <$> heap g' ->
  find_entity_exact k g = find_entity_exact k g'.
Proof.
  intros Hh Hs. unfold find_entity_exact, bucket. rewrite Hh.
  apply find_in_chain_names. intros e. by apply shape_lookup.
Qed.

Lemma bfs_loop_found_depth src tgt g :
  wf g -> (src < length (heap g))%nat ->
  (bfs_run src tgt g).1 = BfsFound ->
  exists st, walk_prev (S (length (heap g))) (bfs_run src tgt g).2 (Some tgt) = inr st.
Proof.
  intros Hwf Hsrc Hfound.
  pose proof (bfs_run_shape src tgt g) as Hshape.
  pose proof (bfs_inv_init src tgt g (wf_indexed g Hwf) Hsrc) as Hinit.
  assert (Hshape1 : clear_marks <$> alter mark_visited src (heap (reset_bfs_marks g))
                    = clear_marks <$> heap g).
  { rewrite shape_alter by done. apply shape_reset. }
  assert (Hvalid : forall a b,
            succ (alter mark_visited src (heap (reset_bfs_marks g))) a b ->
            (b < length (alter mark_visited src (heap (reset_bfs_marks g))))%nat).
  { intros a b (E & r & HE & Hr & <-)%(succ_shape _ _ _ _ Hshape1).
    apply (f_equal length) in Hshape1. rewrite !length_fmap in Hshape1.
    rewrite Hshape1. by eapply (wf_targets g Hwf). }
  pose proof (bfs_loop_inv src tgt (S (length (alter mark_visited src (heap (reset_bfs_marks g)))))
                _ [src] [0%nat] 0%nat QUEUE_INIT Hinit Hvalid) as Hloop.
  fold (bfs_run src tgt g) in Hloop. rewrite Hfound in Hloop.
  destruct Hloop as (Q' & D' & head' & d & Hinv & Hq & Hd).
  apply (walk_prev_enough src tgt _ Q' D' head' Hinv _ head' tgt d Hq Hd).
  pose proof (bfs_inv_depth_le src tgt _ _ _ _ Hinv head' d Hd).
  pose proof (bfs_inv_queue_le src tgt _ _ _ _ Hinv) as Hle.
  apply lookup_lt_Some in Hq.
  apply (f_equal length) in Hshape. rewrite !length_fmap in Hshape. lia.
Qed.

Lemma walk_prev_more room room' h p st :
  walk_prev room h p = inr st -> (room <= room')%nat -> walk_prev room' h p = inr st.
Proof.
  revert room' p st. induction room as [|room IH]; intros room' p st.
  - destruct p; [done|]. simpl. intros [= <-] _. by destruct room'.
  - destruct p as [q|]; [|intros [= <-] _; by destruct room'].
    destruct room' as [|room']; [lia|]. cbn [walk_prev].
    destruct (h !! q) as [E|]; [|done].
    destruct (walk_prev room h (prev E)) as [f|st'] eqn:Hw; [done|].
    intros [= <-] Hle. by rewrite (IH room' (prev E) st' Hw ltac:(lia)).
Qed.

Lemma bfs_run_small src tgt g :
  wf g -> (src < length (heap g))%nat -> (length (heap g) <= QUEUE_INIT)%nat ->
  forall f, (bfs_run src tgt g).1 <> BfsFault f.
Proof.
  intros Hwf Hsrc Hsmall f.
  pose proof (bfs_run_fuel src tgt g) as Hfuel.
  pose proof (bfs_inv_init src tgt g (wf_indexed g Hwf) Hsrc) as Hinit.
  assert (Hshape1 : clear_marks <$> alter mark_visited src (heap (reset_bfs_marks g))
                    = clear_marks <$> heap g).
  { rewrite shape_alter by done. apply shape_reset. }
  assert (Hlen1 : length (alter mark_visited src (heap (reset_bfs_marks g))) = length (heap g)).
  { apply (f_equal length) in Hshape1. by rewrite !length_fmap in Hshape1. }
  assert (Hvalid : forall a b,
            succ (alter mark_visited src (heap (reset_bfs_marks g))) a b ->
            (b < length (alter mark_visited src (heap (reset_bfs_marks g))))%nat).
  { intros a b (E & r & HE & Hr & <-)%(succ_shape _ _ _ _ Hshape1).
    rewrite Hlen1. by eapply (wf_targets g Hwf). }
  pose proof (bfs_loop_inv src tgt (S (length (alter mark_visited src (heap (reset_bfs_marks g)))))
                _ [src] [0%nat] 0%nat QUEUE_INIT Hinit Hvalid) as Hloop.
  pose proof (bfs_loop_no_overflow src tgt
                (S (length (alter mark_visited src (heap (reset_bfs_marks g)))))
                _ [src] [0%nat] 0%nat QUEUE_INIT Hinit Hvalid ltac:(lia)) as [Hq Hst].
  fold (bfs_run src tgt g) in Hloop, Hq, Hst.
  destruct (bfs_run src tgt g) as [out h2]. cbn [fst] in *.
  intros ->. destruct f; done.
Qed.

End QueryFacts.

(** X14: on a graph of at most 128 entities a path query stays within the
    queue and the stack of [find_path_bfs]: its report is never the outcome
    of an out-of-bounds write, whatever the inputs. *)
Theorem find_path_bfs_small_graph (g : Graph) (s t : cstr) (fz : bool) (con : Console) :
  wf g -> (length (heap g) <= QUEUE_INIT)%nat ->
  forall f, (find_path_bfs s t fz g con).1.1 <> Undefined f.
Proof.
  intros Hwf Hsmall f. unfold find_path_bfs.
  destruct (resolve fz s g con) as [[src|] con1] eqn:Hs; cbn [fst];
    destruct (resolve fz t g con1) as [[tgt|] con2]; cbn [fst]; try done.
  assert (Hsrc : (src < length (heap g))%nat).
  { apply (all_entities_lt g src Hwf), (resolve_in_table fz s g con). by rewrite Hs. }
  pose proof (bfs_run_small src tgt g Hwf Hsrc Hsmall) as Hrun.
  pose proof (bfs_loop_found_depth src tgt g Hwf Hsrc) as Hwalk.
  unfold bfs_from. destruct (bfs_run src tgt g) as [out h2]. cbn [fst snd] in *.
  destruct out as [| |f']; cbn [fst]; [|done|by destruct (Hrun f')].
  destruct (Hwalk eq_refl) as [st Hst].
  rewrite (walk_prev_more _ PATH_STACK _ _ _ Hst); [done|].
  revert Hsmall. unfold PATH_STACK, QUEUE_INIT. lia.
Qed.

Lemma find_path_bfs_small_graph_witness :
  wf abc_graph /\
  forall f, (find_path_bfs (lit "Alice") (lit "Carol") false abc_graph con0).1.1 <> Undefined f.
Proof.
  split; [apply table_ok_abc_graph|].
  apply (find_path_bfs_small_graph abc_graph (lit "Alice") (lit "Carol") false con0
           (proj1 table_ok_abc_graph)).
  vm_compute. lia.
Defined.

(** X15: when source and target resolve to the same entity, the path
    reported is that entity alone. *)
Theorem find_path_bfs_same_entity (g : Graph) (s t : cstr) (fz : bool) (con : Console)
    (e : ptr) :
  wf g ->
  (resolve fz s g con).1 = Some e ->
  (resolve fz t g (resolve fz s g con).2).1 = Some e ->
  (find_path_bfs s t fz g con).1.1 = PathFound [ename g e].
Proof.
  intros Hwf Hs Ht.
  pose proof (all_entities_lt g e Hwf (resolve_in_table _ _ _ _ _ Hs)) as He.
  pose proof (bfs_from_same g e (wf_indexed g Hwf) He) as H.
  unfold find_path_bfs.
  destruct (resolve fz s g con) as [src' con1]. cbn [fst snd] in *. subst src'.
  destruct (resolve fz t g con1) as [tgt' con2]. cbn [fst snd] in *. subst tgt'.
  by destruct (bfs_from e e g) as [r g'].
Qed.

Lemma find_path_bfs_same_entity_witness :
  wf abc_graph /\
  (find_path_bfs (lit "Bob") (lit "Bob") false abc_graph con0).1.1 = PathFound [lit "Bob"].
Proof.
  split; [apply table_ok_abc_graph|].
  apply (find_path_bfs_same_entity abc_graph (lit "Bob") (lit "Bob") false con0 1
           (proj1 table_ok_abc_graph)); vm_compute; reflexivity.
Defined.

(** X16: a path query that stays within its queue and its stack changes
    marks only: the table, the exact lookup, the relations and the text that
    [save_to_file] writes are after the query what they were before it. *)
Theorem find_path_bfs_keeps_data (g : Graph) (s t : cstr) (fz : bool) (con : Console) :
  (forall f, (find_path_bfs s t fz g con).1.1 <> Undefined f) ->
  all_entities (find_path_bfs s t fz g con).1.2 = all_entities g /\
  (forall k, find_entity_exact k (find_path_bfs s t fz g con).1.2 = find_entity_exact k g) /\
  triples (find_path_bfs s t fz g con).1.2 = triples g /\
  save_to_file (find_path_bfs s t fz g con).1.2 = save_to_file g.
Proof.
  intros Hdef. destruct (find_path_bfs_graph s t fz g con Hdef) as [Hh Hs].
  split; [by apply all_entities_gHash|]. split; [intros k; by apply find_entity_exact_shape|].
  split; [by apply triples_shape|].
  rewrite !save_to_file_triples. f_equal. f_equal. by apply triples_shape.
Qed.

Lemma find_path_bfs_keeps_data_witness :
  (forall f, (find_path_bfs (lit "Alice") (lit "Carol") false abc_graph con0).1.1
             <> Undefined f) /\
  triples (find_path_bfs (lit "Alice") (lit "Carol") false abc_graph con0).1.2
    = triples abc_graph /\
  save_to_file (find_path_bfs (lit "Alice") (lit "Carol") false abc_graph con0).1.2
    = save_to_file abc_graph.
Proof.
  assert (H : forall f, (find_path_bfs (lit "Alice") (lit "Carol") false abc_graph con0).1.1
                        <> Undefined f).
  { intros f. rewrite find_path_bfs_direct_edge. discriminate. }
  split; [exact H|].
  destruct (find_path_bfs_keeps_data abc_graph (lit "Alice") (lit "Carol") false con0 H)
    as (_ & _ & H3 & H4).
  split; [exact H3|exact H4].
Defined.

(** * More of the code: lines of the relation file *)

Section ParseFacts.

Lemma strchr_split s c n :
  strchr s c = Some n -> exists a rest, s = a ++ c :: rest /\ (c ∉ a) /\ length a = n.
Proof.
  revert n. induction s as [|x s IH]; intros n; simpl; [done|].
  destruct (ascii_eqb x c) eqn:Hx.
  - intros [= <-]. apply ascii_eqb_true in Hx as ->.
    exists [], s. split; [done|]. split; [apply not_elem_of_nil|done].
  - destruct (strchr s c) as [m|]; [|done]. simpl. intros [= <-].
    destruct (IH m eq_refl) as (a & rest & -> & Ha & Hlen).
    exists (x :: a), rest. split; [done|]. split; [|simpl; by rewrite Hlen].
    apply not_elem_of_cons. split; [|done]. intros ->. by rewrite ascii_eqb_refl in Hx.
Qed.

Lemma parse_relation_line_empty_segment (a b c : cstr) :
  BAR ∉ a -> BAR ∉ b -> a = [] \/ b = [] \/ c = [] ->
  parse_relation_line (a ++ BAR :: b ++ BAR :: c) = None.
Proof.
  intros Ha Hb He. unfold parse_relation_line.
  rewrite (strchr_app a BAR _ Ha), drop_past.
  rewrite (strchr_app b BAR _ Hb), drop_past.
  destruct He as [-> | [-> | ->]]; cbn [length Nat.eqb orb]; [done| |].
  - by rewrite orb_true_r.
  - by rewrite orb_true_r.
Qed.

End ParseFacts.

(** X17: which lines [parse_relation_line] accepts.  A line with a first
    delimiter after [a] and a second after [b] is accepted exactly when none
    of the three segments is empty, and then gives each segment cut to 127
    bytes, trimmed and squeezed; the third segment runs to the end of the
    line, delimiters included.  A line without two delimiters is refused. *)
Theorem parse_relation_line_spec (line : cstr) :
  (forall a b c, line = a ++ BAR :: b ++ BAR :: c -> BAR ∉ a -> BAR ∉ b ->
     parse_relation_line line =
     if decide (a = [] \/ b = [] \/ c = []) then None
     else Some (normalize (strncpy a (NAME_LEN - 1)), normalize (strncpy b (REL_LEN - 1)),
                normalize (strncpy c (NAME_LEN - 1)))) /\
  ((forall a b c, line <> a ++ BAR :: b ++ BAR :: c) -> parse_relation_line line = None).
Proof.
  split.
  - intros a b c -> Ha Hb.
    destruct (decide (a = [] \/ b = [] \/ c = [])) as [He|Hne].
    + by apply parse_relation_line_empty_segment.
    + apply parse_relation_line_segments; try done; intros ->; apply Hne; auto.
  - intros Hno. unfold parse_relation_line.
    destruct (strchr line BAR) as [p1|] eqn:H1; [|done].
    destruct (strchr_split _ _ _ H1) as (a & rest & -> & Ha & <-).
    rewrite drop_past.
    destruct (strchr rest BAR) as [L2|] eqn:H2; [|done].
    destruct (strchr_split _ _ _ H2) as (b & c & -> & Hb & <-).
    by destruct (Hno a b c).
Qed.

Section LoadFacts.

Lemma load_step_report st buf :
  table_ok (ld_graph st) ->
  exists added sk,
    ld_count (load_step st buf) = ld_count st + Z.of_nat (length added) /\
    ld_bad (load_step st buf) = ld_bad st + Z.of_nat (length sk) /\
    ld_skipped (load_step st buf) = ld_skipped st ++ sk /\
    triples (ld_graph (load_step st buf)) ≡ₚ added ++ triples (ld_graph st) /\
    (length added + length sk <= 1)%nat /\
    Forall (fun x => parse_relation_line (trim (chomp buf)) = Some x) added.
Proof.
  intros Hok. unfold load_step.
  destruct (trim (chomp buf)) as [|c line] eqn:Hline.
  { exists [], []. cbn [ld_count ld_bad ld_skipped ld_graph length app].
    rewrite !Z.add_0_r, app_nil_r. repeat split; try done. lia. }
  destruct (ascii_eqb c HASHMARK).
  { exists [], []. cbn [ld_count ld_bad ld_skipped ld_graph length app].
    rewrite !Z.add_0_r, app_nil_r. repeat split; try done. lia. }
  destruct (parse_relation_line (c :: line)) as [[[src rl] tgt]|] eqn:Hparse.
  - destruct (parse_relation_line_short _ _ _ _ Hparse) as (Hsrc & Hrl & Htgt).
    exists [(src, rl, tgt)], []. cbn [ld_count ld_bad ld_skipped ld_graph length app].
    rewrite Z.add_0_r, app_nil_r.
    split; [done|]. split; [done|]. split; [done|]. split; [|split; [lia|]].
    + rewrite (triples_perm_add_relationship src rl tgt (ld_graph st) Hok Hsrc Htgt).
      change (REL_LEN - 1)%nat with (NAME_LEN - 1)%nat.
      by rewrite (short_strncpy rl Hrl).
    + by constructor.
  - exists [], [(ld_lineNo st + 1, c :: line)].
    cbn [ld_count ld_bad ld_skipped ld_graph length app]. rewrite Z.add_0_r.
    split; [done|]. split; [done|]. split; [done|]. split; [done|]. split; [lia|done].
Qed.

Lemma load_fold_report bufs :
  forall st, table_ok (ld_graph st) ->
  exists added sk,
    ld_count (foldl load_step st bufs) = ld_count st + Z.of_nat (length added) /\
    ld_bad (foldl load_step st bufs) = ld_bad st + Z.of_nat (length sk) /\
    ld_skipped (foldl load_step st bufs) = ld_skipped st ++ sk /\
    triples (ld_graph (foldl load_step st bufs)) ≡ₚ added ++ triples (ld_graph st) /\
    (length added + length sk <= length bufs)%nat /\
    Forall (fun x => exists buf, buf ∈ bufs /\
                       parse_relation_line (trim (chomp buf)) = Some x) added.
Proof.
  induction bufs as [|buf bufs IH]; intros st Hok.
  - exists [], []. cbn [foldl length app]. rewrite !Z.add_0_r, app_nil_r.
    repeat split; try done.
  - cbn [foldl].
    destruct (IH (load_step st buf) (table_ok_load_step st buf Hok))
      as (added & sk & Hc & Hb & Hs & Ht & Hl & Hp).
    destruct (load_step_report st buf Hok) as (a1 & s1 & Hc1 & Hb1 & Hs1 & Ht1 & Hl1 & Hp1).
    exists (added ++ a1), (s1 ++ sk). rewrite !length_app. cbn [length].
    split; [lia|]. split; [lia|]. split; [by rewrite Hs, Hs1, <- app_assoc|].
    split; [by rewrite Ht, Ht1, <- app_assoc|]. split; [lia|].
    apply Forall_app. split.
    + eapply Forall_impl; [exact Hp|]. intros x (b & Hin & Hx). exists b.
      split; [by right|done].
    + eapply Forall_impl; [exact Hp1|]. intros x Hx. exists buf. split; [by left|done].
Qed.

End LoadFacts.

(** X18: what an import does and reports.  The relations of the graph after
    the import are those before it and the relations parsed from lines of the
    file, nothing is lost; the count reported is the number of relations
    added, the number of invalid lines reported is the number of lines listed
    as skipped, and together they are at most the number of buffers read. *)
Theorem load_from_file_report (fp : list ascii) (g : Graph) :
  table_ok g ->
  exists added skipped,
    fst (load_from_file (Some fp) g)
      = Loaded (Z.of_nat (length added)) (Z.of_nat (length skipped)) skipped /\
    triples (snd (load_from_file (Some fp) g)) ≡ₚ added ++ triples g /\
    (length added + length skipped <= length (fgets_all fp))%nat /\
    Forall (fun x => exists buf, buf ∈ fgets_all fp /\
                       parse_relation_line (trim (chomp buf)) = Some x) added.
Proof.
  intros Hok. unfold load_from_file. cbn [fst snd].
  destruct (load_fold_report (fgets_all fp)
              {| ld_graph := g; ld_count := 0; ld_bad := 0; ld_lineNo := 0; ld_skipped := [] |}
              Hok) as (added & sk & Hc & Hb & Hs & Ht & Hl & Hp).
  cbn [ld_count ld_bad ld_skipped ld_graph] in *.
  exists added, sk. rewrite Hc, Hb, Hs. by rewrite !Z.add_0_l.
Qed.

Lemma load_from_file_report_witness :
  table_ok abc_graph /\
  exists added skipped,
    fst (load_from_file (Some (lit "Carol|likes|Dave" ++ [LF] ++ lit "oops" ++ [LF])) abc_graph)
      = Loaded (Z.of_nat (length added)) (Z.of_nat (length skipped)) skipped /\
    triples (snd (load_from_file (Some (lit "Carol|likes|Dave" ++ [LF] ++ lit "oops" ++ [LF]))
                    abc_graph)) ≡ₚ added ++ triples abc_graph.
Proof.
  split; [apply table_ok_abc_graph|].
  destruct (load_from_file_report (lit "Carol|likes|Dave" ++ [LF] ++ lit "oops" ++ [LF])
              abc_graph table_ok_abc_graph) as (added & sk & H1 & H2 & _).
  by exists added, sk.
Defined.

(** * More of the code: batch input *)

Section BatchFacts.

Lemma console_read_line_shrinks n con :
  (1 < n)%nat ->
  (length (stdin (console_read_line n con).2) <= length (stdin con))%nat /\
  ((console_read_line n con).1 <> [] ->
   (length (stdin (console_read_line n con).2) < length (stdin con))%nat) /\
  stdout (console_read_line n con).2 = stdout con.
Proof.
  intros Hn. unfold console_read_line, read_line, fgets.
  destruct (stdin con) as [|c s] eqn:Hs; [by cbn|].
  pose proof (fgets_take_length (n - 1) (c :: s) ltac:(lia) ltac:(done)) as Hlt.
  destruct (fgets_take (n - 1) (c :: s)) as [a b]. cbn [fst snd stdin stdout] in *.
  split; [lia|]. split; [intros _; lia|done].
Qed.

Lemma trim_nil : trim [] = [].
Proof. reflexivity. Qed.

Lemma batch_loop_returns fuel :
  forall i n g con,
  table_ok g -> n < INT_MAX ->
  (Z.to_nat (n + 1 - i) + length (stdin con) < fuel)%nat ->
  exists g' con' added,
    batch_loop fuel i n g con = BatchDone g' con' /\ table_ok g' /\
    triples g' ≡ₚ added ++ triples g /\ (length added <= Z.to_nat (n + 1 - i))%nat /\
    stdout con' = stdout con.
Proof.
  induction fuel as [|fuel IH]; intros i n g con Hok Hn Hfuel; [lia|].
  cbn [batch_loop]. destruct (n <? i) eqn:Hni.
  { exists g, con, []. split; [done|]. split; [done|]. split; [done|].
    split; [simpl; lia|done]. }
  apply Z.ltb_ge in Hni.
  destruct (console_read_line_shrinks LINE_BUF con ltac:(unfold LINE_BUF; lia))
    as (Hle & Hlt & Hout).
  destruct (console_read_line LINE_BUF con) as [line con1]. cbn [fst snd] in *.
  assert ((i =? INT_MAX) = false) as -> by (apply Z.eqb_neq; lia).
  assert (Hnext : forall g1 added1,
            table_ok g1 -> triples g1 ≡ₚ added1 ++ triples g -> (length added1 <= 1)%nat ->
            exists g' con' added,
              batch_loop fuel (i + 1) n g1 con1 = BatchDone g' con' /\ table_ok g' /\
              triples g' ≡ₚ added ++ triples g /\
              (length added <= Z.to_nat (n + 1 - i))%nat /\ stdout con' = stdout con).
  { intros g1 added1 Hok1 Hp1 Hl1.
    destruct (IH (i + 1) n g1 con1 Hok1 Hn ltac:(lia)) as (g' & con' & added & Hr & Hok' & Hp & Hl & Ho).
    exists g', con', (added ++ added1). rewrite length_app.
    split; [done|]. split; [done|]. split; [by rewrite Hp, Hp1, <- app_assoc|].
    split; [lia|congruence]. }
  destruct (trim line) as [|c l'] eqn:Htrim.
  { apply (Hnext g []); [done|reflexivity|simpl; lia]. }
  destruct (ascii_eqb c HASHMARK).
  { apply (Hnext g []); [done|reflexivity|simpl; lia]. }
  destruct (parse_relation_line (c :: l')) as [[[src rl] tgt]|] eqn:Hparse.
  - destruct (parse_relation_line_short _ _ _ _ Hparse) as (Hsrc & Hrl & Htgt).
    apply (Hnext _ [(src, rl, tgt)]); [by apply table_ok_add_relationship| |simpl; lia].
    rewrite (triples_perm_add_relationship src rl tgt g Hok Hsrc Htgt).
    change (REL_LEN - 1)%nat with (NAME_LEN - 1)%nat.
    by rewrite (short_strncpy rl Hrl).
  - assert (line <> []) as Hline by (intros ->; by rewrite trim_nil in Htrim).
    specialize (Hlt Hline).
    destruct (IH i n g con1 Hok Hn ltac:(lia)) as (g' & con' & added & Hr & Hok' & Hp & Hl & Ho).
    exists g', con', added. split; [done|]. split; [done|]. split; [done|].
    split; [done|congruence].
Qed.

Lemma batch_loop_eof fuel :
  forall i n g out,
  n < INT_MAX -> (Z.to_nat (n + 1 - i) < fuel)%nat ->
  batch_loop fuel i n g {| stdin := []; stdout := out |}
  = BatchDone g {| stdin := []; stdout := out |}.
Proof.
  induction fuel as [|fuel IH]; intros i n g out Hn Hfuel; [lia|].
  cbn [batch_loop]. destruct (n <? i) eqn:Hni; [done|].
  apply Z.ltb_ge in Hni.
  change (console_read_line LINE_BUF {| stdin := []; stdout := out |})
    with (@nil ascii, {| stdin := []; stdout := out |}).
  cbn iota. rewrite trim_nil.
  assert ((i =? INT_MAX) = false) as -> by (apply Z.eqb_neq; lia).
  apply IH; [done|lia].
Qed.

(** A file line written for a triple of tokens comes back as that triple. *)
Lemma line_of_triple s l t :
  triple_ok (s, l, t) ->
  let body := s ++ BAR :: l ++ BAR :: t in
  (forall rest, read_line LINE_BUF (relation_line s l t ++ rest) = (body, rest)) /\
  trim body = body /\
  (exists c b, body = c :: b /\ ascii_eqb c HASHMARK = false) /\
  parse_relation_line body = Some (s, l, t).
Proof.
  intros Hok body. pose proof Hok as (Hs & Hl & Ht & Hhash). cbn [fst snd] in *.
  pose proof Hs as (Hs0 & Hsn & Hsl & Hsb & Hsz).
  pose proof Hl as (Hl0 & Hln & Hll & Hlb & Hlz).
  pose proof Ht as (Ht0 & Htn & Htl & Htb & Htz).
  assert (Hnotin : forall c, c ∉ s -> c ∉ l -> c ∉ t -> c <> BAR -> c ∉ body).
  { intros c H1 H2 H3 H4. subst body.
    rewrite elem_of_app, elem_of_cons, elem_of_app, elem_of_cons. naive_solver. }
  assert (HLF : LF ∉ body) by (apply Hnotin; [by apply token_ok_no_break ..|done]).
  assert (HCR : CR ∉ body) by (apply Hnotin; [by apply token_ok_no_break ..|done]).
  assert (HNUL : NUL ∉ body) by (by apply Hnotin).
  destruct (relation_line_ok s l t Hok) as [_ Hlen]. fold body in Hlen.
  split; [|split; [|split]].
  - intros rest. rewrite relation_line_body. fold body.
    rewrite <- app_assoc. cbn [app]. unfold read_line.
    rewrite (fgets_line body rest HLF Hlen).
    f_equal. exact (chomp_line body [] HNUL HCR HLF).
  - destruct s as [|c s']; [done|].
    assert (Hc : isspace c = false) by exact (normalized_head _ _ _ Hsn eq_refl).
    apply (trim_id body c); [done|done|].
    intros d Hd. apply (normalized_last t d Htn).
    subst body. rewrite app_comm_cons, last_app in Hd.
    rewrite last_cons, last_app, last_cons in Hd.
    destruct (last t) as [d'|] eqn:Hlt; [done|].
    apply last_None in Hlt. done.
  - destruct s as [|c s']; [done|]. exists c, (s' ++ BAR :: l ++ BAR :: t).
    split; [done|]. apply ascii_eqb_false. intros ->. by apply Hhash.
  - subst body. rewrite (parse_relation_line_segments s l t) by done.
    change (REL_LEN - 1)%nat with (NAME_LEN - 1)%nat.
    rewrite !short_strncpy by done. by rewrite Hsn, Hln, Htn.
Qed.

Lemma batch_loop_lines (ts : list (cstr * cstr * cstr)) :
  forall fuel i g rest out,
  Forall triple_ok ts -> i + Z.of_nat (length ts) <= INT_MAX ->
  (length ts < fuel)%nat ->
  batch_loop fuel i (i + Z.of_nat (length ts) - 1) g
    {| stdin := concat (map (fun x => relation_line x.1.1 x.1.2 x.2) ts) ++ rest;
       stdout := out |}
  = BatchDone (foldl (fun g x => add_relationship x.1.1 x.1.2 x.2 g) g ts)
              {| stdin := rest; stdout := out |}.
Proof.
  induction ts as [|[[s l] t] ts IH]; intros fuel i g rest out Hts Hi Hfuel.
  - destruct fuel; [simpl in Hfuel; lia|]. cbn [batch_loop length map concat app foldl].
    assert ((i + Z.of_nat 0 - 1 <? i) = true) as -> by (apply Z.ltb_lt; lia). done.
  - destruct fuel; [lia|]. cbn [length] in *.
    apply Forall_cons in Hts as [Hx Hts].
    cbn [batch_loop map concat foldl fst snd].
    assert ((i + Z.of_nat (S (length ts)) - 1 <? i) = false) as -> by (apply Z.ltb_ge; lia).
    destruct (line_of_triple s l t Hx) as (Hread & Htrim & (c & b & Hbody & Hc) & Hparse).
    unfold console_read_line. cbn [stdin stdout]. rewrite <- app_assoc, Hread.
    rewrite Htrim. rewrite Hbody at 1. rewrite Hc. rewrite Hparse.
    assert ((i =? INT_MAX) = false) as -> by (apply Z.eqb_neq; lia).
    replace (i + Z.of_nat (S (length ts)) - 1) with (i + 1 + Z.of_nat (length ts) - 1) by lia.
    apply IH; [done|lia|lia].
Qed.

End BatchFacts.

Section ImportFacts.

Lemma load_from_file_lines (ts : list (cstr * cstr * cstr)) g :
  Forall triple_ok ts ->
  load_from_file (Some (concat (map (fun x => relation_line x.1.1 x.1.2 x.2) ts))) g
  = (Loaded (Z.of_nat (length ts)) 0 [],
     foldl (fun g x => add_relationship x.1.1 x.1.2 x.2 g) g ts).
Proof.
  intros Hok. unfold load_from_file.
  set (line := fun x : cstr * cstr * cstr => relation_line x.1.1 x.1.2 x.2).
  set (body := fun x : cstr * cstr * cstr => x.1.1 ++ BAR :: x.1.2 ++ BAR :: x.2).
  assert (Hmap : map line ts = map (fun b => b ++ [LF]) (map body ts)).
  { rewrite map_map. apply map_ext. intros [[s l] t]. apply relation_line_body. }
  rewrite Hmap, fgets_all_lines.
  2:{ apply Forall_forall. intros b (x & <- & Hx%list_elem_of_In)%list_elem_of_In%in_map_iff.
      destruct x as [[s l] t]. apply relation_line_ok.
      by apply (proj1 (Forall_forall _ _) Hok). }
  rewrite <- Hmap. subst line. rewrite (load_fold _ _ Hok).
  cbn [ld_graph ld_count ld_bad ld_skipped]. by rewrite Z.add_0_l.
Qed.

Lemma triples_no_relations g :
  (forall e E, heap g !! e = Some E -> relations E = []) -> triples g = [].
Proof.
  intros H. unfold triples. induction (all_entities g) as [|e es IH]; [done|].
  cbn [map concat]. rewrite IH, app_nil_r. unfold entity_triples.
  destruct (heap g !! e) as [E|] eqn:HE; [|done]. by rewrite (H e E HE).
Qed.

End ImportFacts.

(** X19: [batch_input_lines] returns, for every count below [INT_MAX] and
    every input: an invalid line is asked again, but each time it is, input
    has been consumed, and at the end of the input the lines still to come
    count as skipped.  The batch adds at most as many relations as lines
    were asked for and loses none; with no input waiting it changes nothing. *)
Theorem batch_input_lines_returns (n : Z) (g : Graph) (con : Console) :
  table_ok g -> n < INT_MAX ->
  exists g' con' added,
    batch_input_lines n g con = BatchDone g' con' /\
    table_ok g' /\
    triples g' ≡ₚ added ++ triples g /\ (length added <= Z.to_nat n)%nat /\
    (stdin con = [] -> g' = g).
Proof.
  intros Hok Hn. unfold batch_input_lines.
  destruct (batch_loop_returns (S (Z.to_nat n + length (stdin con))) 1 n g con Hok Hn
              ltac:(lia)) as (g' & con' & added & Hr & Hok' & Hp & Hl & _).
  exists g', con', added. split; [done|]. split; [done|]. split; [done|].
  split; [by replace (n + 1 - 1) with n in Hl by lia|].
  intros Hnil. destruct con as [inp out]. cbn [stdin] in *. subst inp.
  rewrite batch_loop_eof in Hr by (cbn [length]; lia). by injection Hr as <- _.
Qed.

Lemma batch_input_lines_returns_witness :
  table_ok empty_graph /\
  exists g' con' added,
    batch_input_lines 2 empty_graph
      {| stdin := lit "a|b|c" ++ [LF] ++ lit "oops" ++ [LF] ++ lit "d|e|f" ++ [LF];
         stdout := [] |} = BatchDone g' con' /\
    triples g' ≡ₚ added ++ triples empty_graph /\ (length added <= 2)%nat.
Proof.
  split; [apply table_ok_empty|].
  destruct (batch_input_lines_returns 2 empty_graph
              {| stdin := lit "a|b|c" ++ [LF] ++ lit "oops" ++ [LF] ++ lit "d|e|f" ++ [LF];
                 stdout := [] |} table_ok_empty ltac:(unfold INT_MAX; lia))
    as (g' & con' & added & H1 & _ & H3 & H4 & _).
  by exists g', con', added.
Defined.

(** X20: typing a relation file in is the same as importing it.  When the
    input starts with the lines of [n] triples of tokens (as [save_to_file]
    writes them), a batch of [n] lines builds the graph that
    [load_from_file] builds from those lines, and leaves the rest of the
    input unread. *)
Theorem batch_input_lines_as_import (ts : list (cstr * cstr * cstr)) (g : Graph)
    (rest : list ascii) (out : list Output) :
  Forall triple_ok ts -> Z.of_nat (length ts) < INT_MAX ->
  batch_input_lines (Z.of_nat (length ts)) g
    {| stdin := concat (map (fun x => relation_line x.1.1 x.1.2 x.2) ts) ++ rest;
       stdout := out |}
  = BatchDone
      (snd (load_from_file
              (Some (concat (map (fun x => relation_line x.1.1 x.1.2 x.2) ts))) g))
      {| stdin := rest; stdout := out |}.
Proof.
  intros Hts Hlen. rewrite (load_from_file_lines ts g Hts). cbn [snd].
  unfold batch_input_lines.
  pose proof (batch_loop_lines ts
                (S (Z.to_nat (Z.of_nat (length ts)) +
                    length (stdin {| stdin := concat (map (fun x => relation_line x.1.1 x.1.2 x.2) ts)
                                              ++ rest; stdout := out |})))
                1 g rest out Hts ltac:(lia) ltac:(lia)) as H.
  by replace (1 + Z.of_nat (length ts) - 1) with (Z.of_nat (length ts)) in H by lia.
Qed.

Lemma batch_input_lines_as_import_witness :
  Forall triple_ok (triples abc_graph) /\
  batch_input_lines 3 empty_graph
    {| stdin := save_to_file abc_graph ++ lit "more"; stdout := [] |}
  = BatchDone (snd (load_from_file (Some (save_to_file abc_graph)) empty_graph))
              {| stdin := lit "more"; stdout := [] |}.
Proof.
  split; [apply triples_ok_abc_graph|].
  rewrite save_to_file_triples.
  apply (batch_input_lines_as_import (triples abc_graph) empty_graph (lit "more") []
           triples_ok_abc_graph).
  vm_compute. reflexivity.
Defined.

(** X21: only relations are saved.  A graph in which no entity has a
    relation is written as the empty file, and reading that file back gives
    the empty table: the entities are not in it. *)
Theorem save_to_file_drops_isolated (g : Graph) :
  (forall e E, heap g !! e = Some E -> relations E = []) ->
  save_to_file g = [] /\
  load_from_file (Some (save_to_file g)) empty_graph = (Loaded 0 0 [], empty_graph).
Proof.
  intros H. rewrite save_to_file_triples, (triples_no_relations g H). by split.
Qed.

Lemma save_to_file_drops_isolated_witness :
  length (all_entities aab_graph) = 3%nat /\
  (forall e E, heap aab_graph !! e = Some E -> relations E = []) /\
  load_from_file (Some (save_to_file aab_graph)) empty_graph = (Loaded 0 0 [], empty_graph).
Proof.
  assert (H : forall e E, heap aab_graph !! e = Some E -> relations E = []).
  { intros e E. destruct e as [|[|[|e]]]; vm_compute; by intros [= <-]. }
  split; [vm_compute; reflexivity|]. split; [exact H|].
  apply (save_to_file_drops_isolated aab_graph H).
Defined.

(** * One name, two entities *)

(** C3, the defect: [find_entity_exact] compares the whole name it is given,
    [create_entity] stores its first 127 bytes.  In the session that imports
    a relation of the 127-letter name, then enters the 128-letter name at
    "Add Entity", the table holds two entities of the 127-letter name, and
    [get_or_create_entity], which returned the first of them for that name
    during the import, returns the second from then on. *)
Theorem get_or_create_entity_second_entity :
  (length full_name < NAME_LEN)%nat /\
  reachable full_name_graph /\ reachable twin_graph /\
  get_or_create_entity full_name empty_graph = (0%nat, snd (create_entity full_name empty_graph)) /\
  fst (get_or_create_entity full_name full_name_graph) = 0%nat /\
  fst (get_or_create_entity full_name twin_graph) = 2%nat /\
  snd (get_or_create_entity full_name twin_graph) = twin_graph /\
  all_entities twin_graph = [2; 0; 1]%nat /\
  ename twin_graph 0 = full_name /\ ename twin_graph 2 = full_name.
Proof.
  split; [vm_compute; lia|].
  split; [apply reach_import, reach_start|].
  split; [apply reach_add_entity, reach_import, reach_start|].
  split; [vm_compute; reflexivity|].
  split; [vm_compute; reflexivity|].
  split; [vm_compute; reflexivity|].
  split; [vm_compute; reflexivity|].
  split; [vm_compute; reflexivity|].
  split; vm_compute; reflexivity.
Qed.

(** * A selection that does not fit an int *)

(** C9, the defect: the selection is stored in an [int] without a test of its
    size.  The line typed holds at most 31 bytes, which is room for numbers
    far beyond [INT_MAX]; [4294967298] is no number of [1 .. 2], but [atoi]
    makes 2 of it, so the second candidate is returned and nothing is
    cancelled.  Shown for the function itself and for the search for [al]
    among Alice, Alan and Bob. *)
Theorem fuzzy_pick_from_suggestions_int_overflow :
  (console_read_line 32 big_answer).1 = lit "4294967298" /\
  decimal (lit "4294967298") = 4294967298 /\
  ~ (1 <= 4294967298 <= 2) /\
  INT_MAX < 4294967298 /\
  atoi (lit "4294967298") = 2 /\
  fuzzy_pick_from_suggestions aab_graph [1; 0]%nat 2 big_answer
    = (Some 0%nat,
       {| stdin := []; stdout := [DidYouMean [lit "Alan"; lit "Alice"]] |}) /\
  search_entity_smart (lit "al") aab_graph big_answer
    = (Some 0%nat,
       {| stdin := []; stdout := [DidYouMean [lit "Alan"; lit "Alice"]] |}).
Proof.
  split; [vm_compute; reflexivity|].
  split; [vm_compute; reflexivity|].
  split; [lia|].
  split; [vm_compute; reflexivity|].
  split; [vm_compute; reflexivity|].
  split; vm_compute; reflexivity.
Qed.

(** * The reset between queries *)

Section ResetFacts.

(** Every entity is either untouched by the traversal or marked visited. *)
Lemma bfs_scan_marks cur rs :
  forall h Q cap h' Q',
  (forall e E, h !! e = Some E -> (visited E = 0 /\ prev E = None) \/ visited E = 1) ->
  bfs_scan cur rs h Q cap = inr (h', Q') ->
  forall e E, h' !! e = Some E -> (visited E = 0 /\ prev E = None) \/ visited E = 1.
Proof.
  induction rs as [|r rs IH]; intros h Q cap h' Q' Hm; cbn [bfs_scan].
  - by intros [= <- <-].
  - destruct (h !! target r) as [E0|] eqn:HE0; [|done].
    destruct (visited E0 =? 0); [|by apply IH].
    destruct (cap <=? length Q)%nat; [done|].
    apply IH. intros e E. destruct (decide (e = target r)) as [->|Hne].
    + rewrite list_lookup_insert_eq by (by eapply lookup_lt_Some).
      intros [= <-]. by right.
    + rewrite list_lookup_insert_ne by done. apply Hm.
Qed.

Lemma bfs_loop_marks tgt fuel :
  forall h Q head cap,
  (forall e E, h !! e = Some E -> (visited E = 0 /\ prev E = None) \/ visited E = 1) ->
  forall e E, (bfs_loop fuel tgt h Q head cap).2 !! e = Some E ->
    (visited E = 0 /\ prev E = None) \/ visited E = 1.
Proof.
  induction fuel as [|fuel IH]; intros h Q head cap Hm; [done|].
  cbn [bfs_loop]. destruct (Q !! head) as [cur|]; [|done].
  destruct (cur =? tgt)%nat; [done|].
  destruct (h !! cur) as [E0|]; [|done].
  destruct (bfs_scan cur (relations E0) h Q _) as [f|[h' Q']] eqn:Hscan; [done|].
  apply IH. by eapply bfs_scan_marks.
Qed.

Lemma bfs_run_marks src tgt g :
  indexed g ->
  forall e E, (bfs_run src tgt g).2 !! e = Some E ->
    (visited E = 0 /\ prev E = None) \/ visited E = 1.
Proof.
  intros Hix. unfold bfs_run. apply bfs_loop_marks.
  rewrite (reset_bfs_marks_indexed g Hix). cbn [heap unmarked].
  intros e E. destruct (decide (src = e)) as [->|Hne].
  - rewrite list_lookup_alter_eq, list_lookup_fmap.
    destruct (heap g !! e); simpl; intros HE; simplify_eq. by right.
  - rewrite list_lookup_alter_ne by done. rewrite list_lookup_fmap.
    destruct (heap g !! e); simpl; intros HE; simplify_eq. by left.
Qed.

(** Every entry of the queue is reached from the source. *)
Lemma bfs_inv_hops src tgt h Q D head :
  bfs_inv src tgt h Q D head ->
  forall i e, Q !! i = Some e -> exists n, hops h src e n.
Proof.
  intros Hinv i. induction i as [i IH] using lt_wf_ind. intros e Hq.
  destruct (inv_src _ _ _ _ _ _ Hinv) as (Hq0 & _ & _).
  destruct (decide (i = 0)%nat) as [->|Hi].
  { rewrite Hq0 in Hq. injection Hq as <-. exists 0%nat. constructor. }
  destruct (inv_par _ _ _ _ _ _ Hinv i e ltac:(lia) Hq)
    as (E & p & j & d' & _ & _ & Hj & Hsucc & Hdj & Hdi).
  assert (j < i)%nat as Hji.
  { destruct (decide (j < i)%nat) as [|Hge]; [done|].
    pose proof (inv_sorted _ _ _ _ _ _ Hinv i j (S d') d' ltac:(lia) Hdi Hdj). lia. }
  destruct (IH j Hji p Hj) as [n Hn]. exists (S n). by econstructor.
Qed.

Lemma bfs_run_inv src tgt g :
  wf g -> (src < length (heap g))%nat ->
  (forall f, (bfs_run src tgt g).1 <> BfsFault f) ->
  exists Q D head, bfs_inv src tgt (bfs_run src tgt g).2 Q D head.
Proof.
  intros Hwf Hsrc Hok.
  pose proof (bfs_inv_init src tgt g (wf_indexed g Hwf) Hsrc) as Hinit.
  assert (Hshape1 : clear_marks <$> alter mark_visited src (heap (reset_bfs_marks g))
                    = clear_marks <$> heap g).
  { rewrite shape_alter by done. apply shape_reset. }
  assert (Hvalid : forall a b,
            succ (alter mark_visited src (heap (reset_bfs_marks g))) a b ->
            (b < length (alter mark_visited src (heap (reset_bfs_marks g))))%nat).
  { intros a b (E & r & HE & Hr & <-)%(succ_shape _ _ _ _ Hshape1).
    apply (f_equal length) in Hshape1. rewrite !length_fmap in Hshape1.
    rewrite Hshape1. by eapply (wf_targets g Hwf). }
  pose proof (bfs_loop_inv src tgt (S (length (alter mark_visited src (heap (reset_bfs_marks g)))))
                _ [src] [0%nat] 0%nat QUEUE_INIT Hinit Hvalid) as Hloop.
  fold (bfs_run src tgt g) in Hloop.
  destruct ((bfs_run src tgt g).1) as [| |f] eqn:Hout.
  - destruct Hloop as (Q & D & head & d & Hinv & _). by exists Q, D, head.
  - destruct Hloop as (Q & D & Hinv). by exists Q, D, (length Q).
  - by destruct (Hok f).
Qed.

(** The marks a query leaves are those of its own traversal. *)
Lemma bfs_from_marks src tgt g :
  wf g -> (src < length (heap g))%nat ->
  (forall f, (bfs_from src tgt g).1 <> Undefined f) ->
  forall e E, heap (bfs_from src tgt g).2 !! e = Some E ->
    (visited E = 0 /\ prev E = None) \/
    (visited E = 1 /\ exists n, hops (heap g) src e n).
Proof.
  intros Hwf Hsrc Hok.
  assert (Hrun : forall f, (bfs_run src tgt g).1 <> BfsFault f).
  { intros f Hf. apply (Hok f). unfold bfs_from.
    destruct (bfs_run src tgt g) as [out h2]. cbn [fst] in Hf. by subst out. }
  destruct (bfs_run_inv src tgt g Hwf Hsrc Hrun) as (Q & D & head & Hinv).
  pose proof (bfs_run_marks src tgt g (wf_indexed g Hwf)) as Hm.
  pose proof (bfs_run_shape src tgt g) as Hshape.
  assert (Hheap : heap (bfs_from src tgt g).2 = (bfs_run src tgt g).2).
  { unfold bfs_from. destruct (bfs_run src tgt g) as [[| |f] h2]; cbn [fst snd];
      [by destruct (walk_prev _ _ _)|done|done]. }
  rewrite Hheap. intros e E HE.
  destruct (Hm e E HE) as [H0|H1]; [by left|]. right. split; [done|].
  assert (Hin : e ∈ Q).
  { apply (inv_vis _ _ _ _ _ _ Hinv). exists E. split; [done|lia]. }
  apply list_elem_of_lookup in Hin as [i Hi].
  destruct (bfs_inv_hops src tgt _ Q D head Hinv i e Hi) as [n Hn].
  exists n. by apply (hops_shape _ _ _ _ _ Hshape).
Qed.

End ResetFacts.

(** C7: every path query clears the marks before it traverses, so a query
    that follows another, from the same source or from any other, is not
    affected by it.  On a well-formed graph, and after a first query that
    stayed within its queue and its stack:
    [reset_bfs_marks] leaves every entity unvisited and without predecessor;
    the second query reports, and leaves on the console, what it does on the
    graph without any mark; and when it traverses (both names resolve, and it
    stays within its queue and stack), the state it leaves is the state it
    leaves on the graph without marks, in which an entity is marked visited
    only if this query reached it from its own source, and every other
    entity is unvisited and without predecessor, whatever the first query
    had marked. *)
Theorem reset_between_queries (g : Graph) (A B A' C : cstr) (fz : bool)
    (con con' : Console) :
  wf g ->
  (forall f, (find_path_bfs A B fz g con).1.1 <> Undefined f) ->
  let g1 := (find_path_bfs A B fz g con).1.2 in
  let q := find_path_bfs A' C fz g1 con' in
  let clean := find_path_bfs A' C fz (unmarked g) con' in
  (forall e E, heap (reset_bfs_marks g1) !! e = Some E -> visited E = 0 /\ prev E = None) /\
  q.1.1 = clean.1.1 /\ q.2 = clean.2 /\
  (forall src tgt,
     (resolve fz A' g1 con').1 = Some src ->
     (resolve fz C g1 (resolve fz A' g1 con').2).1 = Some tgt ->
     (forall f, q.1.1 <> Undefined f) ->
     q.1.2 = clean.1.2 /\
     forall e E, heap q.1.2 !! e = Some E ->
       (visited E = 0 /\ prev E = None) \/
       (visited E = 1 /\ exists n, hops (heap g) src e n)).
Proof.
  intros Hwf Hfirst g1 q clean.
  destruct (find_path_bfs_graph A B fz g con Hfirst) as [Hh Hs]. fold g1 in Hh, Hs.
  assert (Hwf1 : wf g1) by (by apply wf_find_path_bfs).
  assert (Hs' : clear_marks <$> heap g1 = clear_marks <$> heap (unmarked g)).
  { rewrite Hs. unfold unmarked. simpl. rewrite <- list_fmap_compose.
    apply list_fmap_ext. intros i E _. reflexivity. }
  assert (Hreset : reset_bfs_marks g1 = reset_bfs_marks (unmarked g)).
  { rewrite (reset_bfs_marks_indexed g1 (wf_indexed g1 Hwf1)).
    rewrite (reset_bfs_marks_indexed (unmarked g))
      by (apply indexed_unmarked, (wf_indexed g Hwf)).
    rewrite unmarked_idemp. by apply unmarked_same. }
  assert (Hq : forall src tgt,
            (resolve fz A' g1 con').1 = Some src ->
            (resolve fz C g1 (resolve fz A' g1 con').2).1 = Some tgt ->
            q.1 = bfs_from src tgt g1 /\ clean.1 = bfs_from src tgt g1).
  { intros src tgt Hsrc Htgt. subst q clean. unfold find_path_bfs.
    rewrite <- (resolve_ext fz A' g1 (unmarked g)) by done.
    destruct (resolve fz A' g1 con') as [src' con1]. cbn [fst snd] in *. subst src'.
    rewrite <- (resolve_ext fz C g1 (unmarked g)) by done.
    destruct (resolve fz C g1 con1) as [tgt' con2]. cbn [fst snd] in *. subst tgt'.
    rewrite <- (bfs_from_ext src tgt g1 (unmarked g)) by done.
    by destruct (bfs_from src tgt g1). }
  split; [|split; [|split]].
  - intros e E. rewrite (reset_bfs_marks_indexed g1 (wf_indexed g1 Hwf1)).
    cbn [heap unmarked]. rewrite list_lookup_fmap.
    destruct (heap g1 !! e); simpl; intros HE; by simplify_eq.
  - subst q clean. unfold find_path_bfs.
    rewrite (resolve_ext fz A' g1 (unmarked g)) by done.
    destruct (resolve fz A' (unmarked g) con') as [src con1].
    rewrite (resolve_ext fz C g1 (unmarked g)) by done.
    destruct (resolve fz C (unmarked g) con1) as [tgt con2].
    destruct src as [src|]; [|done]. destruct tgt as [tgt|]; [|done].
    rewrite (bfs_from_ext src tgt g1 (unmarked g)) by done.
    by destruct (bfs_from _ _ _).
  - subst q clean. unfold find_path_bfs.
    rewrite (resolve_ext fz A' g1 (unmarked g)) by done.
    destruct (resolve fz A' (unmarked g) con') as [src con1].
    rewrite (resolve_ext fz C g1 (unmarked g)) by done.
    destruct (resolve fz C (unmarked g) con1) as [tgt con2].
    destruct src as [src|]; [|done]. destruct tgt as [tgt|]; [|done].
    rewrite (bfs_from_ext src tgt g1 (unmarked g)) by done.
    by destruct (bfs_from _ _ _).
  - intros src tgt Hsrc Htgt Hok.
    destruct (Hq src tgt Hsrc Htgt) as [Hq1 Hq2].
    split; [by rewrite Hq1, Hq2|].
    assert (Hlt : (src < length (heap g1))%nat).
    { apply (all_entities_lt g1 src Hwf1), (resolve_in_table fz A' g1 con'). done. }
    replace (q.1.2) with (bfs_from src tgt g1).2 by (by rewrite Hq1).
    intros e E HE.
    destruct (bfs_from_marks src tgt g1 Hwf1 Hlt
                ltac:(intros f; rewrite <- Hq1; apply Hok) e E HE) as [H0|[H1 [n Hn]]];
      [by left|].
    right. split; [done|]. exists n. by apply (hops_shape _ _ _ _ _ Hs).
Qed.

(** The theorem on the graph Alice -> Bob -> Carol, Alice -> Carol: after the
    query from Alice to Carol, the query from Bob to Carol. *)
Lemma reset_between_queries_witness :
  wf abc_graph /\
  (forall f, (find_path_bfs (lit "Alice") (lit "Carol") false abc_graph con0).1.1
             <> Undefined f) /\
  let g1 := (find_path_bfs (lit "Alice") (lit "Carol") false abc_graph con0).1.2 in
  (find_path_bfs (lit "Bob") (lit "Carol") false g1 con0).1.1 =
    (find_path_bfs (lit "Bob") (lit "Carol") false (unmarked abc_graph) con0).1.1 /\
  (find_path_bfs (lit "Bob") (lit "Carol") false g1 con0).2 =
    (find_path_bfs (lit "Bob") (lit "Carol") false (unmarked abc_graph) con0).2.
Proof.
  assert (H : forall f, (find_path_bfs (lit "Alice") (lit "Carol") false abc_graph con0).1.1
                        <> Undefined f).
  { intros f. rewrite find_path_bfs_direct_edge. discriminate. }
  split; [apply table_ok_abc_graph|]. split; [exact H|].
  destruct (reset_between_queries abc_graph (lit "Alice") (lit "Carol") (lit "Bob") (lit "Carol")
              false con0 con0 (proj1 table_ok_abc_graph) H) as (_ & H2 & H3 & _).
  split; [exact H2|exact H3].
Defined.
